(** * Verification of the GCP exceptions processor and the secret renewal function

    A shallow embedding of
    - [schema_models.py]      (the pydantic models of the exceptions document),
    - [process_exceptions.py] (validation, matching, aggregation, output),
    - [secret-renewal-function/main.py] (duration parsing, expiration update),
    followed by the properties proved about them.

    Text is modelled by Rocq strings, one character per code point, which
    covers the code points 0 to 255. *)

From Stdlib Require Import ZArith Ascii String List Bool Lia DecimalString.

From stdpp Require Import gmap strings list.

Open Scope string_scope.

(** * The programs *)

(** ** Characters and strings *)

Definition chars (s : string) : list ascii := list_ascii_of_string s.

Definition text (l : list ascii) : string := string_of_list_ascii l.

Definition code (c : ascii) : N := N_of_ascii c.

Definition code_le (a b : ascii) : bool := (code a <=? code b)%N.

Definition in_range (lo hi c : ascii) : bool := code_le lo c && code_le c hi.

Definition is_digit (c : ascii) : bool := in_range "0" "9" c.

Definition is_ascii_letter (c : ascii) : bool := in_range "a" "z" c || in_range "A" "Z" c.

Definition newline : ascii := "010"%char.

Definition backslash : ascii := "092"%char.

Definition dquote : ascii := "034"%char.

Definition ascii_eqb (a b : ascii) : bool := Ascii.eqb a b.

Definition nonempty {A : Type} (l : list A) : bool :=
  match l with [] => false | _ => true end.

Definition show_nat (n : nat) : string := NilZero.string_of_uint (Nat.to_uint n).

(** ** The regular expressions of [re]

    A model of the fragment of Python's [re] module that the programs and
    the examples use: literals, [.], [^], [$], alternation, groups,
    non-capturing groups, the quantifiers [*], [+], [?], [{m}], [{m,}],
    [{m,n}] and their lazy forms, character sets with ranges and negation,
    the escapes [\d] and [\D], control escapes and escaped punctuation.
    [compile] follows the parser of the module ([_parse_sub], [_parse],
    [_escape], [_class_escape]) and reports its errors with their
    positions; a pattern that uses anything else is [Unsupported]. *)

Module Re.

Inductive class_item :=
| IChar (c : ascii)
| IRange (lo hi : ascii)
| IDigit (neg : bool).

Inductive charset :=
| CAny
| CLit (c : ascii)
| CSet (negate : bool) (items : list class_item).

Inductive re :=
| Eps
| Chars (cs : charset)
| Bol
| Eol
| Seq (a b : re)
| Alt (a b : re)
| Star (greedy : bool) (a : re)
| Group (n : nat) (a : re).

Definition item_mem (i : class_item) (c : ascii) : bool :=
  match i with
  | IChar x => ascii_eqb x c
  | IRange lo hi => in_range lo hi c
  | IDigit neg => xorb neg (is_digit c)
  end.

Definition cs_mem (cs : charset) (c : ascii) : bool :=
  match cs with
  | CAny => negb (ascii_eqb c newline)
  | CLit x => ascii_eqb x c
  | CSet neg items => xorb neg (existsb (fun i => item_mem i c) items)
  end.

(** *** Matching

    A position is the flag "nothing consumed yet" and the text that
    remains.  [run] is a backtracking matcher in continuation-passing
    style: alternatives are tried in the priority order of the module
    (left branch first, greedy repetition first), and the captures of the
    first successful path are returned. *)

Definition position : Type := bool * list ascii.
Definition captures : Type := list (nat * list ascii).
Definition cont : Type := position -> captures -> option captures.

Definition remaining (st : position) : list ascii := snd st.

(** [$] of Python matches at the end and before a final newline; the [$]
    of the Rust engine pydantic uses for [pattern=] matches at the end
    only. *)
Inductive dialect := Python | Rust.

Definition at_end (d : dialect) (l : list ascii) : bool :=
  match l with
  | [] => true
  | [c] => match d with Python => ascii_eqb c newline | Rust => false end
  | _ => false
  end.

Definition consumed (st st' : position) : list ascii :=
  take (length (remaining st) - length (remaining st')) (remaining st).

Definition or_else (a b : option captures) : option captures :=
  match a with Some c => Some c | None => b end.

(** The loop of a repetition: one more iteration, which must consume
    text, then the loop again; or the rest of the pattern.  The text that
    remains bounds the number of iterations. *)
Fixpoint star_loop (step : position -> captures -> cont -> option captures)
    (greedy : bool) (k : cont) (fuel : nat) (st : position) (caps : captures)
  : option captures :=
  let more :=
    match fuel with
    | O => None
    | S f =>
        step st caps (fun st' caps' =>
          if (length (remaining st') <? length (remaining st))%nat
          then star_loop step greedy k f st' caps' else None)
    end in
  if greedy then or_else more (k st caps) else or_else (k st caps) more.

Fixpoint run (d : dialect) (r : re) (st : position) (caps : captures) (k : cont)
  {struct r} : option captures :=
  match r with
  | Eps => k st caps
  | Chars cs =>
      match remaining st with
      | c :: t => if cs_mem cs c then k (false, t) caps else None
      | [] => None
      end
  | Bol => if fst st then k st caps else None
  | Eol => if at_end d (remaining st) then k st caps else None
  | Seq a b => run d a st caps (fun st' caps' => run d b st' caps' k)
  | Alt a b => or_else (run d a st caps k) (run d b st caps k)
  | Star g a => star_loop (run d a) g k (length (remaining st)) st caps
  | Group n a =>
      run d a st caps (fun st' caps' => k st' ((n, consumed st st') :: caps'))
  end.

(** *** What a match is

    [Matches d r st caps st' caps']: the expression [r] can consume the
    text between the positions [st] and [st'], and doing so turns the
    captures [caps] into [caps'].  An iteration of a repetition consumes
    text. *)
Inductive Matches (d : dialect) : re -> position -> captures -> position -> captures -> Prop :=
| MEps st caps : Matches d Eps st caps st caps
| MChars cs b c t caps :
    cs_mem cs c = true -> Matches d (Chars cs) (b, c :: t) caps (false, t) caps
| MBol t caps : Matches d Bol (true, t) caps (true, t) caps
| MEol st caps : at_end d (remaining st) = true -> Matches d Eol st caps st caps
| MSeq a b st caps st1 caps1 st2 caps2 :
    Matches d a st caps st1 caps1 -> Matches d b st1 caps1 st2 caps2 ->
    Matches d (Seq a b) st caps st2 caps2
| MAltL a b st caps st1 caps1 :
    Matches d a st caps st1 caps1 -> Matches d (Alt a b) st caps st1 caps1
| MAltR a b st caps st1 caps1 :
    Matches d b st caps st1 caps1 -> Matches d (Alt a b) st caps st1 caps1
| MStarStop g a st caps : Matches d (Star g a) st caps st caps
| MStarMore g a st caps st1 caps1 st2 caps2 :
    Matches d a st caps st1 caps1 ->
    length (remaining st1) < length (remaining st) ->
    Matches d (Star g a) st1 caps1 st2 caps2 ->
    Matches d (Star g a) st caps st2 caps2
| MGroup n a st caps st1 caps1 :
    Matches d a st caps st1 caps1 ->
    Matches d (Group n a) st caps st1 ((n, consumed st st1) :: caps1).

Definition accept : cont := fun _ caps => Some caps.

(** [pattern.match(s)]: a match that starts at position 0 and may end
    anywhere. *)
Definition match_at_start (d : dialect) (r : re) (s : list ascii) : option captures :=
  run d r (true, s) [] accept.

(** [pattern.search(s)]: the first offset at which a match starts. *)
Fixpoint search_from (d : dialect) (r : re) (first : bool) (s : list ascii) : option captures :=
  match run d r (first, s) [] accept with
  | Some c => Some c
  | None =>
      match s with
      | [] => None
      | _ :: t => search_from d r false t
      end
  end.

Definition search (d : dialect) (r : re) (s : list ascii) : option captures :=
  search_from d r true s.

Fixpoint group (n : nat) (caps : captures) : option (list ascii) :=
  match caps with
  | [] => None
  | (m, s) :: rest => if (n =? m)%nat then Some s else group n rest
  end.

(** *** Parsing

    The pattern is read as a sequence of tokens, a character or a
    backslash with the character after it, as the tokenizer of the module
    does.  A pattern that ends in a lone backslash is left out of the
    fragment. *)

Inductive token := TChr (c : ascii) | TEsc (c : ascii).

Fixpoint tokenize (s : list ascii) : option (list token) :=
  match s with
  | [] => Some []
  | c :: t =>
      if ascii_eqb c backslash then
        match t with
        | [] => None
        | e :: t' => option_map (cons (TEsc e)) (tokenize t')
        end
      else option_map (cons (TChr c)) (tokenize t)
  end.

Definition width (t : token) : nat := match t with TChr _ => 1 | TEsc _ => 2 end.

Definition tok_text (t : token) : string :=
  match t with
  | TChr c => String c ""
  | TEsc c => String backslash (String c "")
  end.

Definition is_chr (c : ascii) (t : token) : bool :=
  match t with TChr x => ascii_eqb x c | TEsc _ => false end.

Inductive outcome (A : Type) :=
| Parsed (a : A)
| Error (msg : string) (pos : nat)
| Unsupported.
Arguments Parsed {A} a.
Arguments Error {A} msg pos.
Arguments Unsupported {A}.

#[global] Instance outcome_bind : MBind outcome := fun A B f x =>
  match x with
  | Parsed a => f a
  | Error m p => Error m p
  | Unsupported => Unsupported
  end.

Inductive escape :=
| EscLit (c : ascii)
| EscDigit (neg : bool)
| EscBad
| EscUnsupported.

(** The table [ESCAPES] of the module. *)
Definition control_escape (in_set : bool) (c : ascii) : option ascii :=
  if ascii_eqb c "a" then Some "007"%char
  else if ascii_eqb c "b" then (if in_set then Some "008"%char else None)
  else if ascii_eqb c "f" then Some "012"%char
  else if ascii_eqb c "n" then Some "010"%char
  else if ascii_eqb c "r" then Some "013"%char
  else if ascii_eqb c "t" then Some "009"%char
  else if ascii_eqb c "v" then Some "011"%char
  else if ascii_eqb c backslash then Some backslash
  else None.

Definition mem_chars (c : ascii) (s : string) : bool :=
  existsb (ascii_eqb c) (chars s).

(** [_escape] (outside a set) and [_class_escape] (inside one). *)
Definition classify_escape (in_set : bool) (c : ascii) : escape :=
  match control_escape in_set c with
  | Some x => EscLit x
  | None =>
      if ascii_eqb c "d" then EscDigit false
      else if ascii_eqb c "D" then EscDigit true
      else if mem_chars c "sSwW" then EscUnsupported
      else if negb in_set && mem_chars c "AbBZ" then EscUnsupported
      else if mem_chars c "xuUN" then EscUnsupported
      else if is_digit c then EscUnsupported
      else if is_ascii_letter c then EscBad
      else EscLit c
  end.

Inductive class_atom := ALit (c : ascii) | ACat (neg : bool).

Definition atom_item (a : class_atom) : class_item :=
  match a with ALit c => IChar c | ACat n => IDigit n end.

Definition class_code (t : token) (pos : nat) : outcome class_atom :=
  match t with
  | TChr c => Parsed (ALit c)
  | TEsc c =>
      match classify_escape true c with
      | EscLit x => Parsed (ALit x)
      | EscDigit n => Parsed (ACat n)
      | EscBad => Error ("bad escape " ++ tok_text t) pos
      | EscUnsupported => Unsupported
      end
  end.

Definition bad_range (this that : token) : string :=
  "bad character range " ++ tok_text this ++ "-" ++ tok_text that.

(** The loop of [_parse] over the members of a set; [here] is the
    position of the opening bracket and [items] the members read so far,
    last first. *)
Fixpoint parse_class (fuel here : nat) (items : list class_item)
    (ts : list token) (pos : nat) : outcome (list class_item * list token * nat) :=
  match fuel with
  | O => Unsupported
  | S f =>
      match ts with
      | [] => Error "unterminated character set" here
      | this :: ts1 =>
          let pos1 := pos + width this in
          if is_chr "]" this && nonempty items then Parsed (rev items, ts1, pos1)
          else
            code1 ← class_code this pos;
            match ts1 with
            | TChr "-" :: ts2 =>
                match ts2 with
                | [] => Error "unterminated character set" here
                | that :: ts3 =>
                    let pos3 := pos1 + 1 + width that in
                    if is_chr "]" that
                    then Parsed (rev (IChar "-" :: atom_item code1 :: items), ts3, pos3)
                    else
                      code2 ← class_code that (pos1 + 1);
                      match code1, code2 with
                      | ALit lo, ALit hi =>
                          if code_le lo hi
                          then parse_class f here (IRange lo hi :: items) ts3 pos3
                          else Error (bad_range this that) pos
                      | _, _ => Error (bad_range this that) pos
                      end
                end
            | _ => parse_class f here (atom_item code1 :: items) ts1 pos1
            end
      end
  end.

(** The items of a sequence carry what [_parse] asks of the item a
    quantifier follows: an anchor cannot be repeated, a repetition cannot
    be repeated again. *)
Inductive kind := KAt | KRepeat | KPlain.

Fixpoint seq_list (l : list re) : re :=
  match l with
  | [] => Eps
  | [r] => r
  | r :: t => Seq r (seq_list t)
  end.

Definition seq_of (acc : list (kind * re)) : re := seq_list (map snd (rev acc)).

Fixpoint copies (n : nat) (r : re) (tail : re) : re :=
  match n with
  | O => tail
  | S m => Seq r (copies m r tail)
  end.

Fixpoint optional (n : nat) (greedy : bool) (r : re) : re :=
  match n with
  | O => Eps
  | S m =>
      let more := Seq r (optional m greedy r) in
      if greedy then Alt more Eps else Alt Eps more
  end.

(** [r{lo,hi}], unfolded: [lo] copies, then a star or up to [hi - lo]
    further optional copies. *)
Definition repeat (lo : nat) (hi : option nat) (greedy : bool) (r : re) : re :=
  match lo, hi with
  | 0, None => Star greedy r
  | 0, Some 1 => if greedy then Alt r Eps else Alt Eps r
  | 0, Some h => optional h greedy r
  | S m, None => copies lo r (Star greedy r)
  | S m, Some h =>
      if (h =? lo)%nat then copies m r r
      else copies lo r (optional (h - lo) greedy r)
  end.

Fixpoint read_digits (ts : list token) : list ascii * list token :=
  match ts with
  | TChr c :: t =>
      if is_digit c then let '(ds, rest) := read_digits t in (c :: ds, rest)
      else ([], ts)
  | _ => ([], ts)
  end.

Definition digit_value (c : ascii) : nat := N.to_nat (code c) - 48.

Definition int_of (ds : list ascii) : nat :=
  fold_left (fun n c => 10 * n + digit_value c) ds 0.

Inductive brace :=
| BraceLiteral
| BraceRepeat (lo hi : list ascii) (rest : list token) (len : nat).

(** What follows an opening brace: a repetition count, or nothing that
    reads as one, in which case the brace is a literal. *)
Definition parse_brace (ts : list token) : brace :=
  match ts with
  | TChr c :: _ =>
      if ascii_eqb c "}" then BraceLiteral
      else
        let '(lo, ts1) := read_digits ts in
        let '(hi, ts2, n) :=
          match ts1 with
          | TChr x :: ts1' =>
              if ascii_eqb x ","
              then let '(hi, ts2) := read_digits ts1' in (hi, ts2, length lo + 1 + length hi)
              else (lo, ts1, length lo)
          | _ => (lo, ts1, length lo)
          end in
        match ts2 with
        | TChr y :: ts3 => if ascii_eqb y "}" then BraceRepeat lo hi ts3 (n + 1) else BraceLiteral
        | _ => BraceLiteral
        end
  | _ => BraceLiteral
  end.

(** Counts above this bound are left out of the fragment. *)
Definition max_count : nat := 64.

Definition pstate : Type := list token * nat * nat.

(** The quantifier [lo, hi] at position [qpos], applied to the last item
    of [acc]; [ts] and [pos] are what follows the quantifier. *)
Definition quantify (acc : list (kind * re)) (lo : nat) (hi : option nat)
    (qpos : nat) (ts : list token) (pos : nat)
  : outcome (list (kind * re) * list token * nat) :=
  match acc with
  | [] => Error "nothing to repeat" qpos
  | (KAt, _) :: _ => Error "nothing to repeat" qpos
  | (KRepeat, _) :: _ => Error "multiple repeat" qpos
  | (KPlain, r) :: acc' =>
      match ts with
      | TChr c :: ts' =>
          if ascii_eqb c "?" then Parsed ((KRepeat, repeat lo hi false r) :: acc', ts', pos + 1)
          else if ascii_eqb c "+" then Unsupported
          else Parsed ((KRepeat, repeat lo hi true r) :: acc', ts, pos)
      | _ => Parsed ((KRepeat, repeat lo hi true r) :: acc', ts, pos)
      end
  end.

Definition special_chars : string := ".\[{()*+?^$|".

(** [_parse_sub] and [_parse]: alternatives of sequences of items.  The
    state is the tokens that remain, the position in the pattern and the
    number of the next capturing group. *)
Fixpoint parse_alt (fuel : nat) (ts : list token) (pos ng : nat) {struct fuel}
  : outcome (re * pstate) :=
  match fuel with
  | O => Unsupported
  | S f =>
      '(a, (ts1, pos1, ng1)) ← parse_seq f [] ts pos ng;
      match ts1 with
      | TChr c :: ts2 =>
          if ascii_eqb c "|"
          then '(b, st2) ← parse_alt f ts2 (pos1 + 1) ng1; Parsed (Alt a b, st2)
          else Parsed (a, (ts1, pos1, ng1))
      | _ => Parsed (a, (ts1, pos1, ng1))
      end
  end
with parse_seq (fuel : nat) (acc : list (kind * re)) (ts : list token) (pos ng : nat)
    {struct fuel} : outcome (re * pstate) :=
  match ts with
  | [] => Parsed (seq_of acc, (ts, pos, ng))
  | this :: ts1 =>
      if is_chr "|" this || is_chr ")" this then Parsed (seq_of acc, (ts, pos, ng))
      else
        match fuel with
        | O => Unsupported
        | S f =>
            let pos1 := pos + width this in
            match this with
            | TEsc e =>
                match classify_escape false e with
                | EscLit x => parse_seq f ((KPlain, Chars (CLit x)) :: acc) ts1 pos1 ng
                | EscDigit n => parse_seq f ((KPlain, Chars (CSet n [IDigit false])) :: acc) ts1 pos1 ng
                | EscBad => Error ("bad escape " ++ tok_text this) pos
                | EscUnsupported => Unsupported
                end
            | TChr c =>
                if negb (mem_chars c special_chars)
                then parse_seq f ((KPlain, Chars (CLit c)) :: acc) ts1 pos1 ng
                else if ascii_eqb c "["
                then
                  let '(neg, ts2, pos2) :=
                    match ts1 with
                    | t :: ts2 => if is_chr "^" t then (true, ts2, pos1 + 1) else (false, ts1, pos1)
                    | [] => (false, ts1, pos1)
                    end in
                  '(items, ts3, pos3) ← parse_class (S (length ts2)) pos [] ts2 pos2;
                  parse_seq f ((KPlain, Chars (CSet neg items)) :: acc) ts3 pos3 ng
                else if ascii_eqb c "*"
                then '(acc', ts2, pos2) ← quantify acc 0 None pos ts1 pos1;
                     parse_seq f acc' ts2 pos2 ng
                else if ascii_eqb c "+"
                then '(acc', ts2, pos2) ← quantify acc 1 None pos ts1 pos1;
                     parse_seq f acc' ts2 pos2 ng
                else if ascii_eqb c "?"
                then '(acc', ts2, pos2) ← quantify acc 0 (Some 1) pos ts1 pos1;
                     parse_seq f acc' ts2 pos2 ng
                else if ascii_eqb c "{"
                then
                  match parse_brace ts1 with
                  | BraceLiteral => parse_seq f ((KPlain, Chars (CLit c)) :: acc) ts1 pos1 ng
                  | BraceRepeat lo hi ts2 len =>
                      if (max_count <? length lo)%nat || (max_count <? length hi)%nat then Unsupported
                      else
                        let lo' := int_of lo in
                        let hi' := if nonempty hi then Some (int_of hi) else None in
                        if (max_count <? lo')%nat || (max_count <? default 0 hi')%nat then Unsupported
                        else if nonempty hi && (int_of hi <? lo')%nat
                        then Error "min repeat greater than max repeat" pos1
                        else
                          '(acc', ts3, pos3) ← quantify acc lo' hi' pos ts2 (pos1 + len);
                          parse_seq f acc' ts3 pos3 ng
                  end
                else if ascii_eqb c "."
                then parse_seq f ((KPlain, Chars CAny) :: acc) ts1 pos1 ng
                else if ascii_eqb c "^"
                then parse_seq f ((KAt, Bol) :: acc) ts1 pos1 ng
                else if ascii_eqb c "$"
                then parse_seq f ((KAt, Eol) :: acc) ts1 pos1 ng
                else if ascii_eqb c "("
                then
                  match ts1 with
                  | TChr q :: ts2 =>
                      if ascii_eqb q "?" then
                        match ts2 with
                        | TChr o :: ts3 =>
                            if ascii_eqb o ":" then
                              '(r, (ts4, pos4, ng4)) ← parse_alt f ts3 (pos1 + 2) ng;
                              match ts4 with
                              | t :: ts5 =>
                                  if is_chr ")" t
                                  then parse_seq f ((KPlain, r) :: acc) ts5 (pos4 + 1) ng4
                                  else Error "missing ), unterminated subpattern" pos
                              | [] => Error "missing ), unterminated subpattern" pos
                              end
                            else Unsupported
                        | _ => Unsupported
                        end
                      else
                        '(r, (ts4, pos4, ng4)) ← parse_alt f ts1 pos1 (S ng);
                        match ts4 with
                        | t :: ts5 =>
                            if is_chr ")" t
                            then parse_seq f ((KPlain, Group ng r) :: acc) ts5 (pos4 + 1) ng4
                            else Error "missing ), unterminated subpattern" pos
                        | [] => Error "missing ), unterminated subpattern" pos
                        end
                  | _ =>
                      '(r, (ts4, pos4, ng4)) ← parse_alt f ts1 pos1 (S ng);
                      match ts4 with
                      | t :: ts5 =>
                          if is_chr ")" t
                          then parse_seq f ((KPlain, Group ng r) :: acc) ts5 (pos4 + 1) ng4
                          else Error "missing ), unterminated subpattern" pos
                      | [] => Error "missing ), unterminated subpattern" pos
                      end
                  end
                else Unsupported
            end
        end
  end.

(** [re.compile]: the whole pattern must be consumed; what can remain is
    a closing parenthesis that nothing opened. *)
Definition compile (p : string) : outcome re :=
  match tokenize (chars p) with
  | None => Unsupported
  | Some ts =>
      '(r, (rest, pos, _)) ← parse_alt (2 * length ts + 2) ts 0 1;
      match rest with
      | [] => Parsed r
      | _ => Error "unbalanced parenthesis" pos
      end
  end.

(** [str(e)] of an [re.error]: the message, the position and, for a
    pattern of several lines, the line and the column. *)
Definition count_newlines (l : list ascii) : nat :=
  length (filter (fun c => ascii_eqb c newline = true) l).

Fixpoint since_newline (l : list ascii) (n : nat) : nat :=
  match l with
  | [] => n
  | c :: t => since_newline t (if ascii_eqb c newline then 0 else S n)
  end.

Definition error_str (p : string) (msg : string) (pos : nat) : string :=
  let base := msg ++ " at position " ++ show_nat pos in
  if existsb (ascii_eqb newline) (chars p)
  then
    let before := take pos (chars p) in
    base ++ " (line " ++ show_nat (count_newlines before + 1)
         ++ ", column " ++ show_nat (since_newline before 0 + 1) ++ ")"
  else base.

End Re.

(** ** Python values

    The values [json.load] produces and [json.dump] consumes.  A float is
    kept as its [repr], which determines it. *)

#[warnings="-register-all"]

Inductive value :=
| PyNone
| PyBool (b : bool)
| PyInt (z : Z)
| PyFloat (repr : string)
| PyStr (s : string)
| PyList (items : list value)
| PyDict (items : list (string * value)).

(** [==] on the values [model_dump] produces: the same keys in the same
    order with equal values. *)
Fixpoint py_eq (a b : value) {struct a} : bool :=
  match a, b with
  | PyNone, PyNone => true
  | PyBool x, PyBool y => Bool.eqb x y
  | PyInt x, PyInt y => (x =? y)%Z
  | PyFloat x, PyFloat y => String.eqb x y
  | PyStr x, PyStr y => String.eqb x y
  | PyList l1, PyList l2 =>
      (fix go (l1 l2 : list value) : bool :=
         match l1, l2 with
         | [], [] => true
         | x :: xs, y :: ys => py_eq x y && go xs ys
         | _, _ => false
         end) l1 l2
  | PyDict d1, PyDict d2 =>
      (fix go (d1 d2 : list (string * value)) : bool :=
         match d1, d2 with
         | [], [] => true
         | kx :: xs, ky :: ys =>
             String.eqb (fst kx) (fst ky) && py_eq (snd kx) (snd ky) && go xs ys
         | _, _ => false
         end) d1 d2
  | _, _ => false
  end.

(** [x in l] on a list. *)
Definition py_in (x : value) (l : list value) : bool := existsb (py_eq x) l.

(** [d.get(k)]: the value bound to a key of a dictionary. *)
Fixpoint dict_get (k : string) (d : list (string * value)) : option value :=
  match d with
  | [] => None
  | (k', v) :: rest => if String.eqb k k' then Some v else dict_get k rest
  end.

(** ** [json.dump] with [indent] *)

Definition show_Z (z : Z) : string := NilZero.string_of_int (Z.to_int z).

Definition hex_digit (n : N) : ascii :=
  if (n <? 10)%N then ascii_of_N (48 + n) else ascii_of_N (87 + n).

(** [\uXXXX] for a code point below 256. *)
Definition unicode_escape (c : ascii) : string :=
  String backslash (String "u" (String "0" (String "0"
    (String (hex_digit (code c / 16)) (String (hex_digit (code c mod 16)) ""))))).

(** [py_encode_basestring_ascii]: the escapes of the encoder when
    [ensure_ascii] holds, as it does by default. *)
Definition escape_char (c : ascii) : string :=
  if ascii_eqb c backslash then String backslash (String backslash "")
  else if ascii_eqb c dquote then String backslash (String dquote "")
  else if ascii_eqb c "008" then String backslash "b"
  else if ascii_eqb c "012" then String backslash "f"
  else if ascii_eqb c "010" then String backslash "n"
  else if ascii_eqb c "013" then String backslash "r"
  else if ascii_eqb c "009" then String backslash "t"
  else if in_range " " "~" c then String c ""
  else unicode_escape c.

Definition encode_string (s : string) : string :=
  String dquote (String.concat "" (map escape_char (chars s))) ++ String dquote "".

Definition float_str (repr : string) : string :=
  if String.eqb repr "nan" then "NaN"
  else if String.eqb repr "inf" then "Infinity"
  else if String.eqb repr "-inf" then "-Infinity"
  else repr.

Definition spaces (n : nat) : string := text (repeat " "%char n).

(** The line break before an item at nesting depth [level]. *)
Definition newline_indent (indent level : nat) : string :=
  String newline (spaces (indent * level)).

Fixpoint dumps (indent level : nat) (v : value) {struct v} : string :=
  match v with
  | PyNone => "null"
  | PyBool true => "true"
  | PyBool false => "false"
  | PyInt z => show_Z z
  | PyFloat r => float_str r
  | PyStr s => encode_string s
  | PyList [] => "[]"
  | PyList items =>
      "[" ++ newline_indent indent (S level)
          ++ String.concat ("," ++ newline_indent indent (S level))
               (map (dumps indent (S level)) items)
          ++ newline_indent indent level ++ "]"
  | PyDict [] => "{}"
  | PyDict items =>
      "{" ++ newline_indent indent (S level)
          ++ String.concat ("," ++ newline_indent indent (S level))
               (map (fun kv => encode_string (fst kv) ++ ": " ++ dumps indent (S level) (snd kv))
                    items)
          ++ newline_indent indent level ++ "}"
  end.

Definition json_dumps (indent : nat) (v : value) : string := dumps indent 0 v.

(** ** pydantic

    What [BaseModel.model_validate] does with the field declarations of
    [schema_models.py], in its default (lax) mode on Python input: a [str]
    field takes a string and checks [min_length], [max_length] and
    [pattern] in this order; a [bool] field also takes 0, 1, 0.0, 1.0 and
    the usual words; a [List] field takes a list and checks its items,
    then [min_length]; a [Literal] field takes the literal only; a model
    field takes a dictionary; keys the model does not declare are ignored.
    Errors are collected over all fields, each with its location. *)

Inductive loc_item := LKey (k : string) | LIndex (i : nat).

Record ErrorDetails := { err_type : string; err_loc : list loc_item }.

Definition validation (A : Type) : Type := list ErrorDetails + A.

Definition fail {A : Type} (type : string) : validation A :=
  inl [ {| err_type := type; err_loc := [] |} ].

Definition at_loc {A : Type} (l : loc_item) (v : validation A) : validation A :=
  match v with
  | inl errs =>
      inl (map (fun e => {| err_type := err_type e; err_loc := l :: err_loc e |}) errs)
  | inr a => inr a
  end.

(** Both results are needed; the errors of both are reported. *)
Definition ap {A B : Type} (f : validation (A -> B)) (x : validation A) : validation B :=
  match f, x with
  | inr g, inr a => inr (g a)
  | inl e1, inl e2 => inl (e1 ++ e2)%list
  | inl e, inr _ => inl e
  | inr _, inl e => inl e
  end.

Infix "<*>" := ap (at level 61, left associativity).

(** [pattern=]: a search with the Rust engine. *)
Definition pattern_ok (pattern s : string) : bool :=
  match Re.compile pattern with
  | Re.Parsed r => bool_decide (is_Some (Re.search Re.Rust r (chars s)))
  | _ => false
  end.

Definition validate_str (min_length max_length : option nat) (pattern : option string)
    (v : value) : validation string :=
  match v with
  | PyStr s =>
      if from_option (fun n => String.length s <? n)%nat false min_length
      then fail "string_too_short"
      else if from_option (fun n => n <? String.length s)%nat false max_length
      then fail "string_too_long"
      else if negb (from_option (fun p => pattern_ok p s) true pattern)
      then fail "string_pattern_mismatch"
      else inr s
  | _ => fail "string_type"
  end.

Definition ascii_lower (c : ascii) : ascii :=
  if in_range "A" "Z" c then ascii_of_N (code c + 32) else c.

Definition eq_ignore_ascii_case (a b : string) : bool :=
  String.eqb (text (map ascii_lower (chars a))) (text (map ascii_lower (chars b))).

Definition str_as_bool (s : string) : option bool :=
  if String.eqb s "0" || existsb (eq_ignore_ascii_case s) ["f"; "n"; "no"; "off"; "false"]
  then Some false
  else if String.eqb s "1" || existsb (eq_ignore_ascii_case s) ["t"; "y"; "on"; "yes"; "true"]
  then Some true
  else None.

Definition validate_bool (v : value) : validation bool :=
  match v with
  | PyBool b => inr b
  | PyStr s => match str_as_bool s with Some b => inr b | None => fail "bool_parsing" end
  | PyInt z =>
      if (z =? 0)%Z then inr false else if (z =? 1)%Z then inr true else fail "bool_parsing"
  | PyFloat r =>
      if String.eqb r "0.0" || String.eqb r "-0.0" then inr false
      else if String.eqb r "1.0" then inr true
      else fail "bool_parsing"
  | _ => fail "bool_type"
  end.

Definition validate_literal (expected : string) (v : value) : validation string :=
  match v with
  | PyStr s => if String.eqb s expected then inr s else fail "literal_error"
  | _ => fail "literal_error"
  end.

Fixpoint validate_items {A : Type} (item : value -> validation A) (i : nat)
    (l : list value) : validation (list A) :=
  match l with
  | [] => inr []
  | x :: rest => inr cons <*> at_loc (LIndex i) (item x) <*> validate_items item (S i) rest
  end.

Definition validate_list {A : Type} (min_length : nat) (item : value -> validation A)
    (v : value) : validation (list A) :=
  match v with
  | PyList l =>
      match validate_items item 0 l with
      | inl errs => inl errs
      | inr xs => if (length xs <? min_length)%nat then fail "too_short" else inr xs
      end
  | _ => fail "list_type"
  end.

(** A field declared with [...] is required; a field declared with a
    default takes it when the key is absent. *)
Definition required {A : Type} (d : list (string * value)) (name : string)
    (f : value -> validation A) : validation A :=
  match dict_get name d with
  | None => at_loc (LKey name) (fail "missing")
  | Some v => at_loc (LKey name) (f v)
  end.

Definition with_default {A : Type} (d : list (string * value)) (name : string)
    (default : A) (f : value -> validation A) : validation A :=
  match dict_get name d with
  | None => inr default
  | Some v => at_loc (LKey name) (f v)
  end.

(** ** schema_models.py *)

Module ServiceAccount.

Record t := mk {
  name_suffix : string;
  iam_roles : list string;
  create_json_key : bool;
  description : string
}.

Definition model_validate (v : value) : validation t :=
  match v with
  | PyDict d =>
      inr mk
        <*> required d "name_suffix"
              (validate_str (Some 1) (Some 4) (Some "^[a-z](?:[-a-z0-9]*[a-z0-9])?$"))
        <*> required d "iam_roles" (validate_list 1 (validate_str None None None))
        <*> required d "create_json_key" validate_bool
        <*> with_default d "description" "" (validate_str None (Some 256) None)
  | _ => fail "model_type"
  end.

(** The fields in the order of their declaration. *)
Definition model_dump (self : t) : value :=
  PyDict [ ("name_suffix", PyStr (name_suffix self));
           ("iam_roles", PyList (map PyStr (iam_roles self)));
           ("create_json_key", PyBool (create_json_key self));
           ("description", PyStr (description self)) ].

End ServiceAccount.

Module ServiceAccountSpec.

Record t := mk { service_accounts : list ServiceAccount.t }.

Definition model_validate (v : value) : validation t :=
  match v with
  | PyDict d =>
      inr mk <*> required d "service_accounts" (validate_list 1 ServiceAccount.model_validate)
  | _ => fail "model_type"
  end.

End ServiceAccountSpec.

(** ** Exceptions, files and the log *)

(** The text of an error message; the two messages that embed the [str]
    of a set or of a pydantic error keep the embedded value. *)
Inductive message :=
| Text (s : string)
| DuplicateExceptionIDs (ids : gset string)
| InvalidSchema (errors : list ErrorDetails).

Inductive exn :=
| ValueError (msg : message)
| ReError (msg : string)
| AttributeError (msg : string)
| JSONDecodeError (msg : string)
| OSError (name : string)
| TypeError (msg : string)
| OverflowError (msg : string)
| ApiError (msg : string).

Inductive result (A : Type) :=
| Ok (a : A)
| Raise (e : exn).

Arguments Ok {A} a.

Arguments Raise {A} e.

(** The module [re], as far as the programs use it: [re.compile], which
    gives a pattern or raises [re.error] with a message, and
    [pattern.match] as a truth value.  [re.match(p, s)] compiles [p] and
    matches at the start of [s]. *)
Class RegexModule := {
  pattern : Type;
  re_compile : string -> string + pattern;
  pattern_match : pattern -> string -> bool
}.

Definition re_match {R : RegexModule} (p s : string) : result bool :=
  match re_compile p with
  | inl e => Raise (ReError e)
  | inr c => Ok (pattern_match c s)
  end.

(** The module [json], as far as the programs use it: [json.loads],
    which gives a value or raises [JSONDecodeError] with a message. *)
Class JsonModule := {
  json_loads : string -> string + value
}.

(** A path is its anchor (absolute or relative to the working directory)
    and its parts, as [pathlib] keeps them. *)
Definition Path : Type := bool * list string.

Definition parent (p : Path) : Path := (fst p, removelast (snd p)).

Record filesystem := {
  dirs : gset Path;
  files : gmap Path string
}.

(** The root and the working directory exist. *)
Definition is_dir (fs : filesystem) (p : Path) : bool :=
  match snd p with
  | [] => true
  | _ => bool_decide (p ∈ dirs fs)
  end.

Definition is_file (fs : filesystem) (p : Path) : bool :=
  negb (is_dir fs p) && bool_decide (is_Some (files fs !! p)).

(** The records of the logger, one constructor for each call in
    [process_exceptions.py]. *)
Inductive log_record :=
| LogProcessing (project_id : string)
| LogValidationSuccessful (version : string)
| LogValidationFailed (errors : list ErrorDetails)
| LogProcessingExceptions (n : nat) (exception_ids : list string)
| LogMatches (id regex : string)
| LogDoesNotMatch (id regex : string)
| LogFound (matched_exceptions : list string)
| LogTotalServiceAccounts (n : nat)
| LogTotalOverrides (n : nat)
| LogNoneMatched
| LogGenerated (output_path : Path)
| LogLoadingFile (schema_file_path : Path)
| LogLoadingString
| LogInvalidJson (e : string).

Record world := {
  fs : filesystem;
  log : list log_record
}.

(** A statement: it reads and changes the world and returns or raises. *)
Definition prog (A : Type) : Type := world -> result A * world.

#[global] Instance prog_ret : MRet prog := fun A a w => (Ok a, w).

#[global] Instance prog_bind : MBind prog := fun A B f m w =>
  match m w with
  | (Ok a, w') => f a w'
  | (Raise e, w') => (Raise e, w')
  end.

Definition raise {A : Type} (e : exn) : prog A := fun w => (Raise e, w).

Definition lift {A : Type} (r : result A) : prog A := fun w => (r, w).

Definition logger (r : log_record) : prog unit :=
  fun w => (Ok tt, {| fs := fs w; log := (log w ++ [r])%list |}).

(** [for x in l: acc = body acc x] *)
Fixpoint for_each {A S : Type} (l : list A) (body : S -> A -> prog S) (s : S) : prog S :=
  match l with
  | [] => mret s
  | x :: rest => s' ← body s x; for_each rest body s'
  end.

(** [Path.mkdir(parents=True, exist_ok=True)] *)
Fixpoint mkdir_parents (parts : list string) (anchor : bool) (f : filesystem)
  : result filesystem :=
  let p : Path := (anchor, rev parts) in
  if is_dir f p then Ok f
  else if is_file f p then Raise (OSError "FileExistsError")
  else
    match parts with
    | [] => Ok f
    | _ :: up =>
        if is_file f (anchor, rev up) then Raise (OSError "NotADirectoryError")
        else
          match mkdir_parents up anchor f with
          | Ok f' => Ok {| dirs := {[ p ]} ∪ dirs f'; files := files f' |}
          | Raise e => Raise e
          end
    end.

Definition mkdir (p : Path) : prog unit := fun w =>
  match mkdir_parents (rev (snd p)) (fst p) (fs w) with
  | Ok f => (Ok tt, {| fs := f; log := log w |})
  | Raise e => (Raise e, w)
  end.

(** [with open(p, 'w') as f: f.write(content)] *)
Definition write_file (p : Path) (content : string) : prog unit := fun w =>
  if is_dir (fs w) p then (Raise (OSError "IsADirectoryError"), w)
  else if is_file (fs w) (parent p) then (Raise (OSError "NotADirectoryError"), w)
  else if negb (is_dir (fs w) (parent p)) then (Raise (OSError "FileNotFoundError"), w)
  else (Ok tt, {| fs := {| dirs := dirs (fs w); files := <[ p := content ]> (files (fs w)) |};
                  log := log w |}).

(** [with open(p, 'r') as f: f.read()] *)
Definition read_file (p : Path) : prog string := fun w =>
  if is_dir (fs w) p then (Raise (OSError "IsADirectoryError"), w)
  else match files (fs w) !! p with
       | Some content => (Ok content, w)
       | None => (Raise (OSError "FileNotFoundError"), w)
       end.

Module Exception.

Record t := mk {
  id : string;
  type : string;
  project_id_regex : string;
  description : string;
  spec : ServiceAccountSpec.t
}.

Definition model_validate (v : value) : validation t :=
  match v with
  | PyDict d =>
      inr mk
        <*> required d "id" (validate_str None None (Some "^\d{3}$"))
        <*> required d "type" (validate_literal "create_service_accounts")
        <*> required d "project_id_regex" (validate_str (Some 1) None None)
        <*> required d "description" (validate_str (Some 1) None None)
        <*> required d "spec" ServiceAccountSpec.model_validate
  | _ => fail "model_type"
  end.

(** A method of the class.  Nothing registers it as a validator (the
    module imports [BaseModel] and [Field] only), so [model_validate]
    does not call it. *)
Definition validate_regex {R : RegexModule} (self : t) : result t :=
  match re_compile (project_id_regex self) with
  | inl e =>
      Raise (ValueError (Text ("Invalid regex pattern '" ++ project_id_regex self
                                 ++ "': " ++ e)))
  | inr _ => Ok self
  end.

End Exception.

Module ExceptionsSchema.

Record t := mk {
  version : string;
  exceptions : list Exception.t
}.

Definition model_validate (v : value) : validation t :=
  match v with
  | PyDict d =>
      inr mk
        <*> required d "version" (validate_str None None (Some "^\d+\.\d+\.\d+$"))
        <*> required d "exceptions" (validate_list 0 Exception.model_validate)
  | _ => fail "model_type"
  end.

(** [ids.count(id)] *)
Definition count (id : string) (ids : list string) : nat :=
  length (filter (fun x => x = id) ids).

(** A method of the class; like [validate_regex], nothing registers it
    as a validator and [model_validate] does not call it. *)
Definition validate_unique_ids (self : t) : result t :=
  let ids := map Exception.id (exceptions self) in
  if negb (length ids =? size (list_to_set ids : gset string))%nat then
    let duplicates := filter (fun id => 1 < count id ids) ids in
    Raise (ValueError (DuplicateExceptionIDs (list_to_set duplicates)))
  else Ok self.

End ExceptionsSchema.

(** ** process_exceptions.py *)

Definition region : string := "europe-west4".

(** [if x not in l: l.append(x)] *)
Definition append_new (l : list value) (x : value) : list value :=
  if py_in x l then l else (l ++ [x])%list.

(** The three lists the loop of [process_exceptions] fills. *)
Record lists := {
  service_accounts : list value;
  iam_policy_overrides : list value;
  matched_exceptions : list string
}.

(** The body of the loop over the rules. *)
Definition visit {R : RegexModule} (project_id : string) (l : lists) (exception : Exception.t)
  : prog lists :=
  m ← lift (re_match (Exception.project_id_regex exception) project_id);
  if m : bool then
    logger (LogMatches (Exception.id exception) (Exception.project_id_regex exception)) ;;
    let matched := (matched_exceptions l ++ [Exception.id exception])%list in
    if String.eqb (Exception.type exception) "create_service_accounts" then
      mret {| service_accounts :=
                fold_left append_new
                  (map ServiceAccount.model_dump
                     (ServiceAccountSpec.service_accounts (Exception.spec exception)))
                  (service_accounts l);
              iam_policy_overrides := iam_policy_overrides l;
              matched_exceptions := matched |}
    else if String.eqb (Exception.type exception) "override_iam_policies" then
      raise (AttributeError
               "'ServiceAccountSpec' object has no attribute 'boolean_policy_overrides'")
    else
      mret {| service_accounts := service_accounts l;
              iam_policy_overrides := iam_policy_overrides l;
              matched_exceptions := matched |}
  else
    logger (LogDoesNotMatch (Exception.id exception) (Exception.project_id_regex exception)) ;;
    mret l.

Definition terraform_vars (project_id : string) (l : lists) : value :=
  PyDict [ ("project_id", PyStr project_id);
           ("region", PyStr region);
           ("service_accounts", PyList (service_accounts l));
           ("iam_policy_overrides", PyList (iam_policy_overrides l)) ].

Definition process_exceptions {R : RegexModule} (schema_data : value) (project_id : string)
    (output_path : Path) : prog unit :=
  logger (LogProcessing project_id) ;;
  full_schema ←
    match ExceptionsSchema.model_validate schema_data with
    | inr full_schema =>
        logger (LogValidationSuccessful (ExceptionsSchema.version full_schema)) ;;
        mret full_schema
    | inl e =>
        logger (LogValidationFailed e) ;;
        raise (ValueError (InvalidSchema e))
    end ;
  let valid_exceptions := ExceptionsSchema.exceptions full_schema in
  let exception_ids := map Exception.id valid_exceptions in
  logger (LogProcessingExceptions (length valid_exceptions) exception_ids) ;;
  l ← for_each valid_exceptions (visit project_id)
        {| service_accounts := []; iam_policy_overrides := []; matched_exceptions := [] |} ;
  (if nonempty (matched_exceptions l) then
     logger (LogFound (matched_exceptions l)) ;;
     logger (LogTotalServiceAccounts (length (service_accounts l))) ;;
     logger (LogTotalOverrides (length (iam_policy_overrides l)))
   else logger LogNoneMatched) ;;
  write_file output_path (json_dumps 4 (terraform_vars project_id l)) ;;
  logger (LogGenerated output_path).

(** The arguments [argparse] hands over: one of the two schema sources
    (the group is required and mutually exclusive), the project id and
    the output file. *)
Record args := {
  schema : Path + string;
  project_id : string;
  output_file : Path
}.

Definition default_output_file : Path := (false, ["terraform.tfvars.json"]).

(** What ends the process: [exit(n)], an uncaught exception, or the end
    of the script. *)
Inductive ending :=
| Exit (status : nat)
| Uncaught (e : exn)
| Finished.

Definition exit_status (e : ending) : nat :=
  match e with
  | Exit n => n
  | Uncaught _ => 1
  | Finished => 0
  end.

(** The script: the block under [if __name__ == "__main__"]. *)
Definition main {R : RegexModule} {J : JsonModule} (a : args) (w : world) : ending * world :=
  let load : prog (option value) :=
    match schema a with
    | inl schema_file_path =>
        logger (LogLoadingFile schema_file_path) ;;
        content ← read_file schema_file_path ;
        match json_loads content with
        | inr schema_data => mret (Some schema_data)
        | inl e => raise (JSONDecodeError e)
        end
    | inr schema_json_string =>
        logger LogLoadingString ;;
        match json_loads schema_json_string with
        | inr schema_data => mret (Some schema_data)
        | inl e => logger (LogInvalidJson e) ;; mret None
        end
    end in
  match load w with
  | (Raise e, w1) => (Uncaught e, w1)
  | (Ok None, w1) => (Exit 1, w1)
  | (Ok (Some schema_data), w1) =>
      match (mkdir (parent (output_file a)) ;;
             process_exceptions schema_data (project_id a) (output_file a)) w1 with
      | (Ok _, w2) => (Finished, w2)
      | (Raise e, w2) => (Uncaught e, w2)
      end
  end.

(** ** schema_models.py: the check of a schema file

    [validate_schema_file] reads a file, parses it and validates the
    value; it raises what [open] and [json.load] raise, or the
    [ValidationError] of pydantic, which carries the errors. *)

Inductive schema_file_error :=
| Builtin (e : exn)
| ValidationError (errors : list ErrorDetails).

Definition validate_schema_file {J : JsonModule} (file_path : Path) (w : world)
  : schema_file_error + ExceptionsSchema.t :=
  match fst (read_file file_path w) with
  | Raise e => inl (Builtin e)
  | Ok content =>
      match json_loads content with
      | inl e => inl (Builtin (JSONDecodeError e))
      | inr data =>
          match ExceptionsSchema.model_validate data with
          | inl errors => inl (ValidationError errors)
          | inr schema => inr schema
          end
      end
  end.

(** The records of the logger of the script of [schema_models.py]: the
    number of rules, one record for each rule with the number of its
    service accounts, and the failure. *)
Inductive schema_record :=
| LogSchemaValid (n : nat)
| LogRuleAccounts (id : string) (n : nat)
| LogSchemaInvalid (e : schema_file_error).

(** In [schema_models.py] the name [Exception] is the model class of a
    rule, so the clause [except Exception as e] of the script names a
    class that is no exception class: when an exception reaches the
    clause, the test of the clause raises this [TypeError], and the body
    of the clause, which would log [LogSchemaInvalid], does not run. *)
Definition not_an_exception_class : exn :=
  TypeError "catching classes that do not inherit from BaseException is not allowed".

Definition schema_file : Path := (false, ["exceptions_schema.json"]).

(** The script: the block under [if __name__ == "__main__"]. *)
Definition schema_models_main {J : JsonModule} (w : world) : ending * list schema_record :=
  match validate_schema_file schema_file w with
  | inr schema =>
      (Finished,
       LogSchemaValid (length (ExceptionsSchema.exceptions schema))
         :: map (fun exc =>
                   LogRuleAccounts (Exception.id exc)
                     (length (ServiceAccountSpec.service_accounts (Exception.spec exc))))
              (ExceptionsSchema.exceptions schema))
  | inl _ => (Uncaught not_an_exception_class, [])
  end.

(** ** secret-renewal-function/main.py *)

(** Floating-point numbers, as far as the function uses them: [float(s)]
    for a decimal numeral [s], which also gives the literals, the product
    and the quotient. *)
Class FloatModule := {
  float : Type;
  float_of_str : string -> float;
  float_mul : float -> float -> float;
  float_div : float -> float -> float
}.

(** [str.lower] on the code points below 256. *)
Definition lower_char (c : ascii) : ascii :=
  if in_range "A" "Z" c || in_range "192" "214" c || in_range "216" "222" c
  then ascii_of_N (code c + 32) else c.

Definition py_lower (s : string) : string := text (map lower_char (chars s)).

Definition duration_pattern : string := "^(\d*\.?\d+)([dhm])$".

Definition duration_re : Re.re :=
  Eval vm_compute in
    match Re.compile duration_pattern with Re.Parsed r => r | _ => Re.Eps end.

Definition parse_time_duration {F : FloatModule} (duration_str : string) : result float :=
  if String.eqb duration_str "" then Raise (ValueError (Text "Duration string is empty"))
  else
    match Re.match_at_start Re.Python duration_re (chars (py_lower duration_str)) with
    | None =>
        Raise (ValueError (Text ("Invalid duration format: " ++ duration_str
          ++ ". Must include time unit. Use formats like '1h', '2d', '30m'")))
    | Some groups =>
        match Re.group 1 groups, Re.group 2 groups with
        | Some value, Some unit =>
            let value := float_of_str (text value) in
            let unit := text unit in
            if String.eqb unit "d" then Ok value
            else if String.eqb unit "h" then Ok (float_div value (float_of_str "24.0"))
            else if String.eqb unit "m"
            then Ok (float_div value (float_mul (float_of_str "24.0") (float_of_str "60.0")))
            else Raise (ValueError (Text ("Unsupported time unit: " ++ unit)))
        | _, _ => Raise (TypeError "float() argument must be a string or a real number")
        end
    end.

(** A point in time is a number of microseconds since the start of year
    1; [datetime] covers the years 1 to 9999. *)
Definition datetime_max : Z := 3652059 * 86400000000 - 1.

Definition datetime_add (t delta : Z) : result Z :=
  if ((0 <=? t + delta) && (t + delta <=? datetime_max))%Z then Ok (t + delta)%Z
  else Raise (OverflowError "date value out of range").

(** [timedelta(days=x)] in microseconds, and [strftime] with the format
    of the function. *)
Class DatetimeModule {F : FloatModule} := {
  timedelta_days : float -> result Z;
  strftime : Z -> string
}.

(** The log entry the function receives; a field that is present is a
    string. *)
Record Event := {
  payload_type : option string;
  payload_name : option string;
  label_secret_id : option string;
  label_resource_container : option string;
  logName : option string
}.

Record Secret := {
  labels : gmap string string;
  expire_time : option Z
}.

Inductive api_call :=
| GetSecret (name : string)
| CreateServiceAccountKey (name : string)
| AddSecretVersion (parent data : string)
| UpdateSecret (name expire_time : string).

(** The services: each answer may depend on the calls made before. *)
Class CloudModule := {
  get_secret : list api_call -> string -> result Secret;
  create_service_account_key : list api_call -> string -> result string;
  add_secret_version : list api_call -> string -> string -> result string;
  update_secret : list api_call -> string -> string -> result unit
}.

(** [base64.b64encode] *)
Definition b64_char (n : N) : ascii :=
  if (n <? 26)%N then ascii_of_N (65 + n)
  else if (n <? 52)%N then ascii_of_N (71 + n)
  else if (n <? 62)%N then ascii_of_N (n - 4)
  else if (n =? 62)%N then "+"%char else "/"%char.

Fixpoint b64_chars (l : list ascii) : list ascii :=
  match l with
  | [] => []
  | [a] =>
      let n := (code a * 65536)%N in
      [b64_char (n / 262144); b64_char ((n / 4096) mod 64); "="%char; "="%char]
  | [a; b] =>
      let n := (code a * 65536 + code b * 256)%N in
      [b64_char (n / 262144); b64_char ((n / 4096) mod 64); b64_char ((n / 64) mod 64);
       "="%char]
  | a :: b :: c :: t =>
      let n := (code a * 65536 + code b * 256 + code c)%N in
      b64_char (n / 262144) :: b64_char ((n / 4096) mod 64) :: b64_char ((n / 64) mod 64)
        :: b64_char (n mod 64) :: b64_chars t
  end.

Definition b64encode (data : string) : string := text (b64_chars (chars data)).

(** A statement of the function: it makes calls and returns or raises. *)
Definition handler (A : Type) : Type := list api_call -> result A * list api_call.

#[global] Instance handler_ret : MRet handler := fun A a h => (Ok a, h).

#[global] Instance handler_bind : MBind handler := fun A B f m h =>
  match m h with
  | (Ok a, h') => f a h'
  | (Raise e, h') => (Raise e, h')
  end.

Definition call {A : Type} (c : api_call) (answer : list api_call -> result A) : handler A :=
  fun h => (answer h, (h ++ [c])%list).

Definition raising {A : Type} (r : result A) : handler A := fun h => (r, h).

Fixpoint contains_chars (needle hay : list ascii) : bool :=
  match hay with
  | [] => match needle with [] => true | _ => false end
  | _ :: t =>
      bool_decide (needle `prefix_of` hay) || contains_chars needle t
  end.

(** [needle in hay] *)
Definition str_contains (needle hay : string) : bool := contains_chars (chars needle) (chars hay).

(** [s.split(sep)] for a separator of one character. *)
Fixpoint split_chars (sep : ascii) (s : list ascii) : list (list ascii) :=
  match s with
  | [] => [[]]
  | c :: t =>
      if ascii_eqb c sep then [] :: split_chars sep t
      else
        match split_chars sep t with
        | first :: rest => (c :: first) :: rest
        | [] => [[c]]
        end
  end.

Definition str_split (sep : ascii) (s : string) : list string := map text (split_chars sep (chars s)).

(** [s.replace(old, new)] for a non-empty [old]; [skip] counts the
    characters of an occurrence that are still to be dropped. *)
Fixpoint replace_chars (old new : list ascii) (skip : nat) (s : list ascii) : list ascii :=
  match s with
  | [] => []
  | c :: t =>
      match skip with
      | S n => replace_chars old new n t
      | O =>
          if bool_decide (old `prefix_of` s)
          then (new ++ replace_chars old new (length old - 1) t)%list
          else c :: replace_chars old new 0 t
      end
  end.

Definition str_replace (old new s : string) : string :=
  text (replace_chars (chars old) (chars new) 0 (chars s)).

Definition truthy (o : option string) : bool :=
  match o with
  | Some s => negb (String.eqb s "")
  | None => false
  end.

(** [str(e)] *)
Definition str_of_exn (e : exn) : string :=
  match e with
  | ValueError (Text s) => s
  | ValueError _ => ""
  | ReError s | AttributeError s | JSONDecodeError s | OSError s
  | TypeError s | OverflowError s | ApiError s => s
  end.

(** The body of the [try] of [handle_secret_expiration]. *)
Definition handle_body {F : FloatModule} {D : DatetimeModule} {C : CloudModule}
    (event : Event) : handler string :=
  if negb (bool_decide (payload_type event = Some "EXPIRES_IN_1_HOUR")) then mret "OK"
  else
    match label_resource_container event with
    | None => raising (Raise (AttributeError "'NoneType' object has no attribute 'replace'"))
    | Some resource_container =>
        let project_number := str_replace "projects/" "" resource_container in
        let log_name := default "" (logName event) in
        let project_id :=
          if str_contains "/logs/" log_name then str_split "/" log_name !! 1 else None in
        match payload_name event, project_id with
        | Some secret_name, Some project_id =>
            if negb (truthy (Some secret_name) && truthy (label_secret_id event)
                     && truthy (Some project_number) && truthy (Some project_id))
            then mret "ERROR: Missing required information"
            else
              secret_resource ← call (GetSecret secret_name) (fun h => get_secret h secret_name) ;
              match labels secret_resource !! "ccoe_service_account_name",
                    labels secret_resource !! "ccoe_expiration_extension_time" with
              | Some ccoe_service_account_name, Some ccoe_expiration_extension_time_str =>
                  if negb (truthy (Some ccoe_service_account_name))
                     || negb (truthy (Some ccoe_expiration_extension_time_str))
                  then mret "OK"
                  else
                    match parse_time_duration ccoe_expiration_extension_time_str with
                    | Raise (ValueError _) =>
                        mret "ERROR: Invalid ccoe_expiration_extension_time value"
                    | Raise e => raising (Raise e)
                    | Ok expiration_extension_time =>
                        let service_account_email :=
                          ccoe_service_account_name ++ "@" ++ project_id
                            ++ ".iam.gserviceaccount.com" in
                        let service_account_resource :=
                          "projects/" ++ project_id ++ "/serviceAccounts/"
                            ++ service_account_email in
                        private_key_data ←
                          call (CreateServiceAccountKey service_account_resource)
                            (fun h => create_service_account_key h service_account_resource) ;
                        let key_data := b64encode private_key_data in
                        call (AddSecretVersion secret_name key_data)
                          (fun h => add_secret_version h secret_name key_data) ;;
                        match expire_time secret_resource with
                        | Some current_expiration =>
                            delta ← raising (timedelta_days expiration_extension_time) ;
                            new_expiration ← raising (datetime_add current_expiration delta) ;
                            let new_expiration_str := strftime new_expiration in
                            call (UpdateSecret secret_name new_expiration_str)
                              (fun h => update_secret h secret_name new_expiration_str) ;;
                            mret "OK"
                        | None => mret "ERROR: No current expiration time found"
                        end
                    end
              | _, _ => mret "OK"
              end
        | _, _ => mret "ERROR: Missing required information"
        end
    end.

(** [handle_secret_expiration]: the body, and the [except] that turns
    every exception into a status. *)
Definition handle_secret_expiration {F : FloatModule} {D : DatetimeModule}
    {C : CloudModule} (event : Event) (h : list api_call) : string * list api_call :=
  match handle_body event h with
  | (Ok status, h') => (status, h')
  | (Raise e, h') => ("ERROR: " ++ str_of_exn e, h')
  end.

(** * The vocabulary of the statements *)

(** ** The fragment of [re] as a regex module

    Outside the fragment the instance reports an error; the runs below
    use patterns of the fragment only, and the general results hold for
    every regex module. *)

Definition fragment_compile (p : string) : string + Re.re :=
  match Re.compile p with
  | Re.Parsed r => inr r
  | Re.Error msg pos => inl (Re.error_str p msg pos)
  | Re.Unsupported => inl "outside the fragment"
  end.

Definition fragment_match (r : Re.re) (s : string) : bool :=
  bool_decide (is_Some (Re.match_at_start Re.Python r (chars s))).

Definition fragment : RegexModule :=
  {| pattern := Re.re; re_compile := fragment_compile; pattern_match := fragment_match |}.

(** A regex module agrees with the fragment when it compiles and matches
    the patterns of the fragment as the fragment does. *)
Definition agrees_with_fragment (R : RegexModule) : Prop :=
  forall p : string,
    match Re.compile p with
    | Re.Parsed r =>
        exists c, re_compile p = inr c /\ forall s, pattern_match c s = fragment_match r s
    | Re.Error msg pos => re_compile p = inl (Re.error_str p msg pos)
    | Re.Unsupported => True
    end.

(** A json module that knows the texts of a table and reports every
    other text as not being JSON. *)
Definition json_of_table (table : list (string * value)) : JsonModule :=
  {| json_loads := fun s =>
       match dict_get s table with
       | Some v => inr v
       | None => inl "Expecting value"
       end |}.

(** ** First occurrences *)

(** The entries of a list that do not occur earlier in it, in the order
    of the list. *)
Definition first_occurrences (l : list value) : list value :=
  omap id (imap (fun i x => if py_in x (take i l) then None else Some x) l).

Fixpoint unseen (seen l : list value) : list value :=
  match l with
  | [] => []
  | x :: t => (if py_in x seen then [] else [x]) ++ unseen (seen ++ [x]) t
  end%list.

(** ** The loop over the rules *)

(** The rule matches: its pattern compiles and matches at the start. *)
Definition matches {R : RegexModule} (project_id : string) (e : Exception.t) : bool :=
  match re_match (Exception.project_id_regex e) project_id with
  | Ok true => true
  | _ => false
  end.

(** What the matching rules contribute, in the order of the rules and,
    within a rule, of its declaration. *)
Definition contributions {R : RegexModule} (project_id : string) (es : list Exception.t)
  : list value :=
  concat (map (fun e => map ServiceAccount.model_dump
                          (ServiceAccountSpec.service_accounts (Exception.spec e)))
              (filter (fun e => matches project_id e = true) es)).

(** The message of the first rule whose pattern does not compile. *)
Fixpoint first_error {R : RegexModule} (es : list Exception.t) : option string :=
  match es with
  | [] => None
  | e :: t =>
      match re_compile (Exception.project_id_regex e) with
      | inl msg => Some msg
      | inr _ => first_error t
      end
  end.

(** The records the loop writes, up to the first such rule. *)
Fixpoint loop_log {R : RegexModule} (project_id : string) (es : list Exception.t)
  : list log_record :=
  match es with
  | [] => []
  | e :: t =>
      match re_compile (Exception.project_id_regex e) with
      | inl _ => []
      | inr c =>
          (if pattern_match c project_id
           then LogMatches (Exception.id e) (Exception.project_id_regex e)
           else LogDoesNotMatch (Exception.id e) (Exception.project_id_regex e))
            :: loop_log project_id t
      end
  end.

(** The lists at the end of a loop that started with the lists [l]. *)
Definition lists_after {R : RegexModule} (project_id : string) (es : list Exception.t)
    (l : lists) : lists :=
  {| service_accounts :=
       fold_left append_new (contributions project_id es) (service_accounts l);
     iam_policy_overrides := iam_policy_overrides l;
     matched_exceptions :=
       (matched_exceptions l
          ++ map Exception.id (filter (fun e => matches project_id e = true) es))%list |}.

(** ** The runs of [process_exceptions] and of the script *)

Definition add_log (w : world) (records : list log_record) : world :=
  {| fs := fs w; log := (log w ++ records)%list |}.

Definition no_lists : lists :=
  {| service_accounts := []; iam_policy_overrides := []; matched_exceptions := [] |}.

Definition summary_log (l : lists) : list log_record :=
  if nonempty (matched_exceptions l)
  then [ LogFound (matched_exceptions l);
         LogTotalServiceAccounts (length (service_accounts l));
         LogTotalOverrides (length (iam_policy_overrides l)) ]
  else [ LogNoneMatched ].

(** The records of a run up to the end of the loop. *)
Definition matching_log {R : RegexModule} (project_id : string) (doc : ExceptionsSchema.t)
  : list log_record :=
  ([ LogProcessing project_id;
     LogValidationSuccessful (ExceptionsSchema.version doc);
     LogProcessingExceptions (length (ExceptionsSchema.exceptions doc))
       (map Exception.id (ExceptionsSchema.exceptions doc)) ]
   ++ loop_log project_id (ExceptionsSchema.exceptions doc))%list.

Definition with_id (id : string) (self : Exception.t) : Exception.t :=
  Exception.mk id (Exception.type self) (Exception.project_id_regex self)
    (Exception.description self) (Exception.spec self).

(** Every pattern of the document compiles. *)
Definition patterns_compile {R : RegexModule} (doc : ExceptionsSchema.t) : Prop :=
  Forall (fun e => exists c, re_compile (Exception.project_id_regex e) = inr c)
    (ExceptionsSchema.exceptions doc).

Definition validated (v : value) : ExceptionsSchema.t :=
  match ExceptionsSchema.model_validate v with
  | inr doc => doc
  | inl _ => ExceptionsSchema.mk "" []
  end.

Definition quoted (s : string) : string := String dquote (s ++ String dquote "").

(** The text of the output file, written out: the four keys in their
    order, each on a line of its own behind four spaces. *)
Definition output_text (project_id : string) (accounts : list value) : string :=
  "{" ++ String newline "    " ++ quoted "project_id" ++ ": " ++ encode_string project_id ++ ","
      ++ String newline "    " ++ quoted "region" ++ ": " ++ quoted "europe-west4" ++ ","
      ++ String newline "    " ++ quoted "service_accounts" ++ ": "
      ++ dumps 4 1 (PyList accounts) ++ ","
      ++ String newline "    " ++ quoted "iam_policy_overrides" ++ ": []"
      ++ String newline "}".

(** The schema source yields the value [schema_data]. *)
Definition loads {J : JsonModule} (a : args) (w : world) (schema_data : value) : Prop :=
  match schema a with
  | inr schema_json_string => json_loads schema_json_string = inr schema_data
  | inl schema_file_path =>
      exists content,
        fst (read_file schema_file_path w) = Ok content
        /\ json_loads content = inr schema_data
  end.

Definition loading_record (a : args) : log_record :=
  match schema a with
  | inr _ => LogLoadingString
  | inl schema_file_path => LogLoadingFile schema_file_path
  end.

(** The records of the tests of the rules and of the written file. *)
Definition matching_or_writing (r : log_record) : Prop :=
  match r with
  | LogMatches _ _ | LogDoesNotMatch _ _ | LogGenerated _ => True
  | _ => False
  end.

Definition fields_of (v : value) : list (string * value) :=
  match v with PyDict d => d | _ => [] end.

(** ** The form of a duration

    From the words of the specification: a number, that is digits with
    at most one point before the last run of digits, and a unit. *)

Definition digits (l : list ascii) : Prop := Forall (fun c => is_digit c = true) l.

Definition is_number (n : list ascii) : Prop :=
  exists a p b, n = (a ++ p ++ b)%list /\ digits a /\ (p = [] \/ p = ["."%char])
                /\ digits b /\ b <> [].

Definition is_unit (u : ascii) : Prop := u = "d"%char \/ u = "h"%char \/ u = "m"%char.

Definition duration_form (s : list ascii) : Prop :=
  exists n u, s = (n ++ [u])%list /\ is_number n /\ is_unit u.

(** The value of a duration, in days. *)
Definition duration_days {F : FloatModule} (n : list ascii) (u : ascii) : float :=
  if ascii_eqb u "d" then float_of_str (text n)
  else if ascii_eqb u "h" then float_div (float_of_str (text n)) (float_of_str "24.0")
  else float_div (float_of_str (text n))
         (float_mul (float_of_str "24.0") (float_of_str "60.0")).

Definition digit_set : Re.re := Re.Chars (Re.CSet false [Re.IDigit false]).

(** ** The events of the handler *)

(** The event announces the expiration of the secret [name] of the
    project [project] and carries all that the function requires. *)
Definition describes (event : Event) (name project : string) : Prop :=
  payload_type event = Some "EXPIRES_IN_1_HOUR"
  /\ payload_name event = Some name /\ name <> ""
  /\ truthy (label_secret_id event) = true
  /\ (exists resource_container,
        label_resource_container event = Some resource_container
        /\ str_replace "projects/" "" resource_container <> "")
  /\ (exists log_name,
        logName event = Some log_name
        /\ str_contains "/logs/" log_name = true
        /\ str_split "/" log_name !! 1 = Some project)
  /\ project <> "".

(** The resource name of the service account of a secret. *)
Definition service_account_resource (project account : string) : string :=
  "projects/" ++ project ++ "/serviceAccounts/"
    ++ (account ++ "@" ++ project ++ ".iam.gserviceaccount.com").

(** ** The form of a validated document

    The patterns of the fields, compiled, and what they and the length
    bounds of the fields say, written out. *)

Definition id_pattern : string := "^\d{3}$".

Definition version_pattern : string := "^\d+\.\d+\.\d+$".

Definition name_suffix_pattern : string := "^[a-z](?:[-a-z0-9]*[a-z0-9])?$".

Definition id_re : Re.re :=
  Eval vm_compute in
    match Re.compile id_pattern with Re.Parsed r => r | _ => Re.Eps end.

Definition version_re : Re.re :=
  Eval vm_compute in
    match Re.compile version_pattern with Re.Parsed r => r | _ => Re.Eps end.

Definition name_suffix_re : Re.re :=
  Eval vm_compute in
    match Re.compile name_suffix_pattern with Re.Parsed r => r | _ => Re.Eps end.

Definition is_lower (c : ascii) : bool := in_range "a" "z" c.

Definition lower_or_digit (c : ascii) : bool := is_lower c || is_digit c.

Definition suffix_char (c : ascii) : bool := ascii_eqb c "-" || lower_or_digit c.

(** Exactly three digits. *)
Definition three_digits (s : string) : Prop :=
  length (chars s) = 3 /\ digits (chars s).

(** Three runs of digits, none empty, with a point between them. *)
Definition version_form (s : string) : Prop :=
  exists major minor patch,
    chars s = (major ++ "."%char :: minor ++ "."%char :: patch)%list
    /\ digits major /\ major <> [] /\ digits minor /\ minor <> []
    /\ digits patch /\ patch <> [].

(** A lower-case letter, then lower-case letters, digits and hyphens,
    the last of which is no hyphen. *)
Definition suffix_pattern_form (s : list ascii) : Prop :=
  exists c rest,
    s = c :: rest /\ is_lower c = true
    /\ Forall (fun x => suffix_char x = true) rest
    /\ forall x, last rest = Some x -> lower_or_digit x = true.

Definition name_suffix_form (s : string) : Prop :=
  String.length s <= 4 /\ suffix_pattern_form (chars s).

Definition account_form (sa : ServiceAccount.t) : Prop :=
  name_suffix_form (ServiceAccount.name_suffix sa)
  /\ ServiceAccount.iam_roles sa <> []
  /\ String.length (ServiceAccount.description sa) <= 256.

Definition rule_form (e : Exception.t) : Prop :=
  three_digits (Exception.id e)
  /\ Exception.type e = "create_service_accounts"
  /\ Exception.project_id_regex e <> ""
  /\ Exception.description e <> ""
  /\ ServiceAccountSpec.service_accounts (Exception.spec e) <> []
  /\ Forall account_form (ServiceAccountSpec.service_accounts (Exception.spec e)).

Definition document_form (doc : ExceptionsSchema.t) : Prop :=
  version_form (ExceptionsSchema.version doc)
  /\ Forall rule_form (ExceptionsSchema.exceptions doc).

(** The error of pydantic for a required key that is absent. *)
Definition missing (k : string) : ErrorDetails :=
  {| err_type := "missing"; err_loc := [LKey k] |}.

(** ** The runs of [process_exceptions], continued *)

(** The world after the file [p] was written and [records] were logged. *)
Definition written (w : world) (p : Path) (content : string) (records : list log_record)
  : world :=
  {| fs := {| dirs := dirs (fs w); files := <[ p := content ]> (files (fs w)) |};
     log := (log w ++ records)%list |}.

(** The record of the test of a rule. *)
Definition rule_record {R : RegexModule} (project_id : string) (e : Exception.t)
  : log_record :=
  if matches project_id e
  then LogMatches (Exception.id e) (Exception.project_id_regex e)
  else LogDoesNotMatch (Exception.id e) (Exception.project_id_regex e).

(** The pattern of the rule compiles. *)
Definition compiles {R : RegexModule} (e : Exception.t) : Prop :=
  exists c, re_compile (Exception.project_id_regex e) = inr c.

(** ** The runs of the handler *)

Definition invalid_duration (duration_str : string) : exn :=
  ValueError (Text ("Invalid duration format: " ++ duration_str
    ++ ". Must include time unit. Use formats like '1h', '2d', '30m'")).

(** The calls of a complete renewal, in their order. *)
Definition renewal_calls (name resource data expire : string) : list api_call :=
  [ GetSecret name; CreateServiceAccountKey resource; AddSecretVersion name data;
    UpdateSecret name expire ].

(** What the handler returns. *)
Definition is_status (s : string) : Prop := s = "OK" \/ exists m, s = "ERROR: " ++ m.

(** The path of a renewal up to the new version of the secret: the event
    is complete, the secret carries both labels, the duration is parsed,
    the key is created and the version is added. *)
Definition renews {F : FloatModule} {C : CloudModule} (event : Event) (h : list api_call)
    (name project account : string) (secret : Secret) (d : float) (key : string) : Prop :=
  describes event name project
  /\ get_secret h name = Ok secret
  /\ labels secret !! "ccoe_service_account_name" = Some account
  /\ account <> ""
  /\ (exists label,
        labels secret !! "ccoe_expiration_extension_time" = Some label
        /\ parse_time_duration label = Ok d)
  /\ create_service_account_key (h ++ [GetSecret name])
        (service_account_resource project account) = Ok key
  /\ exists version,
        add_secret_version
          (h ++ [GetSecret name;
                 CreateServiceAccountKey (service_account_resource project account)])
          name (b64encode key) = Ok version.

(** * Examples *)

(** ** Documents *)

Definition example_account (name_suffix : string) : value :=
  PyDict [ ("name_suffix", PyStr name_suffix);
           ("iam_roles", PyList [PyStr "roles/viewer"]);
           ("create_json_key", PyBool true) ].

Definition example_rule (id type regex : string) (accounts : list value) : value :=
  PyDict [ ("id", PyStr id);
           ("type", PyStr type);
           ("project_id_regex", PyStr regex);
           ("description", PyStr "Lab environment service accounts");
           ("spec", PyDict [("service_accounts", PyList accounts)]) ].

Definition example_document (rules : list value) : value :=
  PyDict [ ("version", PyStr "1.0.0"); ("exceptions", PyList rules) ].

(** Two rules with the id 100. *)
Definition duplicate_ids_document : value :=
  example_document
    [ example_rule "100" "create_service_accounts" "^lab-" [example_account "api"];
      example_rule "100" "create_service_accounts" "^prod-.*$" [example_account "data"] ].

(** A rule whose pattern opens a group and does not close it. *)
Definition bad_regex_document : value :=
  example_document
    [ example_rule "100" "create_service_accounts" "(" [example_account "api"] ].

Definition empty_world : world :=
  {| fs := {| dirs := ∅; files := ∅ |}; log := [] |}.

(** Two rules that match and contribute the same account. *)
Definition shared_account_document : value :=
  example_document
    [ example_rule "100" "create_service_accounts" "^lab-"
        [example_account "api"; example_account "data"];
      example_rule "200" "create_service_accounts" "^lab-dev-.*$"
        [example_account "comp"; example_account "api"] ].

Definition shared_account_schema : ExceptionsSchema.t :=
  Eval vm_compute in validated shared_account_document.

Definition lab_document : value :=
  example_document
    [ example_rule "100" "create_service_accounts" "^lab-dev-.*$" [example_account "api"] ].

Definition lab_schema : ExceptionsSchema.t := Eval vm_compute in validated lab_document.

Definition string_args (s : string) (output : Path) : args :=
  {| schema := inr s; project_id := "lab-dev-01"; output_file := output |}.

(** The text [{}] is the empty object; the text [{] is not JSON. *)
Definition example_json : JsonModule := json_of_table [ ("{}", PyDict []) ].

Definition override_rule : value :=
  example_rule "100" "override_iam_policies" "^lab-" [example_account "api"].

Definition nested_output_file : Path := (false, ["output"; "vars.json"]).

(** The whole match of [^lab-] on [lab-devops-99] is [lab-]. *)
Definition lab_re : Re.re :=
  Eval vm_compute in
    match Re.compile "^lab-" with Re.Parsed r => r | _ => Re.Eps end.

(** ** Instances of the modules *)

(** The digits of [n], padded with zeros to [width]. *)
Definition pad (width : nat) (n : Z) : string :=
  let s := show_Z n in
  text (repeat "0"%char (width - String.length s)) ++ s.

(** The civil date of a day, counted from the first day of year 1. *)
Definition civil (day : Z) : Z * Z * Z :=
  let z := (day + 306)%Z in
  let era := (z / 146097)%Z in
  let doe := (z - era * 146097)%Z in
  let yoe := ((doe - doe / 1460 + doe / 36524 - doe / 146096) / 365)%Z in
  let doy := (doe - (365 * yoe + yoe / 4 - yoe / 100))%Z in
  let mp := ((5 * doy + 2) / 153)%Z in
  let d := (doy - (153 * mp + 2) / 5 + 1)%Z in
  let m := (if (mp <? 10)%Z then mp + 3 else mp - 9)%Z in
  let y := (yoe + era * 400 + (if (m <=? 2)%Z then 1 else 0))%Z in
  (y, m, d).

(** [%Y-%m-%dT%H:%M:%S.%fZ] *)
Definition iso_format (t : Z) : string :=
  let day := (t / 86400000000)%Z in
  let us := (t mod 86400000000)%Z in
  let '(y, m, d) := civil day in
  pad 4 y ++ "-" ++ pad 2 m ++ "-" ++ pad 2 d ++ "T"
    ++ pad 2 (us / 3600000000) ++ ":" ++ pad 2 ((us / 60000000) mod 60) ++ ":"
    ++ pad 2 ((us / 1000000) mod 60) ++ "." ++ pad 6 (us mod 1000000) ++ "Z".

(** Fractions in place of floats: the arithmetic of the examples is
    exact. *)
Fixpoint fraction_digits (l : list ascii) : nat :=
  match l with
  | [] => 0
  | c :: t => if ascii_eqb c "." then length t else fraction_digits t
  end.

Definition fraction_of_str (s : string) : Z * Z :=
  (Z.of_nat (Re.int_of (List.filter is_digit (chars s))),
   10 ^ Z.of_nat (fraction_digits (chars s)))%Z.

Definition fractions : FloatModule :=
  {| float := Z * Z;
     float_of_str := fraction_of_str;
     float_mul := fun x y => (fst x * fst y, snd x * snd y)%Z;
     float_div := fun x y => (fst x * snd y, snd x * fst y)%Z |}.

(** Whole microseconds of a number of days, and the format of the
    function for the years from 1000 on. *)
Definition example_datetime : @DatetimeModule fractions :=
  {| timedelta_days := fun x : @float fractions =>
       let y : Z * Z := x in Ok (fst y * 86400000000 / snd y)%Z;
     strftime := iso_format |}.

(** The event of the local test of [main.py] and a secret that expires
    on 2025-08-25 at 11:59:14 and is to be extended by 30 days. *)
Definition example_event : Event :=
  {| payload_type := Some "EXPIRES_IN_1_HOUR";
     payload_name := Some "projects/401870235293/secrets/sa-key-srva-rad-01-dsgcl2919-ody-brow";
     label_secret_id := Some "sa-key-srva-rad-01-dsgcl2919-ody-brow";
     label_resource_container := Some "projects/401870235293";
     logName :=
       Some "projects/lab-xcs-client2/logs/secretmanager.googleapis.com%2Fsecret_event" |}.

Definition example_secret : Secret :=
  {| labels := {[ "ccoe_service_account_name" := "srva-rad-01";
                  "ccoe_expiration_extension_time" := "30d" ]};
     expire_time := Some 63891719954000000%Z |}.

Definition example_cloud : CloudModule :=
  {| get_secret := fun _ _ => Ok example_secret;
     create_service_account_key := fun _ _ => Ok "private key";
     add_secret_version := fun _ _ _ => Ok "versions/2";
     update_secret := fun _ _ _ => Ok tt |}.

(** ** Further documents, files and secrets *)

(** The text of the document [lab_document], and a json module that
    knows it. *)
Definition lab_text : string := Eval vm_compute in json_dumps 4 lab_document.

Definition lab_json : JsonModule := json_of_table [ (lab_text, lab_document) ].

Definition lab_args : args :=
  {| schema := inr lab_text; project_id := "lab-dev-01"; output_file := nested_output_file |}.

Definition file_args : args :=
  {| schema := inl schema_file; project_id := "lab-dev-01";
     output_file := default_output_file |}.

(** The schema file holds a text that is not JSON. *)
Definition broken_file_world : world :=
  {| fs := {| dirs := ∅; files := {[ schema_file := "{" ]} |}; log := [] |}.

(** The schema file holds the text of [lab_document]. *)
Definition schema_file_world : world :=
  {| fs := {| dirs := ∅; files := {[ schema_file := lab_text ]} |}; log := [] |}.

Definition api_account : ServiceAccount.t := ServiceAccount.mk "api" ["roles/viewer"] true "".

Definition bad_regex_schema : ExceptionsSchema.t :=
  Eval vm_compute in validated bad_regex_document.

(** An output file in a directory that does not exist. *)
Definition missing_directory_file : Path := (false, ["missing"; "vars.json"]).

(** The world after a run on [lab_document]. *)
Definition lab_run : world :=
  Eval vm_compute in
    snd (process_exceptions (R:=fragment) lab_document "lab-dev-01" default_output_file
           empty_world).

(** Services that hold one secret and answer every call. *)
Definition cloud_of (secret : Secret) : CloudModule :=
  {| get_secret := fun _ _ => Ok secret;
     create_service_account_key := fun _ _ => Ok "private key";
     add_secret_version := fun _ _ _ => Ok "versions/2";
     update_secret := fun _ _ _ => Ok tt |}.

Definition bad_label_secret : Secret :=
  {| labels := {[ "ccoe_service_account_name" := "srva-rad-01";
                  "ccoe_expiration_extension_time" := "soon" ]};
     expire_time := Some 63891719954000000%Z |}.

Definition no_expiry_secret : Secret :=
  {| labels := {[ "ccoe_service_account_name" := "srva-rad-01";
                  "ccoe_expiration_extension_time" := "30d" ]};
     expire_time := None |}.

(** Services that do not find the secret. *)
Definition failing_cloud : CloudModule :=
  {| get_secret := fun _ _ => Raise (ApiError "404 Secret not found");
     create_service_account_key := fun _ _ => Ok "private key";
     add_secret_version := fun _ _ _ => Ok "versions/2";
     update_secret := fun _ _ _ => Ok tt |}.

Definition example_secret_name : string :=
  "projects/401870235293/secrets/sa-key-srva-rad-01-dsgcl2919-ody-brow".

(** An event of another type. *)
Definition other_event : Event :=
  {| payload_type := Some "SECRET_VERSION_ADD";
     payload_name := Some example_secret_name;
     label_secret_id := Some "sa-key-srva-rad-01-dsgcl2919-ody-brow";
     label_resource_container := Some "projects/401870235293";
     logName :=
       Some "projects/lab-xcs-client2/logs/secretmanager.googleapis.com%2Fsecret_event" |}.

(** A secret without the label of the extension. *)
Definition unlabelled_secret : Secret :=
  {| labels := {[ "ccoe_service_account_name" := "srva-rad-01" ]};
     expire_time := Some 63891719954000000%Z |}.

(** The event of the local test without the label [resource_container]. *)
Definition event_without_container : Event :=
  {| payload_type := Some "EXPIRES_IN_1_HOUR";
     payload_name := Some example_secret_name;
     label_secret_id := Some "sa-key-srva-rad-01-dsgcl2919-ody-brow";
     label_resource_container := None;
     logName :=
       Some "projects/lab-xcs-client2/logs/secretmanager.googleapis.com%2Fsecret_event" |}.

(** * Properties *)

(** ** Induction on values *)

Section value_induction.
Variable P : value -> Prop.
Hypothesis HNone : P PyNone.
Hypothesis HBool : forall b, P (PyBool b).
Hypothesis HInt : forall z, P (PyInt z).
Hypothesis HFloat : forall r, P (PyFloat r).
Hypothesis HStr : forall s, P (PyStr s).
Hypothesis HList : forall l, Forall P l -> P (PyList l).
Hypothesis HDict : forall d, Forall (fun kv => P (snd kv)) d -> P (PyDict d).

Fixpoint value_nested_ind (v : value) : P v :=
  match v with
  | PyNone => HNone
  | PyBool b => HBool b
  | PyInt z => HInt z
  | PyFloat r => HFloat r
  | PyStr s => HStr s
  | PyList l =>
      HList l ((fix go (l : list value) : Forall P l :=
                  match l with
                  | [] => List.Forall_nil P
                  | x :: xs => List.Forall_cons P x xs (value_nested_ind x) (go xs)
                  end) l)
  | PyDict d =>
      HDict d ((fix go (d : list (string * value)) : Forall (fun kv => P (snd kv)) d :=
                  match d with
                  | [] => List.Forall_nil _
                  | kv :: xs => List.Forall_cons _ kv xs (value_nested_ind (snd kv)) (go xs)
                  end) d)
  end.
End value_induction.

(** ** Equality of values *)

Lemma py_eq_refl (a : value) : py_eq a a = true.
Proof.
  induction a using value_nested_ind; simpl.
  - reflexivity.
  - by destruct b.
  - apply Z.eqb_refl.
  - apply String.eqb_refl.
  - apply String.eqb_refl.
  - induction H as [|x xs Hx _ IH]; [done|]. by rewrite Hx, IH.
  - induction H as [|x xs Hx _ IH]; [done|]. by rewrite String.eqb_refl, Hx, IH.
Qed.

Lemma py_eq_eq (a b : value) : py_eq a b = true -> a = b.
Proof.
  revert b. induction a using value_nested_ind; intros [] Hab; simpl in Hab; try discriminate.
  - reflexivity.
  - f_equal. by apply Bool.eqb_prop.
  - f_equal. by apply Z.eqb_eq.
  - f_equal. by apply String.eqb_eq.
  - f_equal. by apply String.eqb_eq.
  - f_equal. revert items Hab.
    induction H as [|x xs Hx _ IH]; intros [|y ys] Hab; try discriminate; [done|].
    apply andb_prop in Hab as [Hxy Hrest]. f_equal; [by apply Hx | by apply IH].
  - f_equal. revert items Hab.
    induction H as [|[k x] xs Hx _ IH]; intros [|[k' y] ys] Hab; try discriminate; [done|].
    simpl in *. apply andb_prop in Hab as [Hkx Hrest]. apply andb_prop in Hkx as [Hk Hxy].
    apply String.eqb_eq in Hk. f_equal; [f_equal; [done | by apply Hx] | by apply IH].
Qed.

Lemma py_eq_spec (a b : value) : py_eq a b = true <-> a = b.
Proof. split; [apply py_eq_eq | intros ->; apply py_eq_refl]. Qed.

#[global] Instance value_eq_dec : EqDecision value.
Proof.
  intros a b. destruct (py_eq a b) eqn:E.
  - left. by apply py_eq_eq.
  - right. intros ->. by rewrite py_eq_refl in E.
Defined.

Lemma py_in_spec (x : value) (l : list value) : py_in x l = true <-> x ∈ l.
Proof.
  unfold py_in. rewrite existsb_exists. split.
  - intros (y & Hy & Heq). apply py_eq_eq in Heq as ->. by apply list_elem_of_In.
  - intros Hx. exists x. split; [by apply list_elem_of_In | apply py_eq_refl].
Qed.

Lemma first_occurrences_unseen (l : list value) : first_occurrences l = unseen [] l.
Proof.
  unfold first_occurrences.
  enough (forall p l0,
    omap id (imap (fun i x => if py_in x (p ++ take i l0)%list then None else Some x) l0)
    = unseen p l0) as Hgen by apply (Hgen []).
  intros p l0. revert p. induction l0 as [|x t IH]; intros p; [done|].
  rewrite imap_cons. simpl. rewrite app_nil_r.
  rewrite <- (IH (p ++ [x])%list).
  assert (Heq : imap ((fun i x0 => if py_in x0 (p ++ take i (x :: t))%list then None else Some x0) ∘ S) t
           = imap (fun i x0 => if py_in x0 ((p ++ [x]) ++ take i t)%list then None else Some x0) t).
  { apply imap_ext. intros i y _. simpl. by rewrite <- app_assoc. }
  rewrite Heq. by destruct (py_in x p).
Qed.

Lemma fold_append_new (l acc seen : list value) :
  (forall x, x ∈ acc <-> x ∈ seen) ->
  fold_left append_new l acc = (acc ++ unseen seen l)%list.
Proof.
  revert acc seen. induction l as [|x t IH]; intros acc seen Hsame; simpl.
  - by rewrite app_nil_r.
  - unfold append_new at 2. destruct (py_in x acc) eqn:Hin.
    + assert (py_in x seen = true) as -> by (apply py_in_spec, Hsame; by apply py_in_spec).
      simpl. apply IH. intros y. rewrite elem_of_app, list_elem_of_singleton, Hsame.
      split; [auto | intros [Hy | ->]; [done | apply Hsame; by apply py_in_spec]].
    + assert (py_in x seen = false) as ->.
      { destruct (py_in x seen) eqn:Hs; [|done].
        apply py_in_spec, Hsame, py_in_spec in Hs. congruence. }
      rewrite (IH (acc ++ [x])%list (seen ++ [x])%list).
      * by rewrite <- app_assoc.
      * intros y. rewrite !elem_of_app, Hsame. done.
Qed.

Lemma aggregate_first_occurrences (l : list value) :
  fold_left append_new l [] = first_occurrences l.
Proof. rewrite first_occurrences_unseen. by rewrite (fold_append_new l [] []). Qed.

(** ** What a successful validation tells *)

Lemma ap_inr {A B : Type} (f : validation (A -> B)) (x : validation A) (b : B) :
  f <*> x = inr b -> exists g a, f = inr g /\ x = inr a /\ b = g a.
Proof. destruct f, x; simpl; intros Hb; try discriminate. injection Hb as <-. eauto. Qed.

Lemma at_loc_inr {A : Type} (l : loc_item) (v : validation A) (a : A) :
  at_loc l v = inr a -> v = inr a.
Proof. by destruct v. Qed.

Lemma required_inr {A : Type} d name (f : value -> validation A) (a : A) :
  required d name f = inr a -> exists v, dict_get name d = Some v /\ f v = inr a.
Proof.
  unfold required. destruct (dict_get name d) as [v|]; [|discriminate].
  intros Ha. apply at_loc_inr in Ha. eauto.
Qed.

Lemma validate_items_inr {A : Type} (item : value -> validation A) i l xs :
  validate_items item i l = inr xs -> Forall2 (fun v x => item v = inr x) l xs.
Proof.
  revert i xs. induction l as [|v l IH]; intros i xs Hxs; cbn [validate_items] in Hxs.
  - injection Hxs as <-. constructor.
  - apply ap_inr in Hxs as (g & rest & Hg & Hrest & ->).
    apply ap_inr in Hg as (c & x & Hc & Hx & ->). injection Hc as <-.
    apply at_loc_inr in Hx. constructor; [done | by eapply IH].
Qed.

Lemma validate_list_inr {A : Type} n (item : value -> validation A) v xs :
  validate_list n item v = inr xs ->
  exists l, v = PyList l /\ Forall2 (fun v x => item v = inr x) l xs /\ n <= length xs.
Proof.
  destruct v; try discriminate. simpl.
  destruct (validate_items item 0 items) as [|ys] eqn:Hitems; [discriminate|].
  destruct (length ys <? n)%nat eqn:Hlen; [discriminate|].
  intros Hxs. injection Hxs as <-. exists items.
  apply Nat.ltb_ge in Hlen. eauto using validate_items_inr.
Qed.

Lemma validate_literal_inr expected v s :
  validate_literal expected v = inr s -> v = PyStr expected /\ s = expected.
Proof.
  destruct v; try discriminate. simpl.
  destruct (String.eqb s0 expected) eqn:E; [|discriminate].
  apply String.eqb_eq in E as ->. intros Hs. by injection Hs as <-.
Qed.

Lemma exception_validated v e :
  Exception.model_validate v = inr e ->
  exists d, v = PyDict d
    /\ dict_get "type" d = Some (PyStr "create_service_accounts")
    /\ Exception.type e = "create_service_accounts".
Proof.
  destruct v; try discriminate.
  cbv beta iota delta [Exception.model_validate]. intros He. exists items.
  apply ap_inr in He as (g5 & sp & He & _ & ->).
  apply ap_inr in He as (g4 & de & He & _ & ->).
  apply ap_inr in He as (g3 & rx & He & _ & ->).
  apply ap_inr in He as (g2 & ty & He & Hty & ->).
  apply ap_inr in He as (g1 & i & He & _ & ->). injection He as <-.
  apply required_inr in Hty as (t & Hget & Hlit).
  apply validate_literal_inr in Hlit as [-> ->]. auto.
Qed.

Lemma schema_validated v doc :
  ExceptionsSchema.model_validate v = inr doc ->
  exists d l, v = PyDict d
    /\ dict_get "exceptions" d = Some (PyList l)
    /\ Forall2 (fun v e => Exception.model_validate v = inr e) l
         (ExceptionsSchema.exceptions doc).
Proof.
  destruct v; try discriminate.
  cbv beta iota delta [ExceptionsSchema.model_validate]. intros Hdoc. exists items.
  apply ap_inr in Hdoc as (g2 & es & Hdoc & Hes & ->).
  apply ap_inr in Hdoc as (g1 & ver & Hdoc & _ & ->). injection Hdoc as <-.
  apply required_inr in Hes as (x & Hget & Hlist).
  apply validate_list_inr in Hlist as (l & -> & Hall & _). eauto.
Qed.

Lemma validated_types v doc :
  ExceptionsSchema.model_validate v = inr doc ->
  Forall (fun e => Exception.type e = "create_service_accounts")
    (ExceptionsSchema.exceptions doc).
Proof.
  intros (d & l & _ & _ & Hall)%schema_validated.
  induction Hall as [|x e l es He _ IH]; constructor; [|done].
  by apply exception_validated in He as (? & _ & _ & ?).
Qed.

Section Loop.
Context {R : RegexModule}.
Variable project_id : string.

Lemma lists_after_nil l : lists_after project_id [] l = l.
Proof. destruct l. unfold lists_after; simpl. by rewrite app_nil_r. Qed.

Lemma loop_run (es : list Exception.t) (l : lists) (w : world) :
  Forall (fun e => Exception.type e = "create_service_accounts") es ->
  for_each es (visit project_id) l w =
    (match first_error es with
     | Some msg => Raise (ReError msg)
     | None => Ok (lists_after project_id es l)
     end,
     {| fs := fs w; log := (log w ++ loop_log project_id es)%list |}).
Proof.
  intros Htypes. revert l w. induction Htypes as [|e t Hty _ IH]; intros l w.
  - simpl. rewrite lists_after_nil, app_nil_r. by destruct w.
  - simpl. unfold mbind, prog_bind, visit at 1, lift, re_match, mbind, prog_bind.
    destruct (re_compile (Exception.project_id_regex e)) as [msg|c] eqn:Hc.
    + by rewrite app_nil_r; destruct w.
    + destruct (pattern_match c project_id) eqn:Hm.
      * unfold logger at 1. rewrite Hty. simpl. unfold mret, prog_ret. rewrite IH. simpl.
        rewrite <- app_assoc. simpl. f_equal.
        destruct (first_error t); [done|]. f_equal.
        assert (Hme : matches project_id e = true) by (unfold matches, re_match; by rewrite Hc, Hm).
        unfold lists_after, contributions. rewrite filter_cons_True by done.
        simpl. by rewrite fold_left_app, <- app_assoc.
      * unfold logger at 1. unfold mret, prog_ret. rewrite IH. simpl.
        rewrite <- app_assoc. simpl. f_equal.
        destruct (first_error t); [done|]. f_equal.
        assert (Hme : matches project_id e <> true) by (unfold matches, re_match; by rewrite Hc, Hm).
        unfold lists_after, contributions. by rewrite filter_cons_False by done.
Qed.

Lemma first_error_none (es : list Exception.t) :
  first_error es = None <->
  Forall (fun e => exists c, re_compile (Exception.project_id_regex e) = inr c) es.
Proof.
  induction es as [|e t IH]; simpl.
  - split; [constructor | done].
  - destruct (re_compile (Exception.project_id_regex e)) as [msg|c] eqn:Hc.
    + split; [done|]. intros Hall. inversion Hall as [|? ? [c' Hc'] _]. congruence.
    + rewrite IH. split; [intros; constructor; eauto | by inversion 1].
Qed.

End Loop.

Lemma add_log_add_log w r1 r2 : add_log (add_log w r1) r2 = add_log w (r1 ++ r2).
Proof. unfold add_log; simpl. by rewrite <- app_assoc. Qed.

Lemma process_exceptions_invalid {R : RegexModule} schema_data errors project_id output_path w :
  ExceptionsSchema.model_validate schema_data = inl errors ->
  process_exceptions schema_data project_id output_path w =
    (Raise (ValueError (InvalidSchema errors)),
     add_log w [LogProcessing project_id; LogValidationFailed errors]).
Proof.
  intros Hv. unfold process_exceptions. rewrite Hv.
  unfold mbind, prog_bind, logger, raise, add_log. simpl. by rewrite <- app_assoc.
Qed.

Lemma process_exceptions_validated {R : RegexModule} schema_data doc project_id output_path w :
  ExceptionsSchema.model_validate schema_data = inr doc ->
  process_exceptions schema_data project_id output_path w =
    match first_error (ExceptionsSchema.exceptions doc) with
    | Some msg => (Raise (ReError msg), add_log w (matching_log project_id doc))
    | None =>
        let l := lists_after project_id (ExceptionsSchema.exceptions doc) no_lists in
        (write_file output_path (json_dumps 4 (terraform_vars project_id l)) ;;
         logger (LogGenerated output_path))
          (add_log w (matching_log project_id doc ++ summary_log l))
    end.
Proof.
  intros Hv. unfold process_exceptions. rewrite Hv.
  unfold mbind at 1 2 3 4, prog_bind at 1 2 3 4. unfold logger at 1 2 3, mret, prog_ret. simpl.
  unfold mbind at 1, prog_bind at 1.
  rewrite loop_run by (by eapply validated_types).
  unfold matching_log, add_log. simpl.
  destruct (first_error (ExceptionsSchema.exceptions doc)) as [msg|].
  - by rewrite <- !app_assoc.
  - simpl. unfold summary_log, no_lists.
    destruct (nonempty _).
    + unfold mbind, prog_bind, logger. simpl. by rewrite <- !app_assoc.
    + unfold mbind, prog_bind, logger. simpl. by rewrite <- !app_assoc.
Qed.

(** ** Properties of the aggregated list *)

Lemma elem_of_unseen (seen l : list value) (x : value) :
  x ∈ unseen seen l <-> x ∈ l /\ x ∉ seen.
Proof.
  revert seen. induction l as [|y t IH]; intros seen; simpl.
  - split; [by intros ?%elem_of_nil | by intros [?%elem_of_nil _]].
  - rewrite elem_of_app, IH, elem_of_cons, elem_of_app, list_elem_of_singleton.
    destruct (py_in y seen) eqn:Hy.
    + apply py_in_spec in Hy. rewrite elem_of_nil. split.
      * intros [[] | [Hx Hn]]. split; [by right | tauto].
      * intros [[-> | Hx] Hn]; [done|]. right. split; [done|]. intros [? | ->]; done.
    + assert (y ∉ seen) as Hy' by (intros ?%py_in_spec; congruence).
      rewrite list_elem_of_singleton. split.
      * intros [-> | [Hx Hn]]; [by split; [left|] | split; [by right | tauto]].
      * intros [[-> | Hx] Hn]; [by left|].
        destruct (decide (x = y)) as [->|Hne]; [by left|].
        right. split; [done|]. intros [? | ?]; done.
Qed.

Lemma NoDup_unseen (seen l : list value) : NoDup (unseen seen l).
Proof.
  revert seen. induction l as [|y t IH]; intros seen; simpl; [constructor|].
  destruct (py_in y seen); simpl; [apply IH|].
  constructor; [|apply IH].
  rewrite elem_of_unseen, elem_of_app, list_elem_of_singleton. tauto.
Qed.

Lemma sublist_unseen (seen l : list value) : sublist (unseen seen l) l.
Proof.
  revert seen. induction l as [|y t IH]; intros seen; simpl; [constructor|].
  destruct (py_in y seen); simpl; [by apply sublist_cons | by apply sublist_skip].
Qed.

(** ** Files *)

Lemma mkdir_parents_ok parts anchor f f' :
  mkdir_parents parts anchor f = Ok f' ->
  files f' = files f /\ dirs f ⊆ dirs f' /\ is_dir f' (anchor, rev parts) = true.
Proof.
  revert f'. induction parts as [|x up IH]; intros f'.
  - simpl. intros Hf. injection Hf as <-. done.
  - cbn [mkdir_parents].
    destruct (is_dir f (anchor, rev (x :: up))) eqn:Hd.
    { intros Hf. injection Hf as <-. done. }
    destruct (is_file f (anchor, rev (x :: up))); [discriminate|].
    destruct (is_file f (anchor, rev up)); [discriminate|].
    destruct (mkdir_parents up anchor f) as [f1|] eqn:Hup; [|discriminate].
    intros Hf. injection Hf as <-. destruct (IH f1 eq_refl) as (Hfiles & Hsub & _).
    simpl. split; [done|]. split; [by etrans; [exact Hsub | apply union_subseteq_r]|].
    unfold is_dir. simpl. destruct (rev up ++ [x])%list; [done|].
    apply bool_decide_eq_true. simpl. apply elem_of_union_l. by apply elem_of_singleton.
Qed.

Lemma mkdir_files (p : Path) (w w' : world) r :
  mkdir p w = (r, w') -> files (fs w') = files (fs w) /\ log w' = log w.
Proof.
  unfold mkdir. destruct (mkdir_parents _ _ _) as [f|e] eqn:Hf; intros Hr; injection Hr as <- <-.
  - simpl. by apply mkdir_parents_ok in Hf as (-> & _).
  - done.
Qed.

(** ** Duplicate ids and patterns that do not compile *)

Lemma size_list_to_set_le (l : list string) :
  size (list_to_set l : gset string) <= length l.
Proof.
  induction l as [|x t IH]; [by rewrite list_to_set_nil, size_empty|].
  rewrite list_to_set_cons. cbn [length].
  etrans; [apply Nat.eq_le_incl, size_union_alt|]. rewrite size_singleton.
  etrans; [apply Nat.add_le_mono_l, subseteq_size, subseteq_difference_l; reflexivity|]. lia.
Qed.

Lemma size_list_to_set_NoDup (l : list string) :
  size (list_to_set l : gset string) = length l <-> NoDup l.
Proof.
  split; [|apply size_list_to_set].
  induction l as [|x t IH]; [constructor|]. rewrite list_to_set_cons. cbn [length].
  intros Hsize.
  destruct (decide (x ∈ t)) as [Hin|Hnot].
  - exfalso. pose proof (size_list_to_set_le t) as Hle.
    replace ({[x]} ∪ list_to_set t : gset string) with (list_to_set t : gset string) in Hsize.
    + lia.
    + symmetry. apply subseteq_union_1_L, singleton_subseteq_l. by apply elem_of_list_to_set.
  - constructor; [done|]. apply IH.
    rewrite size_union, size_singleton in Hsize; [lia|].
    apply disjoint_singleton_l. by rewrite elem_of_list_to_set.
Qed.

(** X5: what [validate_unique_ids] does when it is called.  It returns
    the document when no id occurs twice; otherwise it raises the error of
    duplicate ids, which names exactly the ids that occur more than
    once. *)
Lemma validate_unique_ids_spec (self : ExceptionsSchema.t) :
  let ids := map Exception.id (ExceptionsSchema.exceptions self) in
  (NoDup ids -> ExceptionsSchema.validate_unique_ids self = Ok self)
  /\ (~ NoDup ids ->
      exists duplicates : gset string,
        ExceptionsSchema.validate_unique_ids self
        = Raise (ValueError (DuplicateExceptionIDs duplicates))
        /\ forall id, id ∈ duplicates <-> 1 < ExceptionsSchema.count id ids).
Proof.
  intros ids. unfold ExceptionsSchema.validate_unique_ids. fold ids.
  destruct (length ids =? size (list_to_set ids : gset string))%nat eqn:Hlen.
  - apply Nat.eqb_eq in Hlen. symmetry in Hlen. apply size_list_to_set_NoDup in Hlen.
    split; [done|]. intros Hdup. by destruct Hdup.
  - apply Nat.eqb_neq in Hlen. split.
    + intros Hnd. apply size_list_to_set_NoDup in Hnd. congruence.
    + intros _. eexists. split; [reflexivity|]. intros id.
      rewrite elem_of_list_to_set, list_elem_of_filter. split; [tauto|].
      intros Hcount. split; [done|]. unfold ExceptionsSchema.count in Hcount.
      destruct (decide (id ∈ ids)) as [Hin|Hnot]; [done|].
      exfalso. revert Hcount. clear -Hnot.
      induction ids as [|y t IH]; simpl; [lia|].
      rewrite filter_cons. apply not_elem_of_cons in Hnot as [Hne Hnot].
      destruct (decide (y = id)); [congruence|]. by apply IH.
Qed.

(** C1: a document with two rules of the same id is to fail validation
    with an error that names the id.  [validate_unique_ids] raises that
    error, but [model_validate] does not call it: the document with two
    rules of id 100 is validated and the run completes. *)
Theorem C1_duplicate_ids_pass_validation :
  exists doc,
    ExceptionsSchema.model_validate duplicate_ids_document = inr doc
    /\ map Exception.id (ExceptionsSchema.exceptions doc) = ["100"; "100"]
    /\ ExceptionsSchema.validate_unique_ids doc
       = Raise (ValueError (DuplicateExceptionIDs {["100"]}))
    /\ fst (process_exceptions (R:=fragment) duplicate_ids_document "lab-dev-01"
              default_output_file empty_world) = Ok tt.
Proof.
  eexists. split; [vm_compute; reflexivity|]. split; [reflexivity|].
  split; vm_compute; reflexivity.
Qed.

(** C2, as stated, fails: the document whose rule 100 has the pattern
    [(], which does not compile, is validated; and the message of the
    check names the pattern, not the id. *)
Lemma C2_counterexample :
  re_compile (RegexModule:=fragment) "("
    = inl "missing ), unterminated subpattern at position 0"
  /\ exists rule,
       ExceptionsSchema.model_validate bad_regex_document
         = inr (ExceptionsSchema.mk "1.0.0" [rule])
       /\ Exception.id rule = "100"
       /\ Exception.project_id_regex rule = "("
       /\ exists msg,
            Exception.validate_regex (R:=fragment) rule = Raise (ValueError (Text msg))
            /\ index 0 "100" msg = None.
Proof.
  split; [vm_compute; reflexivity|]. eexists. split; [vm_compute; reflexivity|].
  split; [reflexivity|]. split; [reflexivity|].
  eexists. split; vm_compute; reflexivity.
Qed.

(** C2, amended: for a rule whose pattern does not compile, the check of
    the schema, [validate_regex], raises an error whose message is made
    of the pattern and of the message of the compiler; the error is the
    same whatever the id of the rule. *)
Theorem C2_validate_regex_error {R : RegexModule} (self : Exception.t) (e : string) :
  re_compile (Exception.project_id_regex self) = inl e ->
  Exception.validate_regex self
    = Raise (ValueError (Text ("Invalid regex pattern '" ++ Exception.project_id_regex self
                                 ++ "': " ++ e)))
  /\ forall id, Exception.validate_regex (with_id id self) = Exception.validate_regex self.
Proof.
  intros He. unfold Exception.validate_regex. simpl. by rewrite He.
Qed.

Lemma C2_validate_regex_error_witness :
  exists rule,
    re_compile (RegexModule:=fragment) (Exception.project_id_regex rule)
      = inl "missing ), unterminated subpattern at position 0"
    /\ Exception.validate_regex (R:=fragment) rule
       = Raise (ValueError (Text
           "Invalid regex pattern '(': missing ), unterminated subpattern at position 0")).
Proof.
  exists (Exception.mk "100" "create_service_accounts" "(" "Lab"
            (ServiceAccountSpec.mk [])).
  split; [vm_compute; reflexivity|].
  apply (C2_validate_regex_error (R:=fragment)
           (Exception.mk "100" "create_service_accounts" "(" "Lab" (ServiceAccountSpec.mk []))
           "missing ), unterminated subpattern at position 0").
  vm_compute; reflexivity.
Defined.

(** C3: after a successful validation the matching is to raise no error.
    The validation does not compile the patterns, so the document whose
    rule has the pattern [(] is validated and the test of the rule
    raises [re.error]; no file is written. *)
Theorem C3_bad_regex_reaches_matching :
  (exists doc, ExceptionsSchema.model_validate bad_regex_document = inr doc)
  /\ exists w,
       process_exceptions (R:=fragment) bad_regex_document "lab-dev-01"
         default_output_file empty_world
       = (Raise (ReError "missing ), unterminated subpattern at position 0"), w)
       /\ files (fs w) = ∅.
Proof.
  split; [eexists; vm_compute; reflexivity|].
  eexists. split; [vm_compute; reflexivity|]. reflexivity.
Qed.

(** ** Aggregation of the service accounts *)

(** C5: the aggregated service accounts are the accounts of the matching
    rules, in the order of the rules and of their declaration, each kept
    at its first occurrence only: no entry twice, no entry that was not
    contributed, none left out, the order unchanged. *)
Theorem C5_service_accounts_first_occurrences {R : RegexModule}
    (schema_data : value) (doc : ExceptionsSchema.t) (project_id : string) (w : world) :
  ExceptionsSchema.model_validate schema_data = inr doc ->
  patterns_compile doc ->
  exists l w',
    for_each (ExceptionsSchema.exceptions doc) (visit project_id) no_lists w = (Ok l, w')
    /\ service_accounts l
       = first_occurrences (contributions project_id (ExceptionsSchema.exceptions doc))
    /\ NoDup (service_accounts l)
    /\ sublist (service_accounts l)
         (contributions project_id (ExceptionsSchema.exceptions doc))
    /\ forall x, x ∈ service_accounts l
         <-> x ∈ contributions project_id (ExceptionsSchema.exceptions doc).
Proof.
  intros Hv Hc. apply first_error_none in Hc.
  rewrite (loop_run project_id) by (by eapply validated_types). rewrite Hc.
  eexists _, _. split; [reflexivity|]. simpl.
  rewrite aggregate_first_occurrences. split; [done|].
  rewrite first_occurrences_unseen.
  split; [apply NoDup_unseen|]. split; [apply sublist_unseen|].
  intros x. rewrite elem_of_unseen, elem_of_nil. tauto.
Qed.

Lemma C5_service_accounts_first_occurrences_witness :
  ExceptionsSchema.model_validate shared_account_document = inr shared_account_schema
  /\ patterns_compile (R:=fragment) shared_account_schema
  /\ length (contributions (R:=fragment) "lab-dev-01"
               (ExceptionsSchema.exceptions shared_account_schema)) = 4
  /\ exists l w',
       for_each (ExceptionsSchema.exceptions shared_account_schema)
         (visit (R:=fragment) "lab-dev-01") no_lists empty_world = (Ok l, w')
       /\ service_accounts l
          = first_occurrences
              (contributions (R:=fragment) "lab-dev-01"
                 (ExceptionsSchema.exceptions shared_account_schema))
       /\ NoDup (service_accounts l)
       /\ sublist (service_accounts l)
            (contributions (R:=fragment) "lab-dev-01"
               (ExceptionsSchema.exceptions shared_account_schema))
       /\ forall x, x ∈ service_accounts l
            <-> x ∈ contributions (R:=fragment) "lab-dev-01"
                      (ExceptionsSchema.exceptions shared_account_schema).
Proof.
  assert (Hv : ExceptionsSchema.model_validate shared_account_document
               = inr shared_account_schema) by (vm_compute; reflexivity).
  assert (Hc : patterns_compile (R:=fragment) shared_account_schema)
    by (repeat constructor; eexists; vm_compute; reflexivity).
  split; [exact Hv|]. split; [exact Hc|]. split; [vm_compute; reflexivity|].
  exact (C5_service_accounts_first_occurrences (R:=fragment) shared_account_document
           shared_account_schema "lab-dev-01" empty_world Hv Hc).
Defined.

(** ** The output file *)

Lemma append_assoc (a b c : string) : (a ++ b) ++ c = a ++ (b ++ c).
Proof.
  induction a as [|x a IH]; [done|].
  change (String x ((a ++ b) ++ c) = String x (a ++ (b ++ c))). by f_equal.
Qed.

Lemma dumps_terraform_vars (project_id : string) (accounts : list value) :
  json_dumps 4
    (PyDict [ ("project_id", PyStr project_id);
              ("region", PyStr "europe-west4");
              ("service_accounts", PyList accounts);
              ("iam_policy_overrides", PyList []) ])
  = output_text project_id accounts.
Proof.
  unfold json_dumps, output_text.
  cbn [dumps map String.concat fst snd].
  change (encode_string "project_id") with (quoted "project_id").
  change (encode_string "region") with (quoted "region").
  change (encode_string "europe-west4") with (quoted "europe-west4").
  change (encode_string "service_accounts") with (quoted "service_accounts").
  change (encode_string "iam_policy_overrides") with (quoted "iam_policy_overrides").
  change (newline_indent 4 1) with (String newline "    ").
  change (newline_indent 4 0) with (String newline "").
  rewrite !append_assoc. reflexivity.
Qed.

Lemma iam_policy_overrides_after {R : RegexModule} project_id es l :
  iam_policy_overrides (lists_after project_id es l) = iam_policy_overrides l.
Proof. reflexivity. Qed.

(** C6: for a validated document whose patterns compile and an output
    path that can be written, the run writes the file, and its content
    is the object with the keys [project_id], [region], [service_accounts]
    and [iam_policy_overrides] in this order, indented by four spaces,
    with the given project id and the region [europe-west4]. *)
Theorem C6_output_file {R : RegexModule} (schema_data : value) (doc : ExceptionsSchema.t)
    (project_id : string) (output_path : Path) (w : world) :
  ExceptionsSchema.model_validate schema_data = inr doc ->
  patterns_compile doc ->
  is_dir (fs w) output_path = false ->
  is_dir (fs w) (parent output_path) = true ->
  let accounts :=
    first_occurrences (contributions project_id (ExceptionsSchema.exceptions doc)) in
  exists w',
    process_exceptions schema_data project_id output_path w = (Ok tt, w')
    /\ files (fs w') !! output_path
       = Some (json_dumps 4
                 (PyDict [ ("project_id", PyStr project_id);
                           ("region", PyStr "europe-west4");
                           ("service_accounts", PyList accounts);
                           ("iam_policy_overrides", PyList []) ]))
    /\ files (fs w') !! output_path = Some (output_text project_id accounts).
Proof.
  intros Hv Hc Hnd Hpd accounts. apply first_error_none in Hc.
  rewrite (process_exceptions_validated _ doc) by done. rewrite Hc. cbv zeta.
  set (l := lists_after project_id (ExceptionsSchema.exceptions doc) no_lists).
  assert (Hl : service_accounts l = accounts) by apply aggregate_first_occurrences.
  unfold mbind, prog_bind, write_file, add_log. cbn [fs log].
  rewrite Hnd. unfold is_file. rewrite Hpd. cbn [negb andb].
  eexists. split; [reflexivity|]. cbn [fs files].
  rewrite lookup_insert_eq. rewrite <- dumps_terraform_vars.
  unfold terraform_vars. rewrite Hl. done.
Qed.

Lemma C6_output_file_witness :
  ExceptionsSchema.model_validate lab_document = inr lab_schema
  /\ patterns_compile (R:=fragment) lab_schema
  /\ first_occurrences
       (contributions (R:=fragment) "lab-dev-01" (ExceptionsSchema.exceptions lab_schema))
     = [ServiceAccount.model_dump (ServiceAccount.mk "api" ["roles/viewer"] true "")]
  /\ let accounts :=
       first_occurrences
         (contributions (R:=fragment) "lab-dev-01" (ExceptionsSchema.exceptions lab_schema)) in
     exists w',
       process_exceptions (R:=fragment) lab_document "lab-dev-01" default_output_file
         empty_world = (Ok tt, w')
       /\ files (fs w') !! default_output_file
          = Some (json_dumps 4
                    (PyDict [ ("project_id", PyStr "lab-dev-01");
                              ("region", PyStr "europe-west4");
                              ("service_accounts", PyList accounts);
                              ("iam_policy_overrides", PyList []) ]))
       /\ files (fs w') !! default_output_file = Some (output_text "lab-dev-01" accounts).
Proof.
  assert (Hv : ExceptionsSchema.model_validate lab_document = inr lab_schema)
    by (vm_compute; reflexivity).
  assert (Hc : patterns_compile (R:=fragment) lab_schema)
    by (repeat constructor; eexists; vm_compute; reflexivity).
  split; [exact Hv|]. split; [exact Hc|]. split; [vm_compute; reflexivity|].
  exact (C6_output_file (R:=fragment) lab_document lab_schema "lab-dev-01"
           default_output_file empty_world Hv Hc eq_refl eq_refl).
Defined.

(** ** Invalid input *)

Lemma read_file_world p w : snd (read_file p w) = w.
Proof. unfold read_file. destruct (is_dir _ _); [done|]. by destruct (_ !! _). Qed.

Lemma main_invalid_json {R : RegexModule} {J : JsonModule} (a : args) (w : world) s e :
  schema a = inr s -> json_loads s = inl e ->
  main a w = (Exit 1, add_log w [LogLoadingString; LogInvalidJson e]).
Proof.
  intros Hs He. unfold main. rewrite Hs, He.
  unfold mbind, prog_bind, logger, mret, prog_ret, add_log. simpl. by rewrite <- app_assoc.
Qed.

Lemma main_loaded {R : RegexModule} {J : JsonModule} (a : args) (w : world) schema_data :
  loads a w schema_data ->
  main a w =
    match (mkdir (parent (output_file a)) ;;
           process_exceptions schema_data (project_id a) (output_file a))
            (add_log w [loading_record a]) with
    | (Ok _, w2) => (Finished, w2)
    | (Raise e, w2) => (Uncaught e, w2)
    end.
Proof.
  unfold loads, main, loading_record. destruct (schema a) as [p|s].
  - intros (content & Hread & Hjson).
    unfold mbind at 1 2, prog_bind at 1 2, logger at 1.
    set (w0 := {| fs := fs w; log := (log w ++ [LogLoadingFile p])%list |}).
    pose proof (read_file_world p w0) as Hw.
    assert (Hr : fst (read_file p w0) = Ok content).
    { revert Hread. unfold read_file. simpl. destruct (is_dir _ _); [done|].
      by destruct (_ !! _). }
    clear Hread. destruct (read_file p w0) as [r w1]. simpl in Hw, Hr. subst r w1.
    cbv beta iota. rewrite Hjson. done.
  - intros Hjson. rewrite Hjson. done.
Qed.

(** C7: on an invalid input, a string that is not JSON or a document that
    fails validation, the process ends with a status that is not 0, no
    file is written, and nothing is matched: the run records no test of
    a rule and no written file. *)
Theorem C7_invalid_input_writes_nothing {R : RegexModule} {J : JsonModule}
    (a : args) (w : world) :
  (exists s e, schema a = inr s /\ json_loads s = inl e)
  \/ (exists schema_data errors,
        loads a w schema_data /\ ExceptionsSchema.model_validate schema_data = inl errors) ->
  exists records,
    exit_status (fst (main a w)) <> 0
    /\ files (fs (snd (main a w))) = files (fs w)
    /\ log (snd (main a w)) = (log w ++ records)%list
    /\ Forall (fun r => ~ matching_or_writing r) records.
Proof.
  intros [(s & e & Hs & He) | (schema_data & errors & Hload & Hv)].
  - rewrite (main_invalid_json a w s e) by done. eexists. simpl.
    split; [done|]. split; [done|]. split; [done|]. repeat constructor; auto.
  - rewrite (main_loaded a w schema_data) by done.
    unfold mbind, prog_bind.
    destruct (mkdir (parent (output_file a)) (add_log w [loading_record a]))
      as [[[]|e] w1] eqn:Hmk; apply mkdir_files in Hmk as [Hfiles Hlog].
    + rewrite (process_exceptions_invalid _ errors) by done. eexists. simpl.
      rewrite Hfiles, Hlog. simpl. rewrite <- app_assoc.
      split; [done|]. split; [done|]. split; [done|].
      unfold loading_record. destruct (schema a); repeat constructor; auto.
    + eexists. simpl. rewrite Hfiles, Hlog. simpl.
      split; [done|]. split; [done|]. split; [done|].
      unfold loading_record. destruct (schema a); repeat constructor; auto.
Qed.

Lemma C7_invalid_input_writes_nothing_witness :
  (exists records,
     exit_status (fst (main (R:=fragment) (J:=example_json)
                         (string_args "{" default_output_file) empty_world)) <> 0
     /\ files (fs (snd (main (R:=fragment) (J:=example_json)
                          (string_args "{" default_output_file) empty_world)))
        = files (fs empty_world)
     /\ log (snd (main (R:=fragment) (J:=example_json)
                    (string_args "{" default_output_file) empty_world))
        = (log empty_world ++ records)%list
     /\ Forall (fun r => ~ matching_or_writing r) records)
  /\ (exists records,
     exit_status (fst (main (R:=fragment) (J:=example_json)
                         (string_args "{}" default_output_file) empty_world)) <> 0
     /\ files (fs (snd (main (R:=fragment) (J:=example_json)
                          (string_args "{}" default_output_file) empty_world)))
        = files (fs empty_world)
     /\ log (snd (main (R:=fragment) (J:=example_json)
                    (string_args "{}" default_output_file) empty_world))
        = (log empty_world ++ records)%list
     /\ Forall (fun r => ~ matching_or_writing r) records).
Proof.
  split.
  - apply (C7_invalid_input_writes_nothing (R:=fragment) (J:=example_json)
             (string_args "{" default_output_file) empty_world).
    left. exists "{", "Expecting value". split; reflexivity.
  - apply (C7_invalid_input_writes_nothing (R:=fragment) (J:=example_json)
             (string_args "{}" default_output_file) empty_world).
    right. eexists (PyDict []), _. split; [reflexivity | vm_compute; reflexivity].
Defined.

(** ** The type of a rule *)

Lemma exception_other_type d t :
  dict_get "type" d = Some t ->
  t <> PyStr "create_service_accounts" ->
  exists errors, Exception.model_validate (PyDict d) = inl errors.
Proof.
  intros Hget Hne.
  destruct (Exception.model_validate (PyDict d)) as [errors|e] eqn:Hv; [eauto|].
  apply exception_validated in Hv as (d' & Hd & Hty & _). injection Hd as <-. congruence.
Qed.

(** C8: validation accepts a rule only with the type
    [create_service_accounts]; a rule with any other type, also
    [override_iam_policies], makes it fail.  So in a run on a validated
    document the branch for [override_iam_policies] is never taken and
    the list of overrides stays empty. *)
Theorem C8_single_rule_type {R : RegexModule} :
  (forall schema_data doc,
      ExceptionsSchema.model_validate schema_data = inr doc ->
      Forall (fun e => Exception.type e = "create_service_accounts")
        (ExceptionsSchema.exceptions doc))
  /\ (forall d rules rule fields t,
        dict_get "exceptions" d = Some (PyList rules) ->
        rule ∈ rules ->
        rule = PyDict fields ->
        dict_get "type" fields = Some t ->
        t <> PyStr "create_service_accounts" ->
        exists errors, ExceptionsSchema.model_validate (PyDict d) = inl errors)
  /\ (forall schema_data doc project_id w,
        ExceptionsSchema.model_validate schema_data = inr doc ->
        (forall msg,
            fst (for_each (ExceptionsSchema.exceptions doc) (visit project_id) no_lists w)
            <> Raise (AttributeError msg))
        /\ (forall l,
              fst (for_each (ExceptionsSchema.exceptions doc) (visit project_id) no_lists w)
              = Ok l ->
              iam_policy_overrides l = []
              /\ dict_get "iam_policy_overrides"
                   (fields_of (terraform_vars project_id l))
                 = Some (PyList []))).
Proof.
  split; [apply validated_types|]. split.
  - intros d rules rule fields t Hget Hin -> Hty Hne.
    destruct (ExceptionsSchema.model_validate (PyDict d)) as [errors|doc] eqn:Hv; [eauto|].
    apply schema_validated in Hv as (d' & l & Hd & Hl & Hall). injection Hd as <-.
    rewrite Hget in Hl. injection Hl as <-.
    apply list_elem_of_lookup in Hin as [i Hi].
    destruct (Forall2_lookup_l _ _ _ _ _ Hall Hi) as (e & _ & He).
    destruct (exception_other_type fields t Hty Hne) as [errors Herr]. congruence.
  - intros schema_data doc project_id w Hv.
    rewrite (loop_run project_id) by (by eapply validated_types). simpl.
    split.
    + intros msg. by destruct (first_error _).
    + intros l. destruct (first_error _); [done|]. intros Hl. injection Hl as <-. done.
Qed.

Lemma C8_single_rule_type_witness :
  Forall (fun e => Exception.type e = "create_service_accounts")
    (ExceptionsSchema.exceptions lab_schema)
  /\ (exists errors,
        ExceptionsSchema.model_validate
          (example_document [override_rule]) = inl errors)
  /\ iam_policy_overrides
       (lists_after (R:=fragment) "lab-dev-01" (ExceptionsSchema.exceptions lab_schema)
          no_lists) = [].
Proof.
  assert (Hv : ExceptionsSchema.model_validate lab_document = inr lab_schema)
    by (vm_compute; reflexivity).
  destruct (C8_single_rule_type (R:=fragment)) as (Htypes & Hother & Hrun).
  split; [exact (Htypes lab_document lab_schema Hv)|]. split.
  - refine (Hother (fields_of (example_document [override_rule])) [override_rule]
              override_rule (fields_of override_rule) (PyStr "override_iam_policies")
              eq_refl _ eq_refl eq_refl _).
    + apply list_elem_of_here.
    + discriminate.
  - destruct (Hrun lab_document lab_schema "lab-dev-01" empty_world Hv) as [_ Hl].
    refine (proj1 (Hl _ _)). vm_compute. reflexivity.
Defined.

(** ** Directories of a failed run *)

(** C10: the script creates the parent directories of the output file
    before it validates the document.  When the input is JSON and the
    document fails validation, the run ends with the validation error,
    the directories exist and no file was written. *)
Theorem C10_directories_before_validation {R : RegexModule} {J : JsonModule}
    (a : args) (w : world) (schema_data : value) (errors : list ErrorDetails)
    (f : filesystem) :
  loads a w schema_data ->
  ExceptionsSchema.model_validate schema_data = inl errors ->
  mkdir_parents (rev (snd (parent (output_file a)))) (fst (parent (output_file a))) (fs w)
    = Ok f ->
  exists w',
    main a w = (Uncaught (ValueError (InvalidSchema errors)), w')
    /\ fs w' = f
    /\ is_dir f (parent (output_file a)) = true
    /\ dirs (fs w) ⊆ dirs f
    /\ files f = files (fs w).
Proof.
  intros Hload Hv Hmk. rewrite (main_loaded a w schema_data) by done.
  unfold mbind, prog_bind, mkdir, add_log. cbn [fs log]. rewrite Hmk.
  rewrite (process_exceptions_invalid _ errors) by done.
  eexists. split; [reflexivity|]. cbn [fs add_log].
  apply mkdir_parents_ok in Hmk as (Hfiles & Hdirs & Hdir).
  rewrite rev_involutive in Hdir. destruct (parent (output_file a)). done.
Qed.

Lemma C10_directories_before_validation_witness :
  is_dir (fs empty_world) (parent nested_output_file) = false
  /\ exists errors f w',
       ExceptionsSchema.model_validate (PyDict []) = inl errors
       /\ main (R:=fragment) (J:=example_json) (string_args "{}" nested_output_file)
            empty_world = (Uncaught (ValueError (InvalidSchema errors)), w')
       /\ fs w' = f
       /\ is_dir f (parent nested_output_file) = true
       /\ dirs (fs empty_world) ⊆ dirs f
       /\ files f = files (fs empty_world).
Proof.
  split; [vm_compute; reflexivity|].
  eexists _, _.
  assert (Hv : ExceptionsSchema.model_validate (PyDict [])
               = inl [ {| err_type := "missing"; err_loc := [LKey "version"] |};
                       {| err_type := "missing"; err_loc := [LKey "exceptions"] |} ])
    by reflexivity.
  destruct (C10_directories_before_validation (R:=fragment) (J:=example_json)
              (string_args "{}" nested_output_file) empty_world (PyDict []) _
              {| dirs := {[ (false, ["output"]) ]} ∪ ∅; files := ∅ |}
              eq_refl Hv eq_refl) as (w' & Hw').
  exists w'. split; [exact Hv | exact Hw'].
Defined.

(** ** The matcher and the matches *)

Lemma or_else_some a b r :
  Re.or_else a b = Some r -> a = Some r \/ (a = None /\ b = Some r).
Proof. destruct a; simpl; intros Hr; [left | right]; auto. Qed.

Lemma or_else_is_some a b : is_Some a \/ is_Some b -> is_Some (Re.or_else a b).
Proof. destruct a; simpl; intros [Ha | Hb]; eauto; by destruct Ha. Qed.

Lemma star_loop_sound d g a k :
  (forall st caps k res,
      Re.run d a st caps k = Some res ->
      exists st' caps', Re.Matches d a st caps st' caps' /\ k st' caps' = Some res) ->
  forall fuel st caps res,
    Re.star_loop (Re.run d a) g k fuel st caps = Some res ->
    exists st' caps', Re.Matches d (Re.Star g a) st caps st' caps' /\ k st' caps' = Some res.
Proof.
  intros IHa. induction fuel as [|f IHf]; intros st caps res Hres.
  - simpl in Hres. destruct g; simpl in Hres.
    + eauto using Re.MStarStop.
    + apply or_else_some in Hres as [Hres | [_ Hres]]; [|done]. eauto using Re.MStarStop.
  - cbn [Re.star_loop] in Hres.
    assert (Hmore : forall res,
      Re.run d a st caps (fun st' caps' =>
        if (length (Re.remaining st') <? length (Re.remaining st))%nat
        then Re.star_loop (Re.run d a) g k f st' caps' else None) = Some res ->
      exists st' caps', Re.Matches d (Re.Star g a) st caps st' caps' /\ k st' caps' = Some res).
    { intros res' Hrun. apply IHa in Hrun as (st1 & caps1 & Ha & Hk).
      destruct (length (Re.remaining st1) <? length (Re.remaining st))%nat eqn:Hlt;
        [|discriminate].
      apply Nat.ltb_lt in Hlt. apply IHf in Hk as (st2 & caps2 & Hstar & Hk).
      eauto using Re.MStarMore. }
    destruct g; apply or_else_some in Hres as [Hres | [_ Hres]];
      eauto using Re.MStarStop.
Qed.

Lemma run_sound d r :
  forall st caps k res,
    Re.run d r st caps k = Some res ->
    exists st' caps', Re.Matches d r st caps st' caps' /\ k st' caps' = Some res.
Proof.
  induction r as [|cs| | |a IHa b IHb|a IHa b IHb|g a IHa|n a IHa]; intros st caps k res Hres;
    cbn [Re.run] in Hres.
  - eauto using Re.MEps.
  - destruct st as [b [|c t]]; simpl in Hres; [discriminate|].
    destruct (Re.cs_mem cs c) eqn:Hc; [|discriminate]. eauto using Re.MChars.
  - destruct st as [[] t]; simpl in Hres; [|discriminate]. eauto using Re.MBol.
  - destruct (Re.at_end d (Re.remaining st)) eqn:He; [|discriminate]. eauto using Re.MEol.
  - apply IHa in Hres as (st1 & caps1 & Ha & Hres).
    apply IHb in Hres as (st2 & caps2 & Hb & Hres). eauto using Re.MSeq.
  - apply or_else_some in Hres as [Hres | [_ Hres]].
    + apply IHa in Hres as (st1 & caps1 & Ha & Hres). eauto using Re.MAltL.
    + apply IHb in Hres as (st1 & caps1 & Hb & Hres). eauto using Re.MAltR.
  - eapply star_loop_sound; eauto.
  - apply IHa in Hres as (st1 & caps1 & Ha & Hres). eauto using Re.MGroup.
Qed.

Lemma run_complete d r st caps st' caps' :
  Re.Matches d r st caps st' caps' ->
  forall k, is_Some (k st' caps') ->
    is_Some (Re.run d r st caps k)
    /\ forall g a, r = Re.Star g a ->
         forall fuel, length (Re.remaining st) <= fuel ->
           is_Some (Re.star_loop (Re.run d a) g k fuel st caps).
Proof.
  induction 1 as [st caps|cs b c t caps Hc|t caps|st caps He
                  |a b st caps st1 caps1 st2 caps2 _ IHa _ IHb
                  |a b st caps st1 caps1 _ IHa|a b st caps st1 caps1 _ IHb
                  |g a st caps
                  |g a st caps st1 caps1 st2 caps2 _ IHa Hlt _ IHstar
                  |n a st caps st1 caps1 _ IHa];
    intros k Hk; (split; [|try discriminate]); cbn [Re.run].
  - done.
  - simpl. by rewrite Hc.
  - done.
  - by rewrite He.
  - apply IHa. by apply IHb.
  - apply or_else_is_some. left. by apply IHa.
  - apply or_else_is_some. right. by apply IHb.
  - destruct (length (Re.remaining st)); cbn [Re.star_loop];
      destruct g; apply or_else_is_some; auto.
  - intros g' a' Heq fuel _. injection Heq as <- <-.
    destruct fuel; cbn [Re.star_loop]; destruct g; apply or_else_is_some; auto.
  - destruct (IHstar k Hk) as [_ Hloop].
    destruct (length (Re.remaining st)) as [|f] eqn:Hlen; [lia|].
    cbn [Re.star_loop].
    assert (Hmore : is_Some (Re.run d a st caps (fun st' caps' =>
        if (length (Re.remaining st') <? length (Re.remaining st))%nat
        then Re.star_loop (Re.run d a) g k f st' caps' else None))).
    { apply IHa. rewrite (proj2 (Nat.ltb_lt _ _)) by lia.
      apply (Hloop g a eq_refl). lia. }
    destruct g; apply or_else_is_some; auto.
  - intros g' a' Heq fuel Hfuel. injection Heq as <- <-.
    destruct (IHstar k Hk) as [_ Hloop].
    destruct fuel as [|f]; [lia|]. cbn [Re.star_loop].
    assert (Hmore : is_Some (Re.run d a st caps (fun st' caps' =>
        if (length (Re.remaining st') <? length (Re.remaining st))%nat
        then Re.star_loop (Re.run d a) g k f st' caps' else None))).
    { apply IHa. rewrite (proj2 (Nat.ltb_lt _ _)) by lia.
      apply (Hloop g a eq_refl). lia. }
    destruct g; apply or_else_is_some; auto.
  - apply IHa. done.
Qed.

(** A match consumes a prefix of the text that remains. *)
Lemma matches_consumes d r st caps st' caps' :
  Re.Matches d r st caps st' caps' ->
  exists t, Re.remaining st = (t ++ Re.remaining st')%list /\ Re.consumed st st' = t.
Proof.
  assert (Hcons : forall (t rest : list ascii),
             take (length (t ++ rest)%list - length rest) (t ++ rest)%list = t).
  { intros t rest. rewrite length_app.
    replace (length t + length rest - length rest) with (length t) by lia.
    by rewrite take_app_length. }
  induction 1 as [st caps|cs b c t caps Hc|t caps|st caps He
                  |a b st caps st1 caps1 st2 caps2 _ IHa _ IHb
                  |a b st caps st1 caps1 _ IHa|a b st caps st1 caps1 _ IHb
                  |g a st caps
                  |g a st caps st1 caps1 st2 caps2 _ IHa Hlt _ IHstar
                  |n a st caps st1 caps1 _ IHa]; unfold Re.consumed in *.
  - exists []. split; [done|]. by rewrite Nat.sub_diag.
  - exists [c]. split; [done|]. simpl. replace (S (length t) - length t) with 1 by lia. done.
  - exists []. split; [done|]. by rewrite Nat.sub_diag.
  - exists []. split; [done|]. by rewrite Nat.sub_diag.
  - destruct IHa as (t1 & H1 & _), IHb as (t2 & H2 & _).
    exists (t1 ++ t2)%list. rewrite H1, H2, <- app_assoc. split; [done|].
    rewrite app_assoc. apply Hcons.
  - done.
  - done.
  - exists []. split; [done|]. by rewrite Nat.sub_diag.
  - destruct IHa as (t1 & H1 & _), IHstar as (t2 & H2 & _).
    exists (t1 ++ t2)%list. rewrite H1, H2, <- app_assoc. split; [done|].
    rewrite app_assoc. apply Hcons.
  - done.
Qed.

Lemma fragment_match_spec (r : Re.re) (s : string) :
  fragment_match r s = true
  <-> exists st' caps', Re.Matches Re.Python r (true, chars s) [] st' caps'.
Proof.
  unfold fragment_match, Re.match_at_start. rewrite bool_decide_eq_true. split.
  - intros [res Hres]. apply run_sound in Hres as (st' & caps' & Hm & _). eauto.
  - intros (st' & caps' & Hm). by apply (run_complete _ _ _ _ _ _ Hm Re.accept).
Qed.

Lemma fragment_agrees : agrees_with_fragment fragment.
Proof.
  intros p. destruct (Re.compile p) as [r|msg pos|] eqn:Hp; [| |done].
  - exists r. simpl. unfold fragment_compile. by rewrite Hp.
  - simpl. unfold fragment_compile. by rewrite Hp.
Qed.

Lemma agrees_re_match {R : RegexModule} (p : string) (r : Re.re) (s : string) :
  agrees_with_fragment R ->
  Re.compile p = Re.Parsed r ->
  re_match p s = Ok (fragment_match r s).
Proof.
  intros HR Hp. specialize (HR p). rewrite Hp in HR. destruct HR as (c & Hc & Hm).
  unfold re_match. by rewrite Hc, Hm.
Qed.

(** ** Matching at the start *)

(** C4: a rule is matched exactly when [re.match] finds a match of its
    pattern that starts at position 0 of the project id; the match may
    end anywhere.  So [^lab-] matches [lab-dev-01] and [lab-devops-99],
    and [^prod-.*$] does not match [staging-prod-1]. *)
Theorem C4_match_at_start {R : RegexModule} :
  agrees_with_fragment R ->
  (forall schema_data doc project_id w l w',
      ExceptionsSchema.model_validate schema_data = inr doc ->
      for_each (ExceptionsSchema.exceptions doc) (visit project_id) no_lists w = (Ok l, w') ->
      matched_exceptions l
      = map Exception.id
          (filter (fun e => matches project_id e = true) (ExceptionsSchema.exceptions doc)))
  /\ (forall e project_id,
        matches project_id e = true
        <-> re_match (Exception.project_id_regex e) project_id = Ok true)
  /\ (forall p r s,
        Re.compile p = Re.Parsed r ->
        re_match p s = Ok true
        <-> exists st' caps', Re.Matches Re.Python r (true, chars s) [] st' caps')
  /\ re_match "^lab-" "lab-dev-01" = Ok true
  /\ re_match "^lab-" "lab-devops-99" = Ok true
  /\ re_match "^prod-.*$" "staging-prod-1" = Ok false.
Proof.
  intros HR. split; [|split; [|split; [|split; [|split]]]].
  - intros schema_data doc project_id w l w' Hv Hrun.
    rewrite (loop_run project_id) in Hrun by (by eapply validated_types).
    destruct (first_error _); [discriminate|]. by injection Hrun as <- _.
  - intros e project_id. unfold matches.
    destruct (re_match _ _) as [[]|]; split; congruence.
  - intros p r s Hp. rewrite (agrees_re_match p r s HR Hp), <- fragment_match_spec.
    split; congruence.
  - erewrite agrees_re_match by (done || vm_compute; reflexivity). vm_compute. reflexivity.
  - erewrite agrees_re_match by (done || vm_compute; reflexivity). vm_compute. reflexivity.
  - erewrite agrees_re_match by (done || vm_compute; reflexivity). vm_compute. reflexivity.
Qed.

Lemma C4_match_at_start_witness :
  agrees_with_fragment fragment
  /\ Re.compile "^lab-" = Re.Parsed lab_re
  /\ Re.match_at_start Re.Python (Re.Group 0 lab_re) (chars "lab-devops-99")
     = Some [(0, chars "lab-")]
  /\ re_match (R:=fragment) "^lab-" "lab-dev-01" = Ok true
  /\ re_match (R:=fragment) "^lab-" "lab-devops-99" = Ok true
  /\ re_match (R:=fragment) "^prod-.*$" "staging-prod-1" = Ok false.
Proof.
  split; [exact fragment_agrees|]. split; [vm_compute; reflexivity|].
  split; [vm_compute; reflexivity|].
  exact (proj2 (proj2 (proj2 (C4_match_at_start (R:=fragment) fragment_agrees)))).
Defined.

Lemma digit_set_mem c : Re.cs_mem (Re.CSet false [Re.IDigit false]) c = is_digit c.
Proof. simpl. by rewrite orb_false_r. Qed.

Lemma matches_seq_inv d a b st caps st2 caps2 :
  Re.Matches d (Re.Seq a b) st caps st2 caps2 ->
  exists st1 caps1, Re.Matches d a st caps st1 caps1 /\ Re.Matches d b st1 caps1 st2 caps2.
Proof. inversion 1; subst; eauto. Qed.

Lemma matches_alt_inv d a b st caps st1 caps1 :
  Re.Matches d (Re.Alt a b) st caps st1 caps1 ->
  Re.Matches d a st caps st1 caps1 \/ Re.Matches d b st caps st1 caps1.
Proof. inversion 1; subst; eauto. Qed.

Lemma matches_group_inv d n a st caps st1 caps' :
  Re.Matches d (Re.Group n a) st caps st1 caps' ->
  exists caps1, Re.Matches d a st caps st1 caps1 /\ caps' = (n, Re.consumed st st1) :: caps1.
Proof. inversion 1; subst; eauto. Qed.

Lemma matches_eps_inv d st caps st' caps' :
  Re.Matches d Re.Eps st caps st' caps' -> st' = st /\ caps' = caps.
Proof. inversion 1; subst; eauto. Qed.

Lemma matches_bol_inv d st caps st' caps' :
  Re.Matches d Re.Bol st caps st' caps' -> fst st = true /\ st' = st /\ caps' = caps.
Proof. inversion 1; subst; eauto. Qed.

Lemma matches_eol_inv d st caps st' caps' :
  Re.Matches d Re.Eol st caps st' caps' ->
  Re.at_end d (Re.remaining st) = true /\ st' = st /\ caps' = caps.
Proof. inversion 1; subst; eauto. Qed.

Lemma matches_chars_inv d cs st caps st' caps' :
  Re.Matches d (Re.Chars cs) st caps st' caps' ->
  exists c t, Re.remaining st = c :: t /\ Re.cs_mem cs c = true
              /\ st' = (false, t) /\ caps' = caps.
Proof. inversion 1; subst; simpl; eauto 10. Qed.

Lemma matches_digits_inv d g st caps st' caps' :
  Re.Matches d (Re.Star g digit_set) st caps st' caps' ->
  exists ds, digits ds /\ Re.remaining st = (ds ++ Re.remaining st')%list /\ caps' = caps.
Proof.
  remember (Re.Star g digit_set) as r eqn:Hr. induction 1; try discriminate.
  - exists []. by repeat split; [constructor|..].
  - injection Hr as -> ->. destruct (IHMatches2 eq_refl) as (ds & Hds & Hrem & ->).
    apply matches_chars_inv in H as (c & t & Hst & Hc & -> & ->).
    exists (c :: ds). rewrite digit_set_mem in Hc. simpl in *.
    split; [by constructor|]. split; [by rewrite Hst, Hrem | done].
Qed.

Lemma unit_set_mem u :
  Re.cs_mem (Re.CSet false [Re.IChar "d"; Re.IChar "h"; Re.IChar "m"]) u = true
  <-> is_unit u.
Proof.
  unfold Re.cs_mem, Re.item_mem, ascii_eqb, is_unit. cbn [existsb xorb].
  rewrite orb_false_r, !orb_true_iff, !Ascii.eqb_eq. intuition congruence.
Qed.

Lemma at_end_python l : Re.at_end Re.Python l = true <-> l = [] \/ l = [newline].
Proof.
  destruct l as [|x [|y l]]; simpl; unfold ascii_eqb.
  - intuition.
  - rewrite Ascii.eqb_eq. split; [intros ->; auto | intros [?|?]; congruence].
  - split; [done | intros [?|?]; discriminate].
Qed.

Lemma duration_match_inv s st' caps' :
  Re.Matches Re.Python duration_re (true, s) [] st' caps' ->
  exists n u rest,
    s = (n ++ [u] ++ rest)%list /\ is_number n /\ is_unit u
    /\ (rest = [] \/ rest = [newline])
    /\ caps' = [(2, [u]); (1, n)].
Proof.
  unfold duration_re. intros H.
  apply matches_seq_inv in H as (st0 & c0 & Hbol & H).
  apply matches_bol_inv in Hbol as (_ & -> & ->).
  apply matches_seq_inv in H as (st1 & c1 & Hg1 & H).
  apply matches_seq_inv in H as (st2 & c2 & Hg2 & Heol).
  apply matches_eol_inv in Heol as (Hend & -> & ->).
  pose proof (matches_consumes _ _ _ _ _ _ Hg1) as (n & Hn & Hcons1).
  pose proof (matches_consumes _ _ _ _ _ _ Hg2) as (u' & Hu' & Hcons2).
  apply matches_group_inv in Hg1 as (c1' & Hin & ->).
  apply matches_group_inv in Hg2 as (c2' & Hunit & ->).
  apply matches_chars_inv in Hunit as (u & t & Hst1 & Hu & -> & ->).
  apply matches_seq_inv in Hin as (sa & ca & Ha & Hin).
  apply matches_digits_inv in Ha as (a & Hda & Hrema & ->).
  apply matches_seq_inv in Hin as (sp & cp & Hp & Hin).
  apply matches_seq_inv in Hin as (sc & cc & Hc & Hb).
  apply matches_chars_inv in Hc as (c & tc & Hsp & Hcd & -> & ->).
  apply matches_digits_inv in Hb as (b & Hdb & Hremb & ->).
  rewrite digit_set_mem in Hcd. apply unit_set_mem in Hu. apply at_end_python in Hend.
  unfold Re.remaining in *. cbn [snd] in *.
  rewrite Hcons1, Hcons2. rewrite Hst1 in Hu', Hn, Hremb.
  assert (u' = [u]) as -> by (apply (app_inv_tail t); by rewrite <- Hu').
  assert (Hp' : exists p, (p = [] \/ p = ["."%char]) /\ sa.2 = (p ++ sp.2)%list /\ cp = []).
  { apply matches_alt_inv in Hp as [Hp | Hp].
    - apply matches_chars_inv in Hp as (x & tx & Hsa & Hx & -> & ->).
      unfold Re.cs_mem, ascii_eqb in Hx. apply Ascii.eqb_eq in Hx as <-. exists ["."%char].
      unfold Re.remaining in Hsa. rewrite Hsa. auto.
    - apply matches_eps_inv in Hp as [-> ->]. exists []. auto. }
  destruct Hp' as (p & Hp' & Hsa & ->).
  assert (Hs : s = ((a ++ p ++ c :: b) ++ u :: t)%list).
  { rewrite Hrema, Hsa, Hsp, Hremb. by rewrite <- !app_assoc. }
  assert (n = (a ++ p ++ c :: b)%list) as ->
    by (apply (app_inv_tail (u :: t)); by rewrite <- Hn, <- Hs).
  exists (a ++ p ++ c :: b)%list, u, t. split; [by rewrite Hs|].
  split; [|done].
  exists a, p, (c :: b). split; [done|]. split; [done|]. split; [done|].
  split; [by constructor | done].
Qed.

Lemma matches_digits d g b ds rest caps :
  digits ds ->
  exists b', Re.Matches d (Re.Star g digit_set) (b, (ds ++ rest)%list) caps (b', rest) caps.
Proof.
  intros Hds. revert b. induction Hds as [|c ds Hc _ IH]; intros b.
  - exists b. constructor.
  - destruct (IH false) as [b' Hb']. exists b'.
    eapply Re.MStarMore with (st1 := (false, (ds ++ rest)%list)); [| |exact Hb'].
    + constructor. by rewrite digit_set_mem.
    + simpl. lia.
Qed.

Lemma duration_match_build n u rest :
  is_number n -> is_unit u -> rest = [] \/ rest = [newline] ->
  exists st' caps',
    Re.Matches Re.Python duration_re (true, (n ++ [u] ++ rest)%list) [] st' caps'.
Proof.
  intros (a & p & b & -> & Ha & Hp & Hb & Hne) Hu Hrest.
  destruct b as [|c b]; [done|]. inversion Hb as [|? ? Hc Hb']; subst.
  set (tail := ([u] ++ rest)%list).
  replace ((a ++ p ++ c :: b) ++ tail)%list with (a ++ (p ++ c :: (b ++ tail)))%list
    by (by rewrite <- !app_assoc).
  destruct (matches_digits Re.Python true true a (p ++ c :: (b ++ tail))%list [] Ha)
    as [b1 H1].
  destruct (matches_digits Re.Python true false b tail [] Hb') as [b3 H3].
  assert (H2 : exists b2,
    Re.Matches Re.Python (Re.Alt (Re.Chars (Re.CLit ".")) Re.Eps)
      (b1, (p ++ c :: (b ++ tail))%list) [] (b2, c :: (b ++ tail)%list) []).
  { destruct Hp as [-> | ->].
    - exists b1. apply Re.MAltR. constructor.
    - exists false. apply Re.MAltL. constructor. apply Ascii.eqb_refl. }
  destruct H2 as [b2 H2].
  eexists _, _. unfold duration_re.
  eapply Re.MSeq; [constructor|].
  eapply Re.MSeq.
  - apply Re.MGroup. eapply Re.MSeq; [exact H1|].
    eapply Re.MSeq; [exact H2|].
    eapply Re.MSeq; [|exact H3].
    constructor. by rewrite digit_set_mem.
  - eapply Re.MSeq.
    + apply Re.MGroup. unfold tail. simpl. constructor. by apply unit_set_mem.
    + constructor. by apply at_end_python.
Qed.

Lemma py_lower_nonempty s : chars (py_lower s) = [] -> s = "".
Proof.
  unfold py_lower, text, chars. rewrite list_ascii_of_string_of_list_ascii.
  destruct s; [done | discriminate].
Qed.

(** What [parse_time_duration] accepts, and the value it returns. *)
Lemma parse_time_duration_ok {F : FloatModule} (s : string) (v : float) :
  parse_time_duration s = Ok v ->
  exists n u rest,
    chars (py_lower s) = (n ++ [u] ++ rest)%list /\ is_number n /\ is_unit u
    /\ (rest = [] \/ rest = [newline]) /\ v = duration_days n u.
Proof.
  unfold parse_time_duration. destruct (String.eqb s ""); [discriminate|].
  destruct (Re.match_at_start _ _ _) as [groups|] eqn:Hm; [|discriminate].
  apply run_sound in Hm as (st' & caps' & HM & Hacc). injection Hacc as ->.
  apply duration_match_inv in HM as (n & u & rest & Hs & Hn & Hu & Hrest & ->).
  cbn [Re.group Nat.eqb]. intros Hv. exists n, u, rest.
  split; [done|]. split; [done|]. split; [done|]. split; [done|].
  unfold duration_days.
  destruct Hu as [-> | [-> | ->]]; vm_compute in Hv; by injection Hv as <-.
Qed.

Lemma parse_time_duration_accepts {F : FloatModule} (s : string) n u rest :
  chars (py_lower s) = (n ++ [u] ++ rest)%list -> is_number n -> is_unit u ->
  rest = [] \/ rest = [newline] ->
  exists v, parse_time_duration s = Ok v.
Proof.
  intros Hs Hn Hu Hrest. unfold parse_time_duration.
  destruct (String.eqb s "") eqn:He.
  { apply String.eqb_eq in He as ->. by destruct n. }
  destruct (duration_match_build n u rest Hn Hu Hrest) as (st' & caps' & HM).
  rewrite <- Hs in HM.
  destruct (proj1 (run_complete _ _ _ _ _ _ HM Re.accept (ltac:(by eexists))))
    as [groups Hg].
  unfold Re.match_at_start. rewrite Hg.
  apply run_sound in Hg as (st2 & caps2 & HM2 & Hacc). injection Hacc as ->.
  apply duration_match_inv in HM2 as (n2 & u2 & rest2 & _ & _ & Hu2 & _ & ->).
  cbn [Re.group Nat.eqb].
  destruct Hu2 as [-> | [-> | ->]]; vm_compute; eauto.
Qed.

Section Handler.
Context {F : FloatModule} {D : DatetimeModule} {C : CloudModule}.

Lemma truthy_some s : truthy (Some s) = true <-> s <> "".
Proof.
  simpl. destruct (String.eqb s "") eqn:E; simpl.
  - apply String.eqb_eq in E. split; [done | congruence].
  - apply String.eqb_neq in E. done.
Qed.

Lemma datetime_add_ok t delta new : datetime_add t delta = Ok new -> new = (t + delta)%Z.
Proof. unfold datetime_add. destruct (_ && _); [|discriminate]. by intros [= <-]. Qed.

Ltac no_update Hrun Hin :=
  injection Hrun as <- <-; left;
  repeat (apply elem_of_app in Hin as [Hin|Hin];
          [|apply list_elem_of_singleton in Hin; discriminate]);
  exact Hin.

Lemma handle_body_update event h r h' name expire :
  handle_body event h = (r, h') ->
  UpdateSecret name expire ∈ h' ->
  UpdateSecret name expire ∈ h
  \/ exists secret label d delta t,
       payload_name event = Some name
       /\ get_secret h name = Ok secret
       /\ labels secret !! "ccoe_expiration_extension_time" = Some label
       /\ parse_time_duration label = Ok d
       /\ timedelta_days d = Ok delta
       /\ expire_time secret = Some t
       /\ expire = strftime (t + delta).
Proof.
  unfold handle_body. intros Hrun Hin.
  destruct (negb _); [injection Hrun as <- <-; auto|].
  destruct (label_resource_container event) as [rc|]; [|injection Hrun as <- <-; auto].
  destruct (payload_name event) as [secret_name|]; [|injection Hrun as <- <-; auto].
  destruct (if str_contains _ _ then _ else _) as [project|];
    [|injection Hrun as <- <-; auto].
  destruct (negb _); [injection Hrun as <- <-; auto|].
  unfold mbind, handler_bind, call at 1 in Hrun.
  destruct (get_secret h secret_name) as [secret|e] eqn:Hget; cycle 1.
  { injection Hrun as <- <-. left. apply elem_of_app in Hin as [?|Hin]; [done|].
    by apply list_elem_of_singleton in Hin. }
  destruct (labels secret !! "ccoe_service_account_name") as [account|];
    [|no_update Hrun Hin].
  destruct (labels secret !! "ccoe_expiration_extension_time") as [label|] eqn:Hlabel;
    [|no_update Hrun Hin].
  destruct (negb _ || negb _); [no_update Hrun Hin|].
  destruct (parse_time_duration label) as [d|e] eqn:Hparse; cycle 1.
  { destruct e; no_update Hrun Hin. }
  unfold call at 1 in Hrun.
  destruct (create_service_account_key _ _) as [key|e]; [|no_update Hrun Hin].
  unfold call at 1 in Hrun.
  destruct (add_secret_version _ _ _) as [version|e]; [|no_update Hrun Hin].
  destruct (expire_time secret) as [t|] eqn:Ht; [|no_update Hrun Hin].
  unfold raising at 1 in Hrun.
  destruct (timedelta_days d) as [delta|e] eqn:Hdelta; [|no_update Hrun Hin].
  unfold raising at 1 in Hrun.
  destruct (datetime_add t delta) as [new|e] eqn:Hnew; [|no_update Hrun Hin].
  apply datetime_add_ok in Hnew as ->.
  unfold call at 1 in Hrun.
  assert (Hh' : h' = ((((h ++ [GetSecret secret_name])
                  ++ [CreateServiceAccountKey
                        ("projects/" ++ project ++ "/serviceAccounts/"
                           ++ account ++ "@" ++ project ++ ".iam.gserviceaccount.com")])
                  ++ [AddSecretVersion secret_name (b64encode key)])
                  ++ [UpdateSecret secret_name (strftime (t + delta))])%list).
  { destruct (update_secret _ _ _); by injection Hrun as _ <-. }
  clear Hrun. subst h'.
  apply elem_of_app in Hin as [Hin|Hin].
  - left. repeat (apply elem_of_app in Hin as [Hin|Hin];
                  [|apply list_elem_of_singleton in Hin; discriminate]).
    exact Hin.
  - right. apply list_elem_of_singleton in Hin. injection Hin as -> ->.
    exists secret, label, d, delta, t. done.
Qed.

Lemma handle_body_renews event h name project secret account label d key version
    delta t :
  describes event name project ->
  get_secret h name = Ok secret ->
  labels secret !! "ccoe_service_account_name" = Some account ->
  account <> "" ->
  labels secret !! "ccoe_expiration_extension_time" = Some label ->
  parse_time_duration label = Ok d ->
  create_service_account_key (h ++ [GetSecret name])
    (service_account_resource project account) = Ok key ->
  add_secret_version
    (h ++ [GetSecret name;
           CreateServiceAccountKey (service_account_resource project account)])
    name (b64encode key) = Ok version ->
  expire_time secret = Some t ->
  timedelta_days d = Ok delta ->
  (0 <= t + delta <= datetime_max)%Z ->
  update_secret
    (h ++ [GetSecret name;
           CreateServiceAccountKey (service_account_resource project account);
           AddSecretVersion name (b64encode key)])
    name (strftime (t + delta)) = Ok tt ->
  handle_secret_expiration event h
  = ("OK",
     (h ++ [GetSecret name;
            CreateServiceAccountKey (service_account_resource project account);
            AddSecretVersion name (b64encode key);
            UpdateSecret name (strftime (t + delta))])%list).
Proof.
  intros (Hty & Hname & Hne & Hsid & (rc & Hrc & Hnum) & (ln & Hln & Hlogs & Hsplit) & Hproj)
         Hget Hacc Hacc_ne Hlabel Hparse Hkey Hadd Ht Hdelta Hrange Hupd.
  assert (Hlabel_ne : label <> "").
  { intros ->. unfold parse_time_duration in Hparse. simpl in Hparse. discriminate. }
  unfold handle_secret_expiration, handle_body.
  rewrite Hty, bool_decide_eq_true_2 by done. cbn [negb].
  rewrite Hrc, Hname, Hln. cbv zeta. cbn [from_option]. unfold id. rewrite Hlogs, Hsplit, Hsid.
  rewrite !(proj2 (truthy_some _)) by done. cbn [negb andb].
  unfold mbind, handler_bind, call at 1. rewrite Hget, Hacc, Hlabel.
  rewrite !(proj2 (truthy_some _)) by done. cbn [negb orb]. rewrite Hparse.
  unfold call at 1. fold (service_account_resource project account). rewrite Hkey.
  unfold call at 1. rewrite <- app_assoc. cbn [app]. rewrite Hadd, Ht.
  unfold raising at 1. rewrite Hdelta. unfold raising at 1, datetime_add.
  rewrite (proj2 (andb_true_iff _ _)) by (split; apply Z.leb_le; lia).
  unfold call at 1. rewrite <- !app_assoc. cbn [app]. rewrite Hupd. done.
Qed.
End Handler.

(** ** Durations and the new expiration *)

Lemma lower_char_newline c : lower_char c = newline -> c = newline.
Proof.
  destruct c as [[] [] [] [] [] [] [] []]; vm_compute; intros H; try discriminate H;
    reflexivity.
Qed.

Lemma chars_py_lower s : chars (py_lower s) = map lower_char (chars s).
Proof. unfold py_lower, text, chars. apply list_ascii_of_string_of_list_ascii. Qed.

Lemma last_lower_newline s :
  last (chars (py_lower s)) = Some newline -> last (chars s) = Some newline.
Proof.
  rewrite chars_py_lower. generalize (chars s). intros l.
  induction l as [|c [|c' l] IH]; simpl; [done| |exact IH].
  intros [= Hc]. by apply lower_char_newline in Hc as ->.
Qed.

(** C9, as stated, fails: the unit of [2D] is not one of [d], [h], [m],
    and the string is parsed, as two days. *)
Lemma C9_counterexample :
  (forall F : FloatModule, parse_time_duration "2D" = Ok (float_of_str "2"))
  /\ ~ duration_form (chars "2D").
Proof.
  split; [intros F; vm_compute; reflexivity|].
  intros (n & u & Hs & _ & Hu).
  assert (u = "D"%char) as ->.
  { destruct n as [|a [|b [|c n]]]; simplify_eq/=; done. }
  destruct Hu as [Hu | [Hu | Hu]]; discriminate Hu.
Qed.

(** C9, amended: [parse_time_duration] lower-cases the string first.  A
    string that does not end in a newline is parsed exactly when its
    lower-cased form is a number followed by one of the units [d], [h],
    [m]; the value is the number as days, divided by 24.0 for hours and
    by 24.0 * 60.0 for minutes.  Every expiration the handler sets is the
    current expiration of the secret plus the parsed duration, and when
    all the calls succeed the handler sets it and returns OK. *)
Theorem C9_duration_and_expiration {F : FloatModule} {D : DatetimeModule}
    {C : CloudModule} :
  (forall s, last (chars s) <> Some newline ->
     (exists v, parse_time_duration s = Ok v) <-> duration_form (chars (py_lower s)))
  /\ (forall s v, parse_time_duration s = Ok v ->
        exists n u rest,
          chars (py_lower s) = (n ++ [u] ++ rest)%list /\ is_number n /\ is_unit u
          /\ (rest = [] \/ rest = [newline]) /\ v = duration_days n u)
  /\ (forall event h name expire,
        UpdateSecret name expire ∈ snd (handle_secret_expiration event h) ->
        UpdateSecret name expire ∈ h
        \/ exists secret label d delta t,
             payload_name event = Some name
             /\ get_secret h name = Ok secret
             /\ labels secret !! "ccoe_expiration_extension_time" = Some label
             /\ parse_time_duration label = Ok d
             /\ timedelta_days d = Ok delta
             /\ expire_time secret = Some t
             /\ expire = strftime (t + delta))
  /\ (forall event h name project secret account label d key version delta t,
        describes event name project ->
        get_secret h name = Ok secret ->
        labels secret !! "ccoe_service_account_name" = Some account ->
        account <> "" ->
        labels secret !! "ccoe_expiration_extension_time" = Some label ->
        parse_time_duration label = Ok d ->
        create_service_account_key (h ++ [GetSecret name])
          (service_account_resource project account) = Ok key ->
        add_secret_version
          (h ++ [GetSecret name;
                 CreateServiceAccountKey (service_account_resource project account)])
          name (b64encode key) = Ok version ->
        expire_time secret = Some t ->
        timedelta_days d = Ok delta ->
        (0 <= t + delta <= datetime_max)%Z ->
        update_secret
          (h ++ [GetSecret name;
                 CreateServiceAccountKey (service_account_resource project account);
                 AddSecretVersion name (b64encode key)])
          name (strftime (t + delta)) = Ok tt ->
        handle_secret_expiration event h
        = ("OK",
           (h ++ [GetSecret name;
                  CreateServiceAccountKey (service_account_resource project account);
                  AddSecretVersion name (b64encode key);
                  UpdateSecret name (strftime (t + delta))])%list)).
Proof.
  split; [|split; [|split]].
  - intros s Hlast. split.
    + intros [v Hv].
      apply parse_time_duration_ok in Hv as (n & u & rest & Hs & Hn & Hu & [-> | ->] & _).
      * exists n, u. by rewrite Hs.
      * exfalso. apply Hlast, last_lower_newline. rewrite Hs.
        by rewrite (app_assoc n [u] [newline]), last_snoc.
    + intros (n & u & Hs & Hn & Hu).
      apply (parse_time_duration_accepts s n u []); auto.
  - apply @parse_time_duration_ok.
  - intros event h name expire Hin. unfold handle_secret_expiration in Hin.
    destruct (handle_body event h) as [r h'] eqn:Hrun.
    apply (handle_body_update event h r h' name expire Hrun).
    by destruct r.
  - apply @handle_body_renews.
Qed.

Lemma C9_duration_and_expiration_witness :
  ((exists v, parse_time_duration (F:=fractions) "30d" = Ok v)
   <-> duration_form (chars (py_lower "30d")))
  /\ handle_secret_expiration (F:=fractions) (D:=example_datetime) (C:=example_cloud)
       example_event []
     = ("OK",
        [ GetSecret "projects/401870235293/secrets/sa-key-srva-rad-01-dsgcl2919-ody-brow";
          CreateServiceAccountKey
            (service_account_resource "lab-xcs-client2" "srva-rad-01");
          AddSecretVersion
            "projects/401870235293/secrets/sa-key-srva-rad-01-dsgcl2919-ody-brow"
            (b64encode "private key");
          UpdateSecret
            "projects/401870235293/secrets/sa-key-srva-rad-01-dsgcl2919-ody-brow"
            "2025-09-24T11:59:14.000000Z" ]).
Proof.
  pose proof (C9_duration_and_expiration (F:=fractions) (D:=example_datetime)
                (C:=example_cloud)) as (Hparse & _ & _ & Hrun).
  split.
  - apply (Hparse "30d"). vm_compute. discriminate.
  - refine (Hrun example_event []
              "projects/401870235293/secrets/sa-key-srva-rad-01-dsgcl2919-ody-brow"
              "lab-xcs-client2" example_secret "srva-rad-01" "30d" (30, 1)%Z
              "private key" "versions/2" 2592000000000%Z 63891719954000000%Z
              _ eq_refl eq_refl _ eq_refl _ eq_refl eq_refl eq_refl eq_refl _ eq_refl).
    + unfold describes. repeat split; try discriminate; try reflexivity.
      * eexists. split; [reflexivity|]. vm_compute. discriminate.
      * eexists. split; [reflexivity|]. split; vm_compute; reflexivity.
    + discriminate.
    + vm_compute. reflexivity.
    + vm_compute. split; discriminate.
Defined.

(** * Further properties *)

(** ** Patterns anchored at the start

    A pattern of a field is searched for, not matched; one that begins
    with [^] is found at the start of the text or nowhere. *)

Lemma search_from_anchored d r t : Re.search_from d (Re.Seq Re.Bol r) false t = None.
Proof. induction t as [|c t IH]; simpl; [done | exact IH]. Qed.

Lemma search_anchored d r s :
  Re.search d (Re.Seq Re.Bol r) s = Re.match_at_start d (Re.Seq Re.Bol r) s.
Proof.
  unfold Re.search, Re.match_at_start. destruct s as [|c t]; cbn [Re.search_from].
  - by destruct (Re.run _ _ _ _ _).
  - rewrite search_from_anchored. by destruct (Re.run _ _ _ _ _).
Qed.

Lemma pattern_ok_anchored p r s :
  Re.compile p = Re.Parsed (Re.Seq Re.Bol r) ->
  pattern_ok p s = true
  <-> exists st' caps', Re.Matches Re.Rust (Re.Seq Re.Bol r) (true, chars s) [] st' caps'.
Proof.
  intros Hp. unfold pattern_ok. rewrite Hp, bool_decide_eq_true, search_anchored.
  unfold Re.match_at_start. split.
  - intros [res Hres]. apply run_sound in Hres as (st' & caps' & Hm & _). eauto.
  - intros (st' & caps' & Hm). by apply (run_complete _ _ _ _ _ _ Hm Re.accept).
Qed.

Lemma at_end_rust l : Re.at_end Re.Rust l = true <-> l = [].
Proof. destruct l as [|x [|y l]]; simpl; split; congruence. Qed.

Lemma matches_star_chars_inv d g cs st caps st' caps' :
  Re.Matches d (Re.Star g (Re.Chars cs)) st caps st' caps' ->
  exists l, Forall (fun c => Re.cs_mem cs c = true) l
            /\ Re.remaining st = (l ++ Re.remaining st')%list /\ caps' = caps.
Proof.
  remember (Re.Star g (Re.Chars cs)) as r eqn:Hr. induction 1; try discriminate.
  - exists []. by repeat split; [constructor|..].
  - injection Hr as -> ->. destruct (IHMatches2 eq_refl) as (l & Hl & Hrem & ->).
    apply matches_chars_inv in H as (c & t & Hst & Hc & -> & ->).
    exists (c :: l). simpl in *.
    split; [by constructor|]. split; [by rewrite Hst, Hrem | done].
Qed.

Lemma matches_star_chars d g cs b l rest caps :
  Forall (fun c => Re.cs_mem cs c = true) l ->
  exists b', Re.Matches d (Re.Star g (Re.Chars cs)) (b, (l ++ rest)%list) caps (b', rest) caps.
Proof.
  intros Hl. revert b. induction Hl as [|c l Hc _ IH]; intros b.
  - exists b. constructor.
  - destruct (IH false) as [b' Hb']. exists b'.
    eapply Re.MStarMore with (st1 := (false, (l ++ rest)%list)); [| |exact Hb'].
    + by constructor.
    + simpl. lia.
Qed.

Lemma id_match_inv s st' caps' :
  Re.Matches Re.Rust id_re (true, s) [] st' caps' -> length s = 3 /\ digits s.
Proof.
  unfold id_re. intros H.
  apply matches_seq_inv in H as (st0 & c0 & Hbol & H).
  apply matches_bol_inv in Hbol as (_ & -> & ->).
  apply matches_seq_inv in H as (st1 & c1 & H & Heol).
  apply matches_eol_inv in Heol as (Hend & -> & ->). apply at_end_rust in Hend.
  apply matches_seq_inv in H as (sa & ca & Ha & H).
  apply matches_chars_inv in Ha as (a & ta & Hsa & Hma & -> & ->).
  apply matches_seq_inv in H as (sb & cb & Hb & Hc).
  apply matches_chars_inv in Hb as (b & tb & Hsb & Hmb & -> & ->).
  apply matches_chars_inv in Hc as (c & tc & Hsc & Hmc & -> & ->).
  rewrite digit_set_mem in Hma, Hmb, Hmc.
  unfold Re.remaining in *. simpl in *. subst.
  split; [done|]. by repeat constructor.
Qed.

Lemma id_match_build s :
  length s = 3 -> digits s ->
  exists st' caps', Re.Matches Re.Rust id_re (true, s) [] st' caps'.
Proof.
  intros Hlen Hd. destruct s as [|a [|b [|c [|x s]]]]; try discriminate.
  inversion Hd as [|? ? Ha Hd1]; subst. inversion Hd1 as [|? ? Hb Hd2]; subst.
  inversion Hd2 as [|? ? Hc _]; subst.
  eexists _, _. unfold id_re.
  eapply Re.MSeq; [constructor|].
  eapply Re.MSeq.
  - eapply Re.MSeq; [constructor; by rewrite digit_set_mem|].
    eapply Re.MSeq; constructor; by rewrite digit_set_mem.
  - by constructor.
Qed.

Lemma id_pattern_ok s : pattern_ok id_pattern s = true <-> three_digits s.
Proof.
  rewrite (pattern_ok_anchored id_pattern _ s) by (vm_compute; reflexivity).
  split.
  - intros (st' & caps' & H). by apply id_match_inv in H.
  - intros [Hlen Hd]. by apply id_match_build.
Qed.

Lemma matches_plus_digits_inv d st caps st' caps' :
  Re.Matches d (Re.Seq digit_set (Re.Star true digit_set)) st caps st' caps' ->
  exists l, digits l /\ l <> [] /\ Re.remaining st = (l ++ Re.remaining st')%list
            /\ caps' = caps.
Proof.
  intros H. apply matches_seq_inv in H as (st1 & c1 & Hc & Hs).
  apply matches_chars_inv in Hc as (c & t & Hst & Hm & -> & ->).
  apply matches_digits_inv in Hs as (l & Hl & Hrem & ->).
  rewrite digit_set_mem in Hm. exists (c :: l). simpl in *.
  split; [by constructor|]. split; [done|]. split; [by rewrite Hst, Hrem | done].
Qed.

Lemma matches_plus_digits d b l rest caps :
  digits l -> l <> [] ->
  exists b', Re.Matches d (Re.Seq digit_set (Re.Star true digit_set))
               (b, (l ++ rest)%list) caps (b', rest) caps.
Proof.
  intros Hl Hne. destruct l as [|c l]; [done|]. inversion Hl as [|? ? Hc Hl']; subst.
  destruct (matches_digits d true false l rest caps Hl') as [b' Hb'].
  exists b'. eapply Re.MSeq; [|exact Hb']. simpl. constructor. by rewrite digit_set_mem.
Qed.

Lemma version_match_inv s st' caps' :
  Re.Matches Re.Rust version_re (true, s) [] st' caps' ->
  exists major minor patch,
    s = (major ++ "."%char :: minor ++ "."%char :: patch)%list
    /\ digits major /\ major <> [] /\ digits minor /\ minor <> []
    /\ digits patch /\ patch <> [].
Proof.
  unfold version_re. intros H.
  apply matches_seq_inv in H as (st0 & c0 & Hbol & H).
  apply matches_bol_inv in Hbol as (_ & -> & ->).
  apply matches_seq_inv in H as (s1 & c1 & H1 & H).
  apply matches_plus_digits_inv in H1 as (major & Hd1 & Hn1 & Hr1 & ->).
  apply matches_seq_inv in H as (s2 & c2 & Hp1 & H).
  apply matches_chars_inv in Hp1 as (p1 & t1 & Hs1 & Hm1 & -> & ->).
  apply matches_seq_inv in H as (s3 & c3 & H2 & H).
  apply matches_plus_digits_inv in H2 as (minor & Hd2 & Hn2 & Hr2 & ->).
  apply matches_seq_inv in H as (s4 & c4 & Hp2 & H).
  apply matches_chars_inv in Hp2 as (p2 & t2 & Hs3 & Hm2 & -> & ->).
  apply matches_seq_inv in H as (s5 & c5 & H3 & Heol).
  apply matches_plus_digits_inv in H3 as (patch & Hd3 & Hn3 & Hr3 & ->).
  apply matches_eol_inv in Heol as (Hend & -> & ->). apply at_end_rust in Hend.
  unfold Re.cs_mem, ascii_eqb in Hm1, Hm2.
  apply Ascii.eqb_eq in Hm1 as <-. apply Ascii.eqb_eq in Hm2 as <-.
  unfold Re.remaining in *. simpl in *.
  exists major, minor, patch. rewrite Hr1, Hs1, Hr2, Hs3, Hr3, Hend, app_nil_r. done.
Qed.

Lemma version_match_build major minor patch :
  digits major -> major <> [] -> digits minor -> minor <> [] ->
  digits patch -> patch <> [] ->
  exists st' caps',
    Re.Matches Re.Rust version_re
      (true, (major ++ "."%char :: minor ++ "."%char :: patch)%list) [] st' caps'.
Proof.
  intros Hd1 Hn1 Hd2 Hn2 Hd3 Hn3.
  destruct (matches_plus_digits Re.Rust true major ("."%char :: minor ++ "."%char :: patch)
              [] Hd1 Hn1) as [b1 H1].
  destruct (matches_plus_digits Re.Rust false minor ("."%char :: patch) [] Hd2 Hn2)
    as [b2 H2].
  destruct (matches_plus_digits Re.Rust false patch [] [] Hd3 Hn3) as [b3 H3].
  rewrite app_nil_r in H3.
  eexists _, _. unfold version_re.
  eapply Re.MSeq; [constructor|].
  eapply Re.MSeq; [exact H1|].
  eapply Re.MSeq; [constructor; apply Ascii.eqb_refl|].
  eapply Re.MSeq; [exact H2|].
  eapply Re.MSeq; [constructor; apply Ascii.eqb_refl|].
  eapply Re.MSeq; [exact H3|]. by constructor.
Qed.

Lemma version_pattern_ok s : pattern_ok version_pattern s = true <-> version_form s.
Proof.
  rewrite (pattern_ok_anchored version_pattern _ s) by (vm_compute; reflexivity).
  split.
  - intros (st' & caps' & H). by apply version_match_inv in H.
  - intros (major & minor & patch & -> & H). destruct H as (? & ? & ? & ? & ? & ?).
    by apply version_match_build.
Qed.

Lemma lower_set_mem c : Re.cs_mem (Re.CSet false [Re.IRange "a" "z"]) c = is_lower c.
Proof. simpl. by rewrite orb_false_r. Qed.

Lemma lower_or_digit_set_mem c :
  Re.cs_mem (Re.CSet false [Re.IRange "a" "z"; Re.IRange "0" "9"]) c = lower_or_digit c.
Proof. simpl. by rewrite orb_false_r. Qed.

Lemma suffix_set_mem c :
  Re.cs_mem (Re.CSet false [Re.IChar "-"; Re.IRange "a" "z"; Re.IRange "0" "9"]) c
  = suffix_char c.
Proof.
  unfold suffix_char, lower_or_digit, is_lower, is_digit, ascii_eqb. simpl.
  by rewrite orb_false_r.
Qed.

Lemma lower_or_digit_suffix c : lower_or_digit c = true -> suffix_char c = true.
Proof. unfold suffix_char. intros ->. apply orb_true_r. Qed.

Lemma name_suffix_match_inv s st' caps' :
  Re.Matches Re.Rust name_suffix_re (true, s) [] st' caps' -> suffix_pattern_form s.
Proof.
  unfold name_suffix_re. intros H.
  apply matches_seq_inv in H as (st0 & c0 & Hbol & H).
  apply matches_bol_inv in Hbol as (_ & -> & ->).
  apply matches_seq_inv in H as (s1 & c1 & H1 & H).
  apply matches_chars_inv in H1 as (c & t & Hs & Hc & -> & ->).
  apply matches_seq_inv in H as (s2 & c2 & Halt & Heol).
  apply matches_eol_inv in Heol as (Hend & -> & ->). apply at_end_rust in Hend.
  rewrite lower_set_mem in Hc. unfold Re.remaining in *. simpl in *. subst s.
  exists c, t. split; [done|]. split; [done|].
  apply matches_alt_inv in Halt as [Hm | He].
  - apply matches_seq_inv in Hm as (s3 & c3 & Hstar & Hl).
    apply matches_star_chars_inv in Hstar as (mid & Hmid & Hrem & ->).
    apply matches_chars_inv in Hl as (l & tl & Hs3 & Hlm & -> & ->).
    rewrite lower_or_digit_set_mem in Hlm. simpl in *. subst tl.
    unfold Re.remaining in *. simpl in *. rewrite Hs3 in Hrem. subst t.
    split.
    + apply Forall_app. split.
      * eapply Forall_impl; [exact Hmid|]. intros x Hx. rewrite <- (suffix_set_mem x). exact Hx.
      * constructor; [by apply lower_or_digit_suffix | constructor].
    + intros x. rewrite last_snoc. by intros [= <-].
  - apply matches_eps_inv in He as [-> _]. simpl in Hend. subst t.
    split; [constructor | discriminate].
Qed.

Lemma name_suffix_match_build s :
  suffix_pattern_form s ->
  exists st' caps', Re.Matches Re.Rust name_suffix_re (true, s) [] st' caps'.
Proof.
  intros (c & rest & -> & Hc & Hrest & Hlast). unfold name_suffix_re.
  destruct (decide (rest = [])) as [-> | Hne].
  - eexists _, _. eapply Re.MSeq; [constructor|].
    eapply Re.MSeq; [constructor; by rewrite lower_set_mem|].
    eapply Re.MSeq; [apply Re.MAltR; constructor|]. by constructor.
  - destruct (exists_last Hne) as (mid & l & ->).
    apply Forall_app in Hrest as [Hmid _].
    specialize (Hlast l (last_snoc _ _)).
    destruct (matches_star_chars Re.Rust true
                (Re.CSet false [Re.IChar "-"; Re.IRange "a" "z"; Re.IRange "0" "9"])
                false mid [l] []) as [b' Hstar].
    { eapply Forall_impl; [exact Hmid|]. intros x Hx. rewrite (suffix_set_mem x). exact Hx. }
    eexists _, _. eapply Re.MSeq; [constructor|].
    eapply Re.MSeq; [constructor; by rewrite lower_set_mem|].
    eapply Re.MSeq.
    + apply Re.MAltL. eapply Re.MSeq; [exact Hstar|].
      constructor. by rewrite lower_or_digit_set_mem.
    + by constructor.
Qed.

Lemma name_suffix_pattern_ok s :
  pattern_ok name_suffix_pattern s = true <-> suffix_pattern_form (chars s).
Proof.
  rewrite (pattern_ok_anchored name_suffix_pattern _ s) by (vm_compute; reflexivity).
  split.
  - intros (st' & caps' & H). by apply name_suffix_match_inv in H.
  - apply name_suffix_match_build.
Qed.

(** ** What validation guarantees *)

Lemma validate_str_inr mn mx pat v s :
  validate_str mn mx pat v = inr s ->
  v = PyStr s
  /\ (forall n, mn = Some n -> n <= String.length s)
  /\ (forall n, mx = Some n -> String.length s <= n)
  /\ (forall p, pat = Some p -> pattern_ok p s = true).
Proof.
  destruct v; try discriminate. cbn [validate_str].
  destruct (from_option _ false mn) eqn:Hmn; [discriminate|].
  destruct (from_option _ false mx) eqn:Hmx; [discriminate|].
  destruct (from_option _ true pat) eqn:Hpat; [|discriminate].
  cbn [negb]. intros [= <-]. split; [done|]. split; [|split].
  - intros n ->. simpl in Hmn. by apply Nat.ltb_ge in Hmn.
  - intros n ->. simpl in Hmx. by apply Nat.ltb_ge in Hmx.
  - by intros p ->.
Qed.

Lemma validate_str_ok mn mx pat s :
  (forall n, mn = Some n -> n <= String.length s) ->
  (forall n, mx = Some n -> String.length s <= n) ->
  (forall p, pat = Some p -> pattern_ok p s = true) ->
  validate_str mn mx pat (PyStr s) = inr s.
Proof.
  intros Hmn Hmx Hpat. cbn [validate_str].
  assert (from_option (fun n => String.length s <? n)%nat false mn = false) as ->.
  { destruct mn as [n|]; [|done]. simpl. apply Nat.ltb_ge. by apply Hmn. }
  assert (from_option (fun n => n <? String.length s)%nat false mx = false) as ->.
  { destruct mx as [n|]; [|done]. simpl. apply Nat.ltb_ge. by apply Hmx. }
  assert (from_option (fun p => pattern_ok p s) true pat = true) as ->.
  { destruct pat as [p|]; [|done]. simpl. by apply Hpat. }
  done.
Qed.

Lemma length_chars s : length (chars s) = String.length s.
Proof. induction s as [|c s IH]; [done|]. simpl. by rewrite <- IH. Qed.

Lemma length_pos_nonempty s : 1 <= String.length s -> s <> "".
Proof. intros Hlen ->. simpl in Hlen. lia. Qed.

Lemma account_validated v sa :
  ServiceAccount.model_validate v = inr sa -> account_form sa.
Proof.
  destruct v; try discriminate.
  cbv beta iota delta [ServiceAccount.model_validate]. intros H.
  apply ap_inr in H as (g4 & de & H & Hde & ->).
  apply ap_inr in H as (g3 & key & H & _ & ->).
  apply ap_inr in H as (g2 & roles & H & Hroles & ->).
  apply ap_inr in H as (g1 & name & H & Hname & ->). injection H as <-.
  apply required_inr in Hname as (x & _ & Hname).
  apply validate_str_inr in Hname as (_ & _ & Hmax & Hpat).
  apply required_inr in Hroles as (y & _ & Hroles).
  apply validate_list_inr in Hroles as (l & _ & _ & Hlen).
  split; [|split]; cbn.
  - split; [by apply Hmax|]. by apply name_suffix_pattern_ok, Hpat.
  - intros Heq. rewrite Heq in Hlen. simpl in Hlen. lia.
  - unfold with_default in Hde. destruct (dict_get "description" items) as [z|].
    + apply at_loc_inr, validate_str_inr in Hde as (_ & _ & Hmax' & _). by apply Hmax'.
    + injection Hde as <-. simpl. lia.
Qed.

Lemma rule_validated v e : Exception.model_validate v = inr e -> rule_form e.
Proof.
  intros Hv. pose proof (exception_validated v e Hv) as (d & -> & _ & Hty).
  cbv beta iota delta [Exception.model_validate] in Hv.
  apply ap_inr in Hv as (g5 & sp & Hv & Hsp & ->).
  apply ap_inr in Hv as (g4 & de & Hv & Hde & ->).
  apply ap_inr in Hv as (g3 & rx & Hv & Hrx & ->).
  apply ap_inr in Hv as (g2 & ty & Hv & _ & ->).
  apply ap_inr in Hv as (g1 & i & Hv & Hid & ->). injection Hv as <-.
  cbn in Hty. subst ty.
  apply required_inr in Hid as (x & _ & Hid).
  apply validate_str_inr in Hid as (_ & _ & _ & Hpat).
  apply required_inr in Hrx as (y & _ & Hrx).
  apply validate_str_inr in Hrx as (_ & Hrx & _ & _).
  apply required_inr in Hde as (z & _ & Hde).
  apply validate_str_inr in Hde as (_ & Hde & _ & _).
  apply required_inr in Hsp as (u & _ & Hsp).
  destruct u; try discriminate.
  cbv beta iota delta [ServiceAccountSpec.model_validate] in Hsp.
  apply ap_inr in Hsp as (h1 & accounts & Hsp & Hacc & ->). injection Hsp as <-.
  apply required_inr in Hacc as (a & _ & Hacc).
  apply validate_list_inr in Hacc as (l & _ & Hall & Hlen).
  split; [|split; [|split; [|split; [|split]]]]; cbn.
  - apply id_pattern_ok. by apply Hpat.
  - done.
  - apply length_pos_nonempty. by apply Hrx.
  - apply length_pos_nonempty. by apply Hde.
  - intros Heq. rewrite Heq in Hlen. simpl in Hlen. lia.
  - clear Hlen. induction Hall as [|x' sa l' sas Hx _ IH]; constructor; [|done].
    by eapply account_validated.
Qed.

Lemma rules_validated (schema_data : value) (doc : ExceptionsSchema.t) :
  ExceptionsSchema.model_validate schema_data = inr doc ->
  Forall rule_form (ExceptionsSchema.exceptions doc).
Proof.
  intros (d & l & _ & _ & Hall)%schema_validated.
  induction Hall as [|x e l' es Hx _ IH]; constructor; [|done].
  by eapply rule_validated.
Qed.

Lemma lab_validated : ExceptionsSchema.model_validate lab_document = inr lab_schema.
Proof. vm_compute. reflexivity. Qed.

Lemma lab_compiles : patterns_compile (R:=fragment) lab_schema.
Proof. repeat constructor. eexists. vm_compute. reflexivity. Qed.

(** X1: a validated document has the form the fields declare.  Its
    version is three runs of digits with points between them; every rule
    has an id of exactly three digits, the type [create_service_accounts],
    a pattern and a description that are not empty, and at least one
    service account; every service account has a name suffix of one to
    four characters (a lower-case letter, then lower-case letters, digits
    and hyphens, the last no hyphen), at least one role, and a description
    of at most 256 characters. *)
Theorem validated_document_form (schema_data : value) (doc : ExceptionsSchema.t) :
  ExceptionsSchema.model_validate schema_data = inr doc -> document_form doc.
Proof.
  intros Hv. split; [|by eapply rules_validated].
  destruct schema_data; try discriminate.
  cbv beta iota delta [ExceptionsSchema.model_validate] in Hv.
  apply ap_inr in Hv as (g2 & es & Hv & _ & ->).
  apply ap_inr in Hv as (g1 & ver & Hv & Hver & ->). injection Hv as <-.
  apply required_inr in Hver as (x & _ & Hver).
  apply validate_str_inr in Hver as (_ & _ & _ & Hpat).
  cbn. by apply version_pattern_ok, Hpat.
Qed.

Lemma validated_document_form_witness :
  ExceptionsSchema.model_validate lab_document = inr lab_schema
  /\ document_form lab_schema.
Proof.
  assert (Hv : ExceptionsSchema.model_validate lab_document = inr lab_schema)
    by (vm_compute; reflexivity).
  split; [exact Hv|]. exact (validated_document_form lab_document lab_schema Hv).
Defined.

Lemma validate_items_strings i (l : list string) :
  validate_items (validate_str None None None) i (map PyStr l) = inr l.
Proof.
  revert i. induction l as [|s l IH]; intros i; [done|].
  cbn [map validate_items]. rewrite IH. done.
Qed.

Lemma account_dump_validates (sa : ServiceAccount.t) :
  account_form sa ->
  ServiceAccount.model_validate (ServiceAccount.model_dump sa) = inr sa.
Proof.
  destruct sa as [name roles key de]. intros ((Hlen & Hpat) & Hroles & Hde).
  cbn in Hlen, Hpat, Hroles, Hde.
  unfold ServiceAccount.model_dump, ServiceAccount.model_validate, required, with_default.
  cbn [dict_get String.eqb Ascii.eqb Bool.eqb ServiceAccount.name_suffix
       ServiceAccount.iam_roles ServiceAccount.create_json_key ServiceAccount.description].
  rewrite (validate_str_ok (Some 1) (Some 4) (Some "^[a-z](?:[-a-z0-9]*[a-z0-9])?$") name).
  - rewrite (validate_str_ok None (Some 256) None de);
      [|discriminate | by intros n [= <-] | discriminate].
    cbn [validate_list validate_bool at_loc]. rewrite validate_items_strings.
    destruct roles as [|r roles]; [done|]. done.
  - intros n [= <-]. rewrite <- length_chars.
    destruct Hpat as (c & rest & Hs & _). unfold chars. rewrite Hs. simpl. lia.
  - by intros n [= <-].
  - intros p [= <-]. by apply name_suffix_pattern_ok.
Qed.

(** X2: the service accounts of that form are exactly those that
    [model_validate] gives back from their own [model_dump]: dumping and
    validating again is the identity on them, and nothing else passes. *)
Theorem account_round_trip (sa : ServiceAccount.t) :
  account_form sa
  <-> ServiceAccount.model_validate (ServiceAccount.model_dump sa) = inr sa.
Proof.
  split.
  - apply account_dump_validates.
  - apply account_validated.
Qed.

Lemma account_round_trip_witness :
  account_form api_account
  /\ ~ account_form (ServiceAccount.mk "api-" ["roles/viewer"] true "").
Proof.
  split.
  - apply (proj2 (account_round_trip api_account)). vm_compute. reflexivity.
  - intros Hform.
    apply (proj1 (account_round_trip (ServiceAccount.mk "api-" ["roles/viewer"] true "")))
      in Hform.
    vm_compute in Hform. discriminate Hform.
Defined.

Lemma required_missing {A : Type} d k (f : value -> validation A) :
  dict_get k d = None -> required d k f = inl [missing k].
Proof. unfold required. by intros ->. Qed.

Ltac missing_key Hk :=
  rewrite (required_missing _ _ _ Hk);
  repeat match goal with
         | |- context [required ?d ?k ?f] => destruct (required d k f)
         | |- context [with_default ?d ?k ?x ?f] => destruct (with_default d k x f)
         end;
  simpl; eexists; (split; [reflexivity|]);
  rewrite ?elem_of_app, ?elem_of_cons; tauto.

(** X3: a document, a rule, a specification or a service account that
    lacks a required key is rejected, and the errors name the key as
    missing.  Only the description of a service account may be absent; it
    is then the empty string. *)
Theorem required_keys :
  (forall d k, k ∈ ["version"; "exceptions"] -> dict_get k d = None ->
     exists errors, ExceptionsSchema.model_validate (PyDict d) = inl errors
                    /\ missing k ∈ errors)
  /\ (forall d k, k ∈ ["id"; "type"; "project_id_regex"; "description"; "spec"] ->
        dict_get k d = None ->
        exists errors, Exception.model_validate (PyDict d) = inl errors
                       /\ missing k ∈ errors)
  /\ (forall d, dict_get "service_accounts" d = None ->
        exists errors, ServiceAccountSpec.model_validate (PyDict d) = inl errors
                       /\ missing "service_accounts" ∈ errors)
  /\ (forall d k, k ∈ ["name_suffix"; "iam_roles"; "create_json_key"] ->
        dict_get k d = None ->
        exists errors, ServiceAccount.model_validate (PyDict d) = inl errors
                       /\ missing k ∈ errors)
  /\ (forall d sa, dict_get "description" d = None ->
        ServiceAccount.model_validate (PyDict d) = inr sa ->
        ServiceAccount.description sa = "").
Proof.
  split; [|split; [|split; [|split]]].
  - intros d k Hin Hk. unfold ExceptionsSchema.model_validate.
    repeat (apply elem_of_cons in Hin as [-> | Hin]; [missing_key Hk|]).
    inversion Hin.
  - intros d k Hin Hk. unfold Exception.model_validate.
    repeat (apply elem_of_cons in Hin as [-> | Hin]; [missing_key Hk|]).
    inversion Hin.
  - intros d Hk. unfold ServiceAccountSpec.model_validate. missing_key Hk.
  - intros d k Hin Hk. unfold ServiceAccount.model_validate.
    repeat (apply elem_of_cons in Hin as [-> | Hin]; [missing_key Hk|]).
    inversion Hin.
  - intros d sa Hk. cbv beta iota delta [ServiceAccount.model_validate]. intros H.
    apply ap_inr in H as (g4 & de & H & Hde & ->).
    apply ap_inr in H as (g3 & key & H & _ & ->).
    apply ap_inr in H as (g2 & roles & H & _ & ->).
    apply ap_inr in H as (g1 & name & H & _ & ->). injection H as <-.
    unfold with_default in Hde. rewrite Hk in Hde. by injection Hde as <-.
Qed.

Lemma required_keys_witness :
  (exists errors,
     ExceptionsSchema.model_validate (PyDict [("version", PyStr "1.0.0")]) = inl errors
     /\ missing "exceptions" ∈ errors)
  /\ (exists errors,
        ServiceAccount.model_validate
          (PyDict [("name_suffix", PyStr "api"); ("create_json_key", PyBool true)])
        = inl errors
        /\ missing "iam_roles" ∈ errors)
  /\ ServiceAccount.description api_account = "".
Proof.
  destruct required_keys as (Hdoc & _ & _ & Hacc & Hdesc).
  split; [|split].
  - apply (Hdoc [("version", PyStr "1.0.0")] "exceptions"); [|reflexivity].
    apply list_elem_of_further, list_elem_of_here.
  - apply (Hacc [("name_suffix", PyStr "api"); ("create_json_key", PyBool true)]
             "iam_roles"); [|reflexivity].
    apply list_elem_of_further, list_elem_of_here.
  - apply (Hdesc (fields_of (example_account "api")) api_account); [reflexivity|].
    vm_compute. reflexivity.
Defined.

Lemma validate_items_inl {A : Type} (item : value -> validation A) i l v errors :
  v ∈ l -> item v = inl errors -> exists errors', validate_items item i l = inl errors'.
Proof.
  intros Hin Hv. destruct (validate_items item i l) as [errors'|xs] eqn:Hl; [eauto|].
  apply validate_items_inr in Hl. apply list_elem_of_lookup in Hin as [k Hk].
  destruct (Forall2_lookup_l _ _ _ _ _ Hl Hk) as (x & _ & Hx). congruence.
Qed.

Lemma exception_accounts d e :
  Exception.model_validate (PyDict d) = inr e ->
  exists sd l,
    dict_get "spec" d = Some (PyDict sd)
    /\ dict_get "service_accounts" sd = Some (PyList l)
    /\ Forall2 (fun v sa => ServiceAccount.model_validate v = inr sa) l
         (ServiceAccountSpec.service_accounts (Exception.spec e)).
Proof.
  cbv beta iota delta [Exception.model_validate]. intros Hv.
  apply ap_inr in Hv as (g5 & sp & Hv & Hsp & ->).
  apply ap_inr in Hv as (g4 & de & Hv & _ & ->).
  apply ap_inr in Hv as (g3 & rx & Hv & _ & ->).
  apply ap_inr in Hv as (g2 & ty & Hv & _ & ->).
  apply ap_inr in Hv as (g1 & i & Hv & _ & ->). injection Hv as <-.
  apply required_inr in Hsp as (u & Hu & Hsp).
  destruct u; try discriminate.
  cbv beta iota delta [ServiceAccountSpec.model_validate] in Hsp.
  apply ap_inr in Hsp as (h1 & accounts & Hsp & Hacc & ->). injection Hsp as <-.
  apply required_inr in Hacc as (a & Ha & Hacc).
  apply validate_list_inr in Hacc as (l & -> & Hall & _).
  exists items, l. done.
Qed.

(** X4: validation is all or nothing.  A rule that holds one service
    account that is not valid is not valid; a document that holds one rule
    that is not valid is not valid, whatever the other rules are, and
    [process_exceptions] then raises the error of the validation and logs
    it, and does no more. *)
Theorem invalid_part_rejects_document {R : RegexModule} :
  (forall d sd accounts account errors,
      dict_get "spec" d = Some (PyDict sd) ->
      dict_get "service_accounts" sd = Some (PyList accounts) ->
      account ∈ accounts ->
      ServiceAccount.model_validate account = inl errors ->
      exists errors', Exception.model_validate (PyDict d) = inl errors')
  /\ (forall d rules rule errors project_id output_path w,
        dict_get "exceptions" d = Some (PyList rules) ->
        rule ∈ rules ->
        Exception.model_validate rule = inl errors ->
        exists errors',
          ExceptionsSchema.model_validate (PyDict d) = inl errors'
          /\ process_exceptions (PyDict d) project_id output_path w
             = (Raise (ValueError (InvalidSchema errors')),
                add_log w [LogProcessing project_id; LogValidationFailed errors'])).
Proof.
  split.
  - intros d sd accounts account errors Hspec Haccs Hin Hbad.
    destruct (Exception.model_validate (PyDict d)) as [errors'|e] eqn:Hv; [eauto|].
    apply exception_accounts in Hv as (sd' & l & Hspec' & Haccs' & Hall).
    rewrite Hspec in Hspec'. injection Hspec' as <-.
    rewrite Haccs in Haccs'. injection Haccs' as <-.
    apply list_elem_of_lookup in Hin as [k Hk].
    destruct (Forall2_lookup_l _ _ _ _ _ Hall Hk) as (x & _ & Hx). congruence.
  - intros d rules rule errors project_id output_path w Hget Hin Hbad.
    assert (Hv : exists errors', ExceptionsSchema.model_validate (PyDict d) = inl errors').
    { destruct (ExceptionsSchema.model_validate (PyDict d)) as [errors'|doc] eqn:Hv; [eauto|].
      apply schema_validated in Hv as (d' & l & Hd & Hl & Hall). injection Hd as <-.
      rewrite Hget in Hl. injection Hl as <-.
      apply list_elem_of_lookup in Hin as [k Hk].
      destruct (Forall2_lookup_l _ _ _ _ _ Hall Hk) as (x & _ & Hx). congruence. }
    destruct Hv as [errors' Hv]. exists errors'. split; [done|].
    by apply process_exceptions_invalid.
Qed.

Lemma invalid_part_rejects_document_witness :
  exists errors',
    ExceptionsSchema.model_validate
      (example_document
         [ example_rule "100" "create_service_accounts" "^lab-" [example_account "api"];
           override_rule ]) = inl errors'
    /\ process_exceptions (R:=fragment)
         (example_document
            [ example_rule "100" "create_service_accounts" "^lab-" [example_account "api"];
              override_rule ]) "lab-dev-01" default_output_file empty_world
       = (Raise (ValueError (InvalidSchema errors')),
          add_log empty_world [LogProcessing "lab-dev-01"; LogValidationFailed errors']).
Proof.
  refine (proj2 (invalid_part_rejects_document (R:=fragment))
            (fields_of (example_document
               [ example_rule "100" "create_service_accounts" "^lab-" [example_account "api"];
                 override_rule ]))
            [ example_rule "100" "create_service_accounts" "^lab-" [example_account "api"];
              override_rule ]
            override_rule
            [ {| err_type := "literal_error"; err_loc := [LKey "type"] |} ]
            "lab-dev-01" default_output_file empty_world eq_refl _ _).
  - apply list_elem_of_further, list_elem_of_here.
  - vm_compute. reflexivity.
Defined.

(** X6: [validate_regex] checks what the loop of [process_exceptions]
    needs.  On a validated document, [validate_regex] accepts every rule
    exactly when every pattern compiles, and that is exactly when the loop
    over the rules completes for every project id. *)
Theorem checked_rules_match_safely {R : RegexModule} (schema_data : value)
    (doc : ExceptionsSchema.t) :
  ExceptionsSchema.model_validate schema_data = inr doc ->
  (Forall (fun e => Exception.validate_regex e = Ok e) (ExceptionsSchema.exceptions doc)
   <-> patterns_compile doc)
  /\ (patterns_compile doc <->
      forall project_id w,
        exists l w',
          for_each (ExceptionsSchema.exceptions doc) (visit project_id) no_lists w
          = (Ok l, w')).
Proof.
  intros Hv. split.
  - unfold patterns_compile. apply Forall_iff. intros e. unfold Exception.validate_regex.
    destruct (re_compile (Exception.project_id_regex e)) as [msg|c].
    + split; [discriminate | by intros [c ?]].
    + split; [eauto | done].
  - split.
    + intros Hc project_id w. apply first_error_none in Hc.
      rewrite (loop_run project_id) by (by eapply validated_types). rewrite Hc. eauto.
    + intros Hrun. destruct (Hrun "" empty_world) as (l & w' & Hl).
      rewrite (loop_run "") in Hl by (by eapply validated_types).
      apply first_error_none. by destruct (first_error _).
Qed.

Lemma checked_rules_match_safely_witness :
  (Forall (fun e => Exception.validate_regex (R:=fragment) e = Ok e)
     (ExceptionsSchema.exceptions lab_schema)
   <-> patterns_compile (R:=fragment) lab_schema)
  /\ (patterns_compile (R:=fragment) lab_schema <->
      forall project_id w,
        exists l w',
          for_each (ExceptionsSchema.exceptions lab_schema)
            (visit (R:=fragment) project_id) no_lists w = (Ok l, w')).
Proof.
  exact (checked_rules_match_safely (R:=fragment) lab_document lab_schema lab_validated).
Defined.

(** X7: [validate_schema_file] returns the model exactly when the file
    can be read, its text is JSON and the value is valid.  The script of
    [schema_models.py] then logs the number of rules and, for each rule,
    the number of its service accounts, which is at least one.  When
    [validate_schema_file] raises, the script ends with a [TypeError] and
    has logged nothing: [except Exception] names the model class of a rule
    there, so the failure is never reported as such. *)
Theorem schema_script {J : JsonModule} (w : world) :
  (forall schema,
      validate_schema_file schema_file w = inr schema <->
      exists content data,
        is_dir (fs w) schema_file = false /\ files (fs w) !! schema_file = Some content
        /\ json_loads content = inr data
        /\ ExceptionsSchema.model_validate data = inr schema)
  /\ (forall schema,
        validate_schema_file schema_file w = inr schema ->
        fst (schema_models_main w) = Finished
        /\ exists rules,
             snd (schema_models_main w)
             = LogSchemaValid (length (ExceptionsSchema.exceptions schema)) :: rules
             /\ length rules = length (ExceptionsSchema.exceptions schema)
             /\ Forall (fun r => exists id n, r = LogRuleAccounts id n /\ 1 <= n) rules)
  /\ (forall e,
        validate_schema_file schema_file w = inl e ->
        schema_models_main w = (Uncaught not_an_exception_class, [])
        /\ forall e', LogSchemaInvalid e' ∉ snd (schema_models_main w)).
Proof.
  split; [|split].
  - intros schema. unfold validate_schema_file, read_file.
    destruct (is_dir (fs w) _); [split; [discriminate | by intros (? & ? & ? & _)]|].
    destruct (files (fs w) !! _) as [content|]; cbn [fst];
      [|split; [discriminate | by intros (? & ? & _ & ? & _)]].
    destruct (json_loads content) as [e|data] eqn:Hj.
    { split; [discriminate|]. intros (c & d & _ & [= <-] & Hd & _). congruence. }
    destruct (ExceptionsSchema.model_validate data) as [errors|doc] eqn:Hv.
    { split; [discriminate|]. intros (c & d & _ & [= <-] & Hd & Hv'). congruence. }
    split.
    + intros [= <-]. eauto 10.
    + intros (c & d & _ & [= <-] & Hd & Hv'). congruence.
  - intros schema Hs. unfold schema_models_main. rewrite Hs. split; [done|].
    eexists. split; [reflexivity|]. split; [by rewrite length_map|].
    unfold validate_schema_file in Hs.
    destruct (fst (read_file _ w)) as [content|]; [|discriminate].
    destruct (json_loads content) as [|data]; [discriminate|].
    destruct (ExceptionsSchema.model_validate data) as [|doc] eqn:Hv; [discriminate|].
    injection Hs as <-. apply rules_validated in Hv as Hrules.
    apply Forall_forall. intros r Hr.
    apply list_elem_of_In, in_map_iff in Hr as (exc & <- & Hexc).
    apply list_elem_of_In in Hexc. rewrite Forall_forall in Hrules.
    destruct (Hrules exc Hexc) as (_ & _ & _ & _ & Hne & _).
    eexists _, _. split; [reflexivity|].
    destruct (ServiceAccountSpec.service_accounts (Exception.spec exc)); [done|].
    simpl. lia.
  - intros e He. unfold schema_models_main. rewrite He. split; [done|].
    intros e' Hin. inversion Hin.
Qed.

Lemma schema_script_witness :
  schema_models_main (J:=lab_json) schema_file_world
  = (Finished, [LogSchemaValid 1; LogRuleAccounts "100" 1])
  /\ schema_models_main (J:=lab_json) empty_world = (Uncaught not_an_exception_class, [])
  /\ schema_models_main (J:=example_json) broken_file_world
     = (Uncaught not_an_exception_class, []).
Proof.
  split; [vm_compute; reflexivity|]. split.
  - apply (proj2 (proj2 (schema_script (J:=lab_json) empty_world))
             (Builtin (OSError "FileNotFoundError"))).
    reflexivity.
  - apply (proj2 (proj2 (schema_script (J:=example_json) broken_file_world))
             (Builtin (JSONDecodeError "Expecting value"))).
    reflexivity.
Defined.

(** ** The runs of [process_exceptions] *)

Lemma write_file_ok p content w :
  is_dir (fs w) p = false -> is_dir (fs w) (parent p) = true ->
  write_file p content w = (Ok tt, written w p content []).
Proof.
  intros Hp Hd. unfold write_file, is_file, written. rewrite Hp, Hd. simpl.
  by rewrite app_nil_r.
Qed.

Lemma write_file_inv p content w r w' :
  write_file p content w = (r, w') ->
  (r = Ok tt /\ is_dir (fs w) p = false /\ is_dir (fs w) (parent p) = true
   /\ w' = written w p content [])
  \/ (exists e, r = Raise e /\ w' = w).
Proof.
  unfold write_file, is_file, written.
  destruct (is_dir (fs w) p); [intros [= <- <-]; eauto|].
  destruct (is_dir (fs w) (parent p)); simpl.
  - intros [= <- <-]. left. by rewrite app_nil_r.
  - destruct (bool_decide _); intros [= <- <-]; eauto.
Qed.

Lemma process_exceptions_run {R : RegexModule} schema_data doc project_id output_path w :
  ExceptionsSchema.model_validate schema_data = inr doc ->
  first_error (ExceptionsSchema.exceptions doc) = None ->
  let l := lists_after project_id (ExceptionsSchema.exceptions doc) no_lists in
  let w1 := add_log w (matching_log project_id doc ++ summary_log l) in
  process_exceptions schema_data project_id output_path w =
    match write_file output_path (json_dumps 4 (terraform_vars project_id l)) w1 with
    | (Ok _, w2) => (Ok tt, add_log w2 [LogGenerated output_path])
    | (Raise e, w2) => (Raise e, w2)
    end.
Proof.
  intros Hv He l w1. rewrite (process_exceptions_validated _ doc) by done. rewrite He.
  cbv zeta. fold l. fold w1. unfold mbind, prog_bind.
  destruct (write_file _ _ w1) as [[[]|e] w2]; [|done].
  unfold logger, add_log. done.
Qed.

Lemma process_exceptions_writes {R : RegexModule} schema_data doc project_id output_path w :
  ExceptionsSchema.model_validate schema_data = inr doc ->
  patterns_compile doc ->
  is_dir (fs w) output_path = false ->
  is_dir (fs w) (parent output_path) = true ->
  let l := lists_after project_id (ExceptionsSchema.exceptions doc) no_lists in
  process_exceptions schema_data project_id output_path w
  = (Ok tt,
     written w output_path (json_dumps 4 (terraform_vars project_id l))
       (matching_log project_id doc ++ summary_log l ++ [LogGenerated output_path])).
Proof.
  intros Hv Hc Hp Hd l. apply first_error_none in Hc.
  rewrite (process_exceptions_run _ doc) by done. cbv zeta. fold l.
  rewrite write_file_ok by done. unfold written, add_log. cbn [fs log].
  by rewrite app_nil_r, <- !app_assoc.
Qed.

Lemma lab_run_ok :
  process_exceptions (R:=fragment) lab_document "lab-dev-01" default_output_file empty_world
  = (Ok tt, lab_run).
Proof. vm_compute. reflexivity. Qed.

(** X8: [process_exceptions] creates no directory and changes no file
    but the output file; a run that raises leaves the files as they were;
    the log only grows. *)
Theorem process_exceptions_frame {R : RegexModule} (schema_data : value)
    (project_id : string) (output_path : Path) (w : world) :
  let r := process_exceptions schema_data project_id output_path w in
  dirs (fs (snd r)) = dirs (fs w)
  /\ (forall p, p <> output_path -> files (fs (snd r)) !! p = files (fs w) !! p)
  /\ (forall e, fst r = Raise e -> fs (snd r) = fs w)
  /\ exists records, log (snd r) = (log w ++ records)%list.
Proof.
  cbv zeta.
  destruct (ExceptionsSchema.model_validate schema_data) as [errors|doc] eqn:Hv.
  { rewrite (process_exceptions_invalid _ errors) by done. simpl. eauto. }
  destruct (first_error (ExceptionsSchema.exceptions doc)) as [msg|] eqn:He.
  { rewrite (process_exceptions_validated _ doc) by done. rewrite He. simpl. eauto. }
  rewrite (process_exceptions_run _ doc) by done. cbv zeta.
  set (l := lists_after _ _ _). set (w1 := add_log w _).
  destruct (write_file output_path (json_dumps 4 (terraform_vars project_id l)) w1)
    as [r w2] eqn:Hw.
  apply write_file_inv in Hw as [(-> & _ & _ & ->) | (e & -> & ->)]; simpl.
  - split; [done|]. split; [intros p Hp; by rewrite lookup_insert_ne|].
    split; [discriminate|]. rewrite !app_nil_r, <- !app_assoc. eauto.
  - split; [done|]. split; [done|]. split; [done|]. eauto.
Qed.

Lemma rule_record_compiled {R : RegexModule} project_id e c :
  re_compile (Exception.project_id_regex e) = inr c ->
  rule_record project_id e
  = if pattern_match c project_id
    then LogMatches (Exception.id e) (Exception.project_id_regex e)
    else LogDoesNotMatch (Exception.id e) (Exception.project_id_regex e).
Proof.
  intros Hc. unfold rule_record, matches, re_match. rewrite Hc.
  by destruct (pattern_match c project_id).
Qed.

Lemma loop_log_compiled {R : RegexModule} project_id es :
  Forall compiles es -> loop_log project_id es = map (rule_record project_id) es.
Proof.
  induction 1 as [|e es [c Hc] _ IH]; [done|]. cbn [loop_log map].
  rewrite Hc, IH, (rule_record_compiled _ _ c) by done. done.
Qed.

Lemma loop_log_app {R : RegexModule} project_id before rest :
  Forall compiles before ->
  loop_log project_id (before ++ rest)
  = (map (rule_record project_id) before ++ loop_log project_id rest)%list.
Proof.
  induction 1 as [|e es [c Hc] _ IH]; [done|]. cbn [loop_log map app].
  rewrite Hc, IH, (rule_record_compiled _ _ c) by done. done.
Qed.

Lemma first_error_some {R : RegexModule} es msg :
  first_error es = Some msg ->
  exists before bad after,
    es = (before ++ bad :: after)%list /\ Forall compiles before
    /\ re_compile (Exception.project_id_regex bad) = inl msg.
Proof.
  induction es as [|e es IH]; [discriminate|]. cbn [first_error].
  destruct (re_compile (Exception.project_id_regex e)) as [m|c] eqn:Hc.
  - intros [= <-]. exists [], e, es. by repeat split; [constructor|].
  - intros (before & bad & after & -> & Hb & Hbad)%IH.
    exists (e :: before), bad, after. split; [done|]. split; [|done].
    constructor; [by exists c | done].
Qed.

(** X9: when the pattern of some rule of a validated document does not
    compile, the run raises [re.error] for every project id, with the
    message for the first such rule, also when earlier rules matched.  The
    rules before it have been tested and logged, and nothing is written. *)
Theorem bad_pattern_stops_run {R : RegexModule} (schema_data : value)
    (doc : ExceptionsSchema.t) (project_id : string) (output_path : Path) (w : world)
    (e : Exception.t) (msg : string) :
  ExceptionsSchema.model_validate schema_data = inr doc ->
  e ∈ ExceptionsSchema.exceptions doc ->
  re_compile (Exception.project_id_regex e) = inl msg ->
  exists before bad after msg' w',
    ExceptionsSchema.exceptions doc = (before ++ bad :: after)%list
    /\ Forall compiles before
    /\ re_compile (Exception.project_id_regex bad) = inl msg'
    /\ process_exceptions schema_data project_id output_path w = (Raise (ReError msg'), w')
    /\ fs w' = fs w
    /\ log w' = (log w
                 ++ [ LogProcessing project_id;
                      LogValidationSuccessful (ExceptionsSchema.version doc);
                      LogProcessingExceptions (length (ExceptionsSchema.exceptions doc))
                        (map Exception.id (ExceptionsSchema.exceptions doc)) ]
                 ++ map (rule_record project_id) before)%list.
Proof.
  intros Hv Hin Hbad.
  destruct (first_error (ExceptionsSchema.exceptions doc)) as [msg'|] eqn:He; cycle 1.
  { apply first_error_none in He. rewrite Forall_forall in He.
    destruct (He e Hin) as [c Hc]. congruence. }
  pose proof (first_error_some _ _ He) as (before & bad & after & Hes & Hb & Hm).
  exists before, bad, after, msg'. eexists.
  split; [done|]. split; [done|]. split; [done|].
  rewrite (process_exceptions_validated _ doc) by done. rewrite He.
  split; [reflexivity|]. split; [reflexivity|].
  unfold add_log, matching_log. cbn [log]. do 2 f_equal.
  rewrite Hes, loop_log_app by done. cbn [loop_log]. rewrite Hm.
  by rewrite app_nil_r.
Qed.

Lemma bad_pattern_stops_run_witness :
  exists before bad after msg' w',
    ExceptionsSchema.exceptions bad_regex_schema = (before ++ bad :: after)%list
    /\ Forall (compiles (R:=fragment)) before
    /\ re_compile (RegexModule:=fragment) (Exception.project_id_regex bad) = inl msg'
    /\ process_exceptions (R:=fragment) bad_regex_document "prod-1" default_output_file
         empty_world = (Raise (ReError msg'), w')
    /\ fs w' = fs empty_world
    /\ log w' = (log empty_world
                 ++ [ LogProcessing "prod-1";
                      LogValidationSuccessful (ExceptionsSchema.version bad_regex_schema);
                      LogProcessingExceptions
                        (length (ExceptionsSchema.exceptions bad_regex_schema))
                        (map Exception.id (ExceptionsSchema.exceptions bad_regex_schema)) ]
                 ++ map (rule_record (R:=fragment) "prod-1") before)%list.
Proof.
  refine (bad_pattern_stops_run (R:=fragment) bad_regex_document bad_regex_schema "prod-1"
            default_output_file empty_world
            (Exception.mk "100" "create_service_accounts" "(" "Lab environment service accounts"
               (ServiceAccountSpec.mk [ServiceAccount.mk "api" ["roles/viewer"] true ""]))
            "missing ), unterminated subpattern at position 0" _ _ _).
  - vm_compute. reflexivity.
  - apply list_elem_of_here.
  - vm_compute. reflexivity.
Defined.

(** X10: the log of a successful run.  Every pattern compiled; after
    the three records of the start comes one record for each rule, in the
    order of the document, that says whether it matched; then the summary,
    whose counts are the number of matching rules, the length of the list
    of service accounts in the output file, and 0 overrides, or the record
    that nothing matched; then the record of the written file. *)
Theorem successful_run_log {R : RegexModule} (schema_data : value)
    (doc : ExceptionsSchema.t) (project_id : string) (output_path : Path) (w w' : world) :
  ExceptionsSchema.model_validate schema_data = inr doc ->
  process_exceptions schema_data project_id output_path w = (Ok tt, w') ->
  let es := ExceptionsSchema.exceptions doc in
  let matched := filter (fun e => matches project_id e = true) es in
  let accounts := first_occurrences (contributions project_id es) in
  Forall compiles es
  /\ files (fs w') !! output_path = Some (output_text project_id accounts)
  /\ log w' = (log w
               ++ [ LogProcessing project_id;
                    LogValidationSuccessful (ExceptionsSchema.version doc);
                    LogProcessingExceptions (length es) (map Exception.id es) ]
               ++ map (rule_record project_id) es
               ++ (if nonempty matched
                   then [ LogFound (map Exception.id matched);
                          LogTotalServiceAccounts (length accounts);
                          LogTotalOverrides 0 ]
                   else [ LogNoneMatched ])
               ++ [ LogGenerated output_path ])%list.
Proof.
  intros Hv Hrun es matched accounts.
  destruct (first_error es) as [msg|] eqn:He.
  { rewrite (process_exceptions_validated _ doc) in Hrun by done. fold es in Hrun.
    rewrite He in Hrun. discriminate. }
  pose proof (proj1 (first_error_none es) He) as Hc.
  rewrite (process_exceptions_run _ doc) in Hrun by done. cbv zeta in Hrun.
  fold es in Hrun. set (l := lists_after project_id es no_lists) in Hrun.
  assert (Hl : service_accounts l = accounts) by apply aggregate_first_occurrences.
  destruct (write_file _ _ _) as [r w2] eqn:Hw.
  apply write_file_inv in Hw as [(-> & _ & _ & ->) | (e & -> & ->)]; [|discriminate].
  injection Hrun as <-. split; [exact Hc|]. split.
  - cbn [fs files add_log written]. rewrite lookup_insert_eq.
    rewrite <- dumps_terraform_vars. unfold terraform_vars. by rewrite Hl.
  - cbn [log add_log written]. rewrite app_nil_r, <- !app_assoc. f_equal.
    unfold matching_log. fold es. rewrite (loop_log_compiled _ _ Hc).
    cbn [app]. do 3 f_equal. rewrite <- app_assoc. do 2 f_equal.
    unfold summary_log. cbn [matched_exceptions l lists_after no_lists app
      iam_policy_overrides length]. fold matched.
    rewrite Hl. destruct matched; reflexivity.
Qed.

Lemma successful_run_log_witness :
  process_exceptions (R:=fragment) lab_document "lab-dev-01" default_output_file empty_world
  = (Ok tt, lab_run)
  /\ log lab_run
     = [ LogProcessing "lab-dev-01"; LogValidationSuccessful "1.0.0";
         LogProcessingExceptions 1 ["100"]; LogMatches "100" "^lab-dev-.*$";
         LogFound ["100"]; LogTotalServiceAccounts 1; LogTotalOverrides 0;
         LogGenerated default_output_file ]
  /\ let es := ExceptionsSchema.exceptions lab_schema in
     let matched := filter (fun e => matches (R:=fragment) "lab-dev-01" e = true) es in
     let accounts := first_occurrences (contributions (R:=fragment) "lab-dev-01" es) in
     Forall (compiles (R:=fragment)) es
     /\ files (fs lab_run) !! default_output_file = Some (output_text "lab-dev-01" accounts)
     /\ log lab_run
        = (log empty_world
           ++ [ LogProcessing "lab-dev-01";
                LogValidationSuccessful (ExceptionsSchema.version lab_schema);
                LogProcessingExceptions (length es) (map Exception.id es) ]
           ++ map (rule_record (R:=fragment) "lab-dev-01") es
           ++ (if nonempty matched
               then [ LogFound (map Exception.id matched);
                      LogTotalServiceAccounts (length accounts);
                      LogTotalOverrides 0 ]
               else [ LogNoneMatched ])
           ++ [ LogGenerated default_output_file ])%list.
Proof.
  split; [exact lab_run_ok|]. split; [reflexivity|].
  exact (successful_run_log (R:=fragment) lab_document lab_schema "lab-dev-01"
           default_output_file empty_world lab_run lab_validated lab_run_ok).
Defined.

Lemma filter_none {A : Type} (P : A -> Prop) `{!forall x, Decision (P x)} (l : list A) :
  Forall (fun x => ~ P x) l -> filter P l = [].
Proof.
  induction 1 as [|x l Hx _ IH]; [done|]. by rewrite filter_cons_False.
Qed.

(** X11: when no rule matches, in particular when the document
    has no rule, the run is no failure: the output file is written with
    the project id, the region and two empty lists, and the log ends with
    the record that nothing matched and the record of the written file. *)
Theorem no_match_writes_empty_lists {R : RegexModule} (schema_data : value)
    (doc : ExceptionsSchema.t) (project_id : string) (output_path : Path) (w : world) :
  ExceptionsSchema.model_validate schema_data = inr doc ->
  patterns_compile doc ->
  Forall (fun e => matches project_id e = false) (ExceptionsSchema.exceptions doc) ->
  is_dir (fs w) output_path = false ->
  is_dir (fs w) (parent output_path) = true ->
  exists w' records,
    process_exceptions schema_data project_id output_path w = (Ok tt, w')
    /\ files (fs w') !! output_path = Some (output_text project_id [])
    /\ log w' = (log w ++ records ++ [LogNoneMatched; LogGenerated output_path])%list.
Proof.
  intros Hv Hc Hnone Hp Hd.
  rewrite (process_exceptions_writes _ doc) by done. cbv zeta.
  assert (Hf : filter (fun e => matches project_id e = true)
                 (ExceptionsSchema.exceptions doc) = []).
  { apply filter_none. eapply Forall_impl; [exact Hnone|]. intros e He. by rewrite He. }
  assert (Hl : lists_after project_id (ExceptionsSchema.exceptions doc) no_lists = no_lists).
  { unfold lists_after, contributions. by rewrite Hf. }
  rewrite Hl. eexists _, (matching_log project_id doc). split; [reflexivity|].
  cbn [written fs files log]. rewrite lookup_insert_eq. split.
  - by rewrite <- dumps_terraform_vars.
  - done.
Qed.

Lemma no_match_writes_empty_lists_witness :
  Forall (fun e => matches (R:=fragment) "prod-1" e = false)
    (ExceptionsSchema.exceptions lab_schema)
  /\ exists w' records,
       process_exceptions (R:=fragment) lab_document "prod-1" default_output_file
         empty_world = (Ok tt, w')
       /\ files (fs w') !! default_output_file = Some (output_text "prod-1" [])
       /\ log w' = (log empty_world ++ records
                    ++ [LogNoneMatched; LogGenerated default_output_file])%list.
Proof.
  assert (Hnone : Forall (fun e => matches (R:=fragment) "prod-1" e = false)
                    (ExceptionsSchema.exceptions lab_schema))
    by (repeat constructor).
  split; [exact Hnone|].
  exact (no_match_writes_empty_lists (R:=fragment) lab_document lab_schema "prod-1"
           default_output_file empty_world lab_validated lab_compiles Hnone
           eq_refl eq_refl).
Defined.

Lemma elem_of_contributions {R : RegexModule} project_id es x :
  x ∈ contributions project_id es ->
  exists e sa, e ∈ es /\ matches project_id e = true
    /\ sa ∈ ServiceAccountSpec.service_accounts (Exception.spec e)
    /\ x = ServiceAccount.model_dump sa.
Proof.
  unfold contributions. intros Hx.
  apply list_elem_of_In, in_concat in Hx as (l & Hl & Hx).
  apply in_map_iff in Hl as (e & <- & He).
  apply list_elem_of_In, list_elem_of_filter in He as [Hm He].
  apply in_map_iff in Hx as (sa & <- & Hsa). apply list_elem_of_In in Hsa.
  eauto 10.
Qed.

(** X12: every entry of the list of service accounts that the loop
    builds is the dump of a service account of the validated form, and
    validates again to that service account. *)
Theorem output_accounts_conform {R : RegexModule} (schema_data : value)
    (doc : ExceptionsSchema.t) (project_id : string) (w w' : world) (l : lists) :
  ExceptionsSchema.model_validate schema_data = inr doc ->
  for_each (ExceptionsSchema.exceptions doc) (visit project_id) no_lists w = (Ok l, w') ->
  Forall (fun x => exists sa,
            x = ServiceAccount.model_dump sa /\ account_form sa
            /\ ServiceAccount.model_validate x = inr sa)
    (service_accounts l).
Proof.
  intros Hv Hrun. pose proof (rules_validated _ _ Hv) as Hrules.
  rewrite (loop_run project_id) in Hrun by (by eapply validated_types).
  destruct (first_error _); [discriminate|]. injection Hrun as <- _.
  cbn [service_accounts lists_after no_lists]. rewrite aggregate_first_occurrences.
  rewrite first_occurrences_unseen. apply Forall_forall. intros x Hx.
  apply elem_of_unseen in Hx as [Hx _].
  apply elem_of_contributions in Hx as (e & sa & He & _ & Hsa & ->).
  rewrite Forall_forall in Hrules. destruct (Hrules e He) as (_ & _ & _ & _ & _ & Haccs).
  rewrite Forall_forall in Haccs. specialize (Haccs sa Hsa).
  exists sa. split; [done|]. split; [done|]. by apply account_dump_validates.
Qed.

Lemma output_accounts_conform_witness :
  exists l w',
    for_each (ExceptionsSchema.exceptions shared_account_schema)
      (visit (R:=fragment) "lab-dev-01") no_lists empty_world = (Ok l, w')
    /\ length (service_accounts l) = 3
    /\ Forall (fun x => exists sa,
                 x = ServiceAccount.model_dump sa /\ account_form sa
                 /\ ServiceAccount.model_validate x = inr sa)
         (service_accounts l).
Proof.
  eexists _, _.
  assert (Hv : ExceptionsSchema.model_validate shared_account_document
               = inr shared_account_schema) by (vm_compute; reflexivity).
  assert (Hrun : for_each (ExceptionsSchema.exceptions shared_account_schema)
                   (visit (R:=fragment) "lab-dev-01") no_lists empty_world
                 = (Ok (lists_after (R:=fragment) "lab-dev-01"
                          (ExceptionsSchema.exceptions shared_account_schema) no_lists),
                    add_log empty_world
                      (loop_log (R:=fragment) "lab-dev-01"
                         (ExceptionsSchema.exceptions shared_account_schema))))
    by (vm_compute; reflexivity).
  split; [exact Hrun|]. split; [vm_compute; reflexivity|].
  exact (output_accounts_conform (R:=fragment) shared_account_document
           shared_account_schema "lab-dev-01" empty_world _ _ Hv Hrun).
Defined.

(** X13: a run that succeeded can be repeated: the second run succeeds
    and leaves the files and directories as the first left them. *)
Theorem rerun_same_files {R : RegexModule} (schema_data : value) (project_id : string)
    (output_path : Path) (w w1 : world) :
  process_exceptions schema_data project_id output_path w = (Ok tt, w1) ->
  exists w2,
    process_exceptions schema_data project_id output_path w1 = (Ok tt, w2)
    /\ fs w2 = fs w1.
Proof.
  intros Hrun.
  destruct (ExceptionsSchema.model_validate schema_data) as [errors|doc] eqn:Hv.
  { rewrite (process_exceptions_invalid _ errors) in Hrun by done. discriminate. }
  destruct (first_error (ExceptionsSchema.exceptions doc)) as [msg|] eqn:He.
  { rewrite (process_exceptions_validated _ doc) in Hrun by done.
    rewrite He in Hrun. discriminate. }
  rewrite (process_exceptions_run _ doc) in Hrun by done. cbv zeta in Hrun.
  destruct (write_file _ _ _) as [r w'] eqn:Hw.
  apply write_file_inv in Hw as [(-> & Hp & Hd & ->) | (e & -> & ->)]; [|discriminate].
  injection Hrun as <-. apply first_error_none in He.
  rewrite (process_exceptions_writes _ doc) by done. cbv zeta.
  eexists. split; [reflexivity|].
  cbn [written add_log fs log dirs files]. by rewrite insert_insert_eq.
Qed.

Lemma rerun_same_files_witness :
  process_exceptions (R:=fragment) lab_document "lab-dev-01" default_output_file empty_world
  = (Ok tt, lab_run)
  /\ exists w2,
       process_exceptions (R:=fragment) lab_document "lab-dev-01" default_output_file
         lab_run = (Ok tt, w2)
       /\ fs w2 = fs lab_run.
Proof.
  split; [exact lab_run_ok|].
  exact (rerun_same_files (R:=fragment) lab_document "lab-dev-01" default_output_file
           empty_world lab_run lab_run_ok).
Defined.

(** X25: a run whose output file cannot be opened.  When the output
    path is a directory, or its parent is no directory, the run raises the
    error of [open] after the rules were tested and the summary was
    logged: [IsADirectoryError] for a directory, [FileNotFoundError] when
    the parent does not exist.  No file is written, and the record of the
    written file is not logged. *)
Theorem unwritable_output {R : RegexModule} (schema_data : value)
    (doc : ExceptionsSchema.t) (project_id : string) (output_path : Path) (w : world) :
  ExceptionsSchema.model_validate schema_data = inr doc ->
  patterns_compile doc ->
  is_dir (fs w) output_path = true \/ is_dir (fs w) (parent output_path) = false ->
  exists name,
    process_exceptions schema_data project_id output_path w
    = (Raise (OSError name),
       add_log w (matching_log project_id doc
                  ++ summary_log (lists_after project_id (ExceptionsSchema.exceptions doc)
                                    no_lists)))
    /\ (is_dir (fs w) output_path = true -> name = "IsADirectoryError")
    /\ (is_dir (fs w) output_path = false ->
        is_file (fs w) (parent output_path) = false -> name = "FileNotFoundError").
Proof.
  intros Hv Hc Hbad. apply first_error_none in Hc.
  rewrite (process_exceptions_run _ doc) by done. cbv zeta.
  set (w1 := add_log w _). unfold write_file. change (fs w1) with (fs w).
  destruct (is_dir (fs w) output_path) eqn:Hout.
  { eexists. split; [reflexivity|]. split; [done | discriminate]. }
  destruct Hbad as [? | Hparent]; [discriminate|].
  destruct (is_file (fs w) (parent output_path)) eqn:Hfile.
  - eexists. split; [reflexivity|]. split; [discriminate | intros _ ?; discriminate].
  - rewrite Hparent. eexists. split; [reflexivity|]. split; [discriminate | done].
Qed.

Lemma unwritable_output_witness :
  exists name,
    process_exceptions (R:=fragment) lab_document "lab-dev-01" missing_directory_file
      empty_world
    = (Raise (OSError name),
       add_log empty_world
         (matching_log (R:=fragment) "lab-dev-01" lab_schema
          ++ summary_log (lists_after (R:=fragment) "lab-dev-01"
                            (ExceptionsSchema.exceptions lab_schema) no_lists)))
    /\ (is_dir (fs empty_world) missing_directory_file = true -> name = "IsADirectoryError")
    /\ (is_dir (fs empty_world) missing_directory_file = false ->
        is_file (fs empty_world) (parent missing_directory_file) = false ->
        name = "FileNotFoundError").
Proof.
  apply (unwritable_output (R:=fragment) lab_document lab_schema "lab-dev-01"
           missing_directory_file empty_world lab_validated lab_compiles).
  right. vm_compute. reflexivity.
Defined.

(** ** The runs of the script *)

Lemma mkdir_parents_succeeds parts anchor f :
  (forall k, is_file f (anchor, rev (drop k parts)) = false) ->
  exists f', mkdir_parents parts anchor f = Ok f'.
Proof.
  induction parts as [|x up IH]; intros Hfiles; cbn [mkdir_parents].
  - simpl. eauto.
  - destruct (is_dir f (anchor, rev (x :: up))); [eauto|].
    pose proof (Hfiles 0) as H0. pose proof (Hfiles 1) as H1.
    rewrite drop_0 in H0. cbn [drop] in H1. rewrite drop_0 in H1. rewrite H0, H1.
    destruct IH as [f' ->]; [|eauto].
    intros k. apply (Hfiles (S k)).
Qed.

Lemma mkdir_parents_dirs parts anchor f f' p :
  mkdir_parents parts anchor f = Ok f' ->
  p ∈ dirs f' -> p ∈ dirs f \/ exists k, p = (anchor, rev (drop k parts)).
Proof.
  revert f'. induction parts as [|x up IH]; intros f'; cbn [mkdir_parents].
  - simpl. intros [= <-]; auto.
  - destruct (is_dir f (anchor, rev (x :: up))); [by intros [= <-]; auto|].
    destruct (is_file f (anchor, rev (x :: up))); [discriminate|].
    destruct (is_file f (anchor, rev up)); [discriminate|].
    destruct (mkdir_parents up anchor f) as [f1|] eqn:Hup; [|discriminate].
    intros [= <-]. cbn [dirs]. intros [Hp | Hp]%elem_of_union.
    + apply elem_of_singleton in Hp as ->. right. by exists 0.
    + destruct (IH f1 eq_refl Hp) as [? | [k ->]]; [by left|]. right. by exists (S k).
Qed.

Lemma rev_drop_rev {A : Type} k (l : list A) : rev (drop k (rev l)) = take (length l - k) l.
Proof. by rewrite skipn_rev, rev_involutive. Qed.

Lemma length_removelast {A : Type} (l : list A) : l <> [] -> length (removelast l) < length l.
Proof.
  intros Hne. rewrite removelast_firstn_len, length_take.
  destruct l; [done|]. simpl. lia.
Qed.

Lemma mkdir_keeps_output (out : Path) (f f' : filesystem) :
  mkdir_parents (rev (snd (parent out))) (fst (parent out)) f = Ok f' ->
  is_dir f out = false -> is_dir f' out = false.
Proof.
  intros Hmk Hout. destruct out as [anchor ps]. destruct ps as [|x ps]; [done|].
  change (bool_decide ((anchor, x :: ps) ∈ dirs f) = false) in Hout.
  change (bool_decide ((anchor, x :: ps) ∈ dirs f') = false).
  unfold parent in Hmk. cbn [fst snd] in Hmk.
  pose proof (length_removelast (x :: ps) ltac:(done)) as Hlt.
  remember (removelast (x :: ps)) as up eqn:Hup. clear Hup.
  apply bool_decide_eq_false in Hout. apply bool_decide_eq_false. intros Hin.
  destruct (mkdir_parents_dirs _ _ _ _ _ Hmk Hin) as [? | [k Hk]]; [done|].
  injection Hk as Hk. rewrite rev_drop_rev in Hk.
  apply (f_equal length) in Hk. rewrite length_take in Hk. lia.
Qed.

(** X14: the script on a valid input.  When the document is valid and
    its patterns compile, the output path is no directory and no directory
    above it is a regular file, the script creates the directories above
    the output file, writes the file and ends normally; the other files
    are as before. *)
Theorem main_writes_output {R : RegexModule} {J : JsonModule} (a : args) (w : world)
    (schema_data : value) (doc : ExceptionsSchema.t) :
  loads a w schema_data ->
  ExceptionsSchema.model_validate schema_data = inr doc ->
  patterns_compile doc ->
  is_dir (fs w) (output_file a) = false ->
  (forall n, is_file (fs w) (fst (output_file a), take n (snd (parent (output_file a))))
             = false) ->
  let accounts :=
    first_occurrences (contributions (project_id a) (ExceptionsSchema.exceptions doc)) in
  exists w',
    main a w = (Finished, w')
    /\ is_dir (fs w') (parent (output_file a)) = true
    /\ dirs (fs w) ⊆ dirs (fs w')
    /\ files (fs w')
       = <[ output_file a := output_text (project_id a) accounts ]> (files (fs w)).
Proof.
  intros Hload Hv Hc Hout Habove accounts.
  rewrite (main_loaded a w schema_data) by done.
  destruct (mkdir_parents_succeeds (rev (snd (parent (output_file a))))
              (fst (parent (output_file a))) (fs w)) as [f Hmk].
  { intros k. rewrite rev_drop_rev. apply Habove. }
  pose proof (mkdir_parents_ok _ _ _ _ Hmk) as (Hfiles & Hdirs & Hdir).
  rewrite rev_involutive in Hdir.
  assert (Hparent : (fst (parent (output_file a)), snd (parent (output_file a)))
                    = parent (output_file a)) by (by destruct (parent _)).
  rewrite Hparent in Hdir.
  pose proof (mkdir_keeps_output _ _ _ Hmk Hout) as Hout'.
  unfold mbind, prog_bind, mkdir, add_log. cbn [fs log]. rewrite Hmk.
  rewrite (process_exceptions_writes _ doc) by done. cbv zeta.
  eexists. split; [reflexivity|]. cbn [written fs dirs files].
  split; [done|]. split; [done|]. rewrite Hfiles. f_equal.
  rewrite <- dumps_terraform_vars. unfold terraform_vars. f_equal.
  cbn [service_accounts lists_after no_lists iam_policy_overrides].
  by rewrite aggregate_first_occurrences.
Qed.

Lemma main_writes_output_witness :
  is_dir (fs empty_world) (parent nested_output_file) = false
  /\ exists w',
       main (R:=fragment) (J:=lab_json) lab_args empty_world = (Finished, w')
       /\ is_dir (fs w') (parent nested_output_file) = true
       /\ dirs (fs empty_world) ⊆ dirs (fs w')
       /\ files (fs w')
          = <[ nested_output_file :=
                 output_text "lab-dev-01"
                   (first_occurrences
                      (contributions (R:=fragment) "lab-dev-01"
                         (ExceptionsSchema.exceptions lab_schema))) ]>
              (files (fs empty_world)).
Proof.
  split; [vm_compute; reflexivity|].
  refine (main_writes_output (R:=fragment) (J:=lab_json) lab_args empty_world lab_document
            lab_schema _ lab_validated lab_compiles eq_refl _).
  - vm_compute. reflexivity.
  - intros n. destruct n as [|[|n]]; vm_compute; reflexivity.
Defined.

(** X15: a schema file that does not exist, or whose text is not
    JSON, ends the script with the exception of [open] or of [json.load],
    uncaught: unlike for a JSON string, no record says that the JSON is
    invalid.  Nothing has been created or written by then. *)
Theorem schema_file_failures {R : RegexModule} {J : JsonModule} (a : args) (w : world)
    (schema_file_path : Path) :
  schema a = inl schema_file_path ->
  (is_dir (fs w) schema_file_path = false ->
   files (fs w) !! schema_file_path = None ->
   main a w = (Uncaught (OSError "FileNotFoundError"),
               add_log w [LogLoadingFile schema_file_path]))
  /\ (forall content e,
        is_dir (fs w) schema_file_path = false ->
        files (fs w) !! schema_file_path = Some content ->
        json_loads content = inl e ->
        main a w = (Uncaught (JSONDecodeError e),
                    add_log w [LogLoadingFile schema_file_path])).
Proof.
  intros Hs. split.
  - intros Hd Hf. unfold main. rewrite Hs.
    unfold mbind, prog_bind, logger, read_file. cbn [fs]. by rewrite Hd, Hf.
  - intros content e Hd Hf He. unfold main. rewrite Hs.
    unfold mbind, prog_bind, logger, read_file. cbn [fs]. rewrite Hd, Hf, He. done.
Qed.

Lemma schema_file_failures_witness :
  main (R:=fragment) (J:=example_json) file_args empty_world
  = (Uncaught (OSError "FileNotFoundError"), add_log empty_world [LogLoadingFile schema_file])
  /\ main (R:=fragment) (J:=example_json) file_args broken_file_world
     = (Uncaught (JSONDecodeError "Expecting value"),
        add_log broken_file_world [LogLoadingFile schema_file]).
Proof.
  split.
  - exact (proj1 (schema_file_failures (R:=fragment) (J:=example_json) file_args
                    empty_world schema_file eq_refl) eq_refl eq_refl).
  - exact (proj2 (schema_file_failures (R:=fragment) (J:=example_json) file_args
                    broken_file_world schema_file eq_refl) "{" "Expecting value"
             eq_refl eq_refl eq_refl).
Defined.

(** ** The errors of [parse_time_duration] *)

Lemma parse_time_duration_raises {F : FloatModule} (s : string) (e : exn) :
  parse_time_duration s = Raise e ->
  (s = "" /\ e = ValueError (Text "Duration string is empty"))
  \/ (s <> "" /\ e = invalid_duration s
      /\ Re.match_at_start Re.Python duration_re (chars (py_lower s)) = None).
Proof.
  unfold parse_time_duration. destruct (String.eqb s "") eqn:Hs.
  { apply String.eqb_eq in Hs. intros [= <-]. by left. }
  apply String.eqb_neq in Hs.
  destruct (Re.match_at_start _ _ _) as [groups|] eqn:Hm.
  - apply run_sound in Hm as (st' & caps' & HM & Hacc). injection Hacc as ->.
    apply duration_match_inv in HM as (n & u & rest & _ & _ & Hu & _ & ->).
    cbn [Re.group Nat.eqb].
    destruct Hu as [-> | [-> | ->]]; vm_compute; discriminate.
  - intros [= <-]. by right.
Qed.

(** X16: [parse_time_duration] raises two errors only: that the
    string is empty, for the empty string, and that the format is invalid,
    with the string as it was given, for a string whose lower-cased form
    is no number followed by a unit.  The error of an unsupported unit is
    never raised. *)
Theorem parse_time_duration_errors {F : FloatModule} (s : string) (e : exn) :
  parse_time_duration s = Raise e ->
  (s = "" /\ e = ValueError (Text "Duration string is empty"))
  \/ (s <> "" /\ e = invalid_duration s
      /\ ~ exists n u rest,
           chars (py_lower s) = (n ++ [u] ++ rest)%list /\ is_number n /\ is_unit u
           /\ (rest = [] \/ rest = [newline])).
Proof.
  intros He. pose proof He as [Hempty | (Hne & -> & _)]%parse_time_duration_raises; [by left|].
  right. split; [done|]. split; [done|].
  intros (n & u & rest & Hs & Hn & Hu & Hrest).
  destruct (parse_time_duration_accepts s n u rest Hs Hn Hu Hrest) as [v Hv]. congruence.
Qed.

Lemma parse_time_duration_errors_witness :
  parse_time_duration (F:=fractions) "2w" = Raise (invalid_duration "2w")
  /\ ~ exists n u rest,
        chars (py_lower "2w") = (n ++ [u] ++ rest)%list /\ is_number n /\ is_unit u
        /\ (rest = [] \/ rest = [newline]).
Proof.
  assert (H : parse_time_duration (F:=fractions) "2w" = Raise (invalid_duration "2w"))
    by (vm_compute; reflexivity).
  split; [exact H|].
  destruct (parse_time_duration_errors (F:=fractions) "2w" (invalid_duration "2w") H)
    as [[Hempty _] | (_ & _ & Hform)]; [discriminate Hempty | exact Hform].
Defined.

Lemma chars_append (a b : string) : chars (a ++ b) = (chars a ++ chars b)%list.
Proof. induction a as [|c a IH]; [done|]. simpl. by rewrite <- IH. Qed.

Lemma is_unit_not_newline u : is_unit u -> u <> newline.
Proof. intros [-> | [-> | ->]]; discriminate. Qed.

Lemma snoc_inj {A : Type} (l1 l2 : list A) (x y : A) :
  (l1 ++ [x])%list = (l2 ++ [y])%list -> l1 = l2 /\ x = y.
Proof. intros H. apply app_inj_tail in H. done. Qed.

(** X17: a duration followed by one newline is parsed as the
    duration is: the [$] of the pattern also matches before a final
    newline. *)
Theorem trailing_newline_accepted {F : FloatModule} (s : string) (v : float) :
  parse_time_duration s = Ok v ->
  last (chars s) <> Some newline ->
  parse_time_duration (s ++ String newline "") = Ok v.
Proof.
  intros Hv Hlast.
  apply parse_time_duration_ok in Hv as (n & u & rest & Hs & Hn & Hu & Hrest & ->).
  destruct Hrest as [-> | ->]; cycle 1.
  { exfalso. apply Hlast, last_lower_newline. rewrite Hs.
    by rewrite (app_assoc n [u] [newline]), last_snoc. }
  assert (Hs' : chars (py_lower (s ++ String newline ""))
                = (n ++ [u] ++ [newline])%list).
  { rewrite chars_py_lower, chars_append, map_app, <- chars_py_lower, Hs.
    by rewrite <- !app_assoc. }
  destruct (parse_time_duration_accepts _ n u [newline] Hs' Hn Hu (or_intror eq_refl))
    as [v' Hv'].
  rewrite Hv'. f_equal.
  apply parse_time_duration_ok in Hv' as (n' & u' & rest' & Hs'' & _ & Hu' & Hrest' & ->).
  rewrite Hs' in Hs''. destruct Hrest' as [-> | ->].
  - rewrite app_nil_r, app_assoc in Hs''. apply snoc_inj in Hs'' as [_ <-].
    by apply is_unit_not_newline in Hu'.
  - rewrite !app_assoc in Hs''. apply snoc_inj in Hs'' as [Hs'' _].
    apply snoc_inj in Hs'' as [<- <-]. done.
Qed.

Lemma trailing_newline_accepted_witness :
  parse_time_duration (F:=fractions) "2d" = Ok (2, 1)%Z
  /\ parse_time_duration (F:=fractions) ("2d" ++ String newline "") = Ok (2, 1)%Z.
Proof.
  assert (H : parse_time_duration (F:=fractions) "2d" = Ok (2, 1)%Z)
    by (vm_compute; reflexivity).
  split; [exact H|].
  refine (trailing_newline_accepted (F:=fractions) "2d" (2, 1)%Z H _).
  vm_compute. discriminate.
Defined.

(** ** The project id of a log name *)

Lemma split_chars_nonempty sep s : split_chars sep s <> [].
Proof.
  induction s as [|c t IH]; [done|]. simpl.
  destruct (ascii_eqb c sep); [done|]. by destruct (split_chars sep t).
Qed.

Lemma split_chars_cons sep c t :
  ascii_eqb c sep = false ->
  exists first rest,
    split_chars sep t = first :: rest /\ split_chars sep (c :: t) = (c :: first) :: rest.
Proof.
  intros Hc. cbn [split_chars]. rewrite Hc.
  destruct (split_chars sep t) as [|first rest] eqn:Ht; [by apply split_chars_nonempty in Ht|].
  eauto.
Qed.

Lemma split_chars_app sep a b :
  Forall (fun c => ascii_eqb c sep = false) a ->
  split_chars sep (a ++ sep :: b) = a :: split_chars sep b.
Proof.
  induction 1 as [|c a Hc _ IH].
  - simpl. unfold ascii_eqb. by rewrite Ascii.eqb_refl.
  - destruct (split_chars_cons sep c (a ++ sep :: b) Hc) as (first & rest & Ht & Hs).
    rewrite <- app_comm_cons, Hs. rewrite IH in Ht. by injection Ht as <- <-.
Qed.

Lemma split_chars_second sep x y :
  exists p, split_chars sep (x ++ sep :: y) !! 1 = Some p.
Proof.
  induction x as [|c x [p IH]].
  - simpl. unfold ascii_eqb. rewrite Ascii.eqb_refl.
    destruct (split_chars sep y) as [|p rest] eqn:Hy; [by apply split_chars_nonempty in Hy|].
    by exists p.
  - rewrite <- app_comm_cons. cbn [split_chars].
    destruct (ascii_eqb c sep).
    + destruct (split_chars sep (x ++ sep :: y)) as [|q rest] eqn:Hq;
        [by apply split_chars_nonempty in Hq|]. by exists q.
    + destruct (split_chars sep (x ++ sep :: y)) as [|q rest]; [done|]. by exists p.
Qed.

Lemma contains_chars_inv needle hay :
  contains_chars needle hay = true -> exists x y, hay = (x ++ needle ++ y)%list.
Proof.
  induction hay as [|c t IH]; simpl.
  - destruct needle; [|discriminate]. by exists [], [].
  - intros [Hp | Ht]%orb_true_iff.
    + apply bool_decide_eq_true in Hp as [y Hy]. by exists [], y.
    + destruct (IH Ht) as (x & y & ->). by exists (c :: x), y.
Qed.

Lemma contains_chars_app needle x y :
  needle <> [] -> contains_chars needle (x ++ needle ++ y) = true.
Proof.
  intros Hne. induction x as [|c x IH].
  - destruct needle as [|n needle]; [done|]. simpl. apply orb_true_iff. left.
    apply bool_decide_eq_true. by exists y.
  - simpl. apply orb_true_iff. by right.
Qed.

Lemma text_chars s : text (chars s) = s.
Proof. apply string_of_list_ascii_of_string. Qed.

(** X18: the project id is the second part of the log name.  A log
    name that contains [/logs/] has a second part, so the index 1 is in
    range; for the log name [projects/<id>/logs/<rest>], where the id has
    no slash, the part is the id. *)
Theorem project_id_of_log_name :
  (forall log_name,
      str_contains "/logs/" log_name = true ->
      exists project_id, str_split "/" log_name !! 1 = Some project_id)
  /\ (forall project rest,
        Forall (fun c => c <> "/"%char) (chars project) ->
        str_contains "/logs/" ("projects/" ++ project ++ "/logs/" ++ rest) = true
        /\ str_split "/" ("projects/" ++ project ++ "/logs/" ++ rest) !! 1 = Some project).
Proof.
  split.
  - intros log_name Hc. unfold str_contains in Hc.
    apply contains_chars_inv in Hc as (x & y & Hs). unfold str_split. rewrite Hs.
    change (chars "/logs/" ++ y)%list with ("/"%char :: (chars "logs/" ++ y))%list.
    destruct (split_chars_second "/" x (chars "logs/" ++ y)) as [p Hp].
    exists (text p). by rewrite list_lookup_fmap, Hp.
  - intros project rest Hp. split.
    + unfold str_contains. rewrite !chars_append.
      rewrite (app_assoc (chars "projects/") (chars project)).
      by apply contains_chars_app.
    + unfold str_split. rewrite !chars_append.
      change (chars "projects/") with (chars "projects" ++ ["/"%char])%list.
      rewrite <- (app_assoc (chars "projects")). cbn [app].
      rewrite split_chars_app by (by repeat constructor).
      change (chars "/logs/" ++ chars rest)%list
        with ("/"%char :: (chars "logs/" ++ chars rest))%list.
      rewrite split_chars_app.
      * cbn [map lookup]. simpl. by rewrite text_chars.
      * eapply Forall_impl; [exact Hp|]. intros c Hc. unfold ascii_eqb.
        by apply Ascii.eqb_neq.
Qed.

Lemma project_id_of_log_name_witness :
  str_contains "/logs/"
    ("projects/" ++ "lab-xcs-client2" ++ "/logs/" ++ "secretmanager.googleapis.com%2Fsecret_event")
  = true
  /\ str_split "/"
       ("projects/" ++ "lab-xcs-client2" ++ "/logs/" ++ "secretmanager.googleapis.com%2Fsecret_event")
     !! 1 = Some "lab-xcs-client2".
Proof.
  apply (proj2 project_id_of_log_name "lab-xcs-client2"
           "secretmanager.googleapis.com%2Fsecret_event").
  vm_compute. repeat constructor; discriminate.
Defined.

(** ** The runs of the handler *)

Section Renewal.
Context {F : FloatModule} {D : DatetimeModule} {C : CloudModule}.

Lemma handle_secret_expiration_body event h :
  handle_secret_expiration event h
  = match handle_body event h with
    | (Ok status, h') => (status, h')
    | (Raise e, h') => ("ERROR: " ++ str_of_exn e, h')
    end.
Proof. reflexivity. Qed.

Lemma describes_start event name project h :
  describes event name project ->
  handle_body event h
  = (secret_resource ← call (GetSecret name) (fun h => get_secret h name) ;
     match labels secret_resource !! "ccoe_service_account_name",
           labels secret_resource !! "ccoe_expiration_extension_time" with
     | Some ccoe_service_account_name, Some ccoe_expiration_extension_time_str =>
         if negb (truthy (Some ccoe_service_account_name))
            || negb (truthy (Some ccoe_expiration_extension_time_str))
         then mret "OK"
         else
           match parse_time_duration ccoe_expiration_extension_time_str with
           | Raise (ValueError _) =>
               mret "ERROR: Invalid ccoe_expiration_extension_time value"
           | Raise e => raising (Raise e)
           | Ok expiration_extension_time =>
               private_key_data ←
                 call (CreateServiceAccountKey (service_account_resource project
                                                  ccoe_service_account_name))
                   (fun h => create_service_account_key h
                               (service_account_resource project ccoe_service_account_name)) ;
               let key_data := b64encode private_key_data in
               call (AddSecretVersion name key_data)
                 (fun h => add_secret_version h name key_data) ;;
               match expire_time secret_resource with
               | Some current_expiration =>
                   delta ← raising (timedelta_days expiration_extension_time) ;
                   new_expiration ← raising (datetime_add current_expiration delta) ;
                   let new_expiration_str := strftime new_expiration in
                   call (UpdateSecret name new_expiration_str)
                     (fun h => update_secret h name new_expiration_str) ;;
                   mret "OK"
               | None => mret "ERROR: No current expiration time found"
               end
           end
     | _, _ => mret "OK"
     end) h.
Proof.
  intros (Hty & Hname & Hne & Hsid & (rc & Hrc & Hnum) & (ln & Hln & Hlogs & Hsplit) & Hproj).
  unfold handle_body.
  rewrite Hty, bool_decide_eq_true_2 by done. cbn [negb].
  rewrite Hrc, Hname, Hln. cbv zeta. cbn [from_option]. unfold id. rewrite Hlogs, Hsplit, Hsid.
  rewrite !(proj2 (truthy_some _)) by done. cbn [negb andb]. reflexivity.
Qed.

Lemma truthy_false o : truthy o = false <-> o = None \/ o = Some "".
Proof.
  destruct o as [s|]; simpl.
  - destruct (String.eqb s "") eqn:E; simpl.
    + apply String.eqb_eq in E as ->. split; auto.
    + apply String.eqb_neq in E. split; [done|]. intros [? | [= ->]]; done.
  - split; auto.
Qed.

(** X19: an expiration event that lacks information.  Without the
    label [resource_container] the handler returns the text of the
    [AttributeError] that [replace] on [None] raises; with it, and without
    a name, a secret id, a project number or a project id that is present
    and not empty, it returns that information is missing.  It makes no
    call in either case. *)
Theorem incomplete_event (event : Event) (h : list api_call) :
  payload_type event = Some "EXPIRES_IN_1_HOUR" ->
  (label_resource_container event = None ->
   handle_secret_expiration event h
   = ("ERROR: 'NoneType' object has no attribute 'replace'", h))
  /\ (forall resource_container,
        label_resource_container event = Some resource_container ->
        truthy (payload_name event) = false
        \/ truthy (label_secret_id event) = false
        \/ str_replace "projects/" "" resource_container = ""
        \/ str_contains "/logs/" (default "" (logName event)) = false
        \/ str_split "/" (default "" (logName event)) !! 1 = Some "" ->
        handle_secret_expiration event h = ("ERROR: Missing required information", h)).
Proof.
  intros Hty. unfold handle_secret_expiration, handle_body.
  rewrite Hty, bool_decide_eq_true_2 by done. cbn [negb].
  split; [by intros ->|]. intros rc -> Hmissing. cbv zeta.
  destruct (payload_name event) as [secret_name|] eqn:Hname; [|done].
  destruct (str_contains "/logs/" (default "" (logName event))) eqn:Hlogs; [|done].
  destruct (str_split "/" (default "" (logName event)) !! 1) as [project|] eqn:Hsplit; [|done].
  assert (Hfalse : truthy (Some secret_name) && truthy (label_secret_id event)
                   && truthy (Some (str_replace "projects/" "" rc))
                   && truthy (Some project) = false).
  { destruct Hmissing as [Hm | [Hm | [Hm | [Hm | Hm]]]].
    - by rewrite Hm.
    - rewrite Hm. by rewrite andb_false_r.
    - rewrite Hm. cbn [truthy String.eqb negb]. by rewrite !andb_false_r.
    - done.
    - injection Hm as ->. cbn [truthy String.eqb negb]. by rewrite !andb_false_r. }
  by rewrite Hfalse.
Qed.

(** X20: what the handler leaves alone.  For an event of another type
    it returns OK and makes no call; for a secret that lacks one of the
    two labels, or has it empty, it returns OK after reading the secret,
    and creates no key. *)
Theorem left_alone (event : Event) (h : list api_call) :
  (payload_type event <> Some "EXPIRES_IN_1_HOUR" ->
   handle_secret_expiration event h = ("OK", h))
  /\ (forall name project secret,
        describes event name project ->
        get_secret h name = Ok secret ->
        truthy (labels secret !! "ccoe_service_account_name") = false
        \/ truthy (labels secret !! "ccoe_expiration_extension_time") = false ->
        handle_secret_expiration event h = ("OK", (h ++ [GetSecret name])%list)).
Proof.
  split.
  - intros Hty. unfold handle_secret_expiration, handle_body.
    by rewrite bool_decide_eq_false_2.
  - intros name project secret Hev Hget Hlabels.
    rewrite handle_secret_expiration_body, (describes_start _ name project) by done.
    unfold mbind, handler_bind, call at 1. rewrite Hget.
    destruct (labels secret !! "ccoe_service_account_name") as [account|]; [|done].
    destruct (labels secret !! "ccoe_expiration_extension_time") as [label|]; [|done].
    destruct Hlabels as [Hl | Hl]; rewrite Hl; cbn [negb orb]; [done|].
    by rewrite orb_true_r.
Qed.

(** X21: when the label of the extension is no duration,
    the handler returns the error of the invalid value after reading the
    secret; no key is created and no version is added. *)
Theorem invalid_label_creates_no_key (event : Event) (h : list api_call)
    (name project account label : string) (secret : Secret) (e : exn) :
  describes event name project ->
  get_secret h name = Ok secret ->
  labels secret !! "ccoe_service_account_name" = Some account ->
  account <> "" ->
  labels secret !! "ccoe_expiration_extension_time" = Some label ->
  label <> "" ->
  parse_time_duration label = Raise e ->
  handle_secret_expiration event h
  = ("ERROR: Invalid ccoe_expiration_extension_time value", (h ++ [GetSecret name])%list).
Proof.
  intros Hev Hget Hacc Hacc_ne Hlabel Hlabel_ne Hparse.
  rewrite handle_secret_expiration_body, (describes_start _ name project) by done.
  unfold mbind, handler_bind, call at 1. rewrite Hget, Hacc, Hlabel.
  rewrite !(proj2 (truthy_some _)) by done. cbn [negb orb]. rewrite Hparse.
  by pose proof Hparse as [[_ ->] | (_ & -> & _)]%parse_time_duration_raises.
Qed.

(** X22: a call that fails ends the run: when reading the
    secret or creating the key raises, the handler returns ERROR with the
    text of the exception, and the failed call is its last. *)
Theorem api_failure_is_reported (event : Event) (h : list api_call)
    (name project : string) (e : exn) :
  describes event name project ->
  (get_secret h name = Raise e ->
   handle_secret_expiration event h
   = ("ERROR: " ++ str_of_exn e, (h ++ [GetSecret name])%list))
  /\ (forall secret account label d,
        get_secret h name = Ok secret ->
        labels secret !! "ccoe_service_account_name" = Some account ->
        account <> "" ->
        labels secret !! "ccoe_expiration_extension_time" = Some label ->
        parse_time_duration label = Ok d ->
        create_service_account_key (h ++ [GetSecret name])
          (service_account_resource project account) = Raise e ->
        handle_secret_expiration event h
        = ("ERROR: " ++ str_of_exn e,
           (h ++ [GetSecret name;
                  CreateServiceAccountKey (service_account_resource project account)])%list)).
Proof.
  intros Hev. rewrite handle_secret_expiration_body, (describes_start _ name project) by done.
  split.
  - intros Hget. unfold mbind, handler_bind, call at 1. by rewrite Hget.
  - intros secret account label d Hget Hacc Hacc_ne Hlabel Hparse Hkey.
    assert (Hlabel_ne : label <> "").
    { intros ->. unfold parse_time_duration in Hparse. simpl in Hparse. discriminate. }
    unfold mbind, handler_bind, call at 1. rewrite Hget, Hacc, Hlabel.
    rewrite !(proj2 (truthy_some _)) by done. cbn [negb orb]. rewrite Hparse.
    unfold call at 1. rewrite Hkey. by rewrite <- app_assoc.
Qed.

Lemma renews_run event h name project account secret d key :
  renews event h name project account secret d key ->
  handle_body event h
  = (match expire_time secret with
     | Some current_expiration =>
         delta ← raising (timedelta_days d) ;
         new_expiration ← raising (datetime_add current_expiration delta) ;
         let new_expiration_str := strftime new_expiration in
         call (UpdateSecret name new_expiration_str)
           (fun h => update_secret h name new_expiration_str) ;;
         mret "OK"
     | None => mret "ERROR: No current expiration time found"
     end)
      (h ++ [GetSecret name;
             CreateServiceAccountKey (service_account_resource project account);
             AddSecretVersion name (b64encode key)])%list.
Proof.
  intros (Hev & Hget & Hacc & Hacc_ne & (label & Hlabel & Hparse) & Hkey & version & Hadd).
  assert (Hlabel_ne : label <> "").
  { intros ->. unfold parse_time_duration in Hparse. simpl in Hparse. discriminate. }
  rewrite (describes_start _ name project) by done.
  unfold mbind, handler_bind, call at 1. rewrite Hget, Hacc, Hlabel.
  rewrite !(proj2 (truthy_some _)) by done. cbn [negb orb]. rewrite Hparse.
  unfold call at 1. rewrite Hkey.
  unfold call at 1. rewrite <- app_assoc. cbn [app]. rewrite Hadd.
  rewrite <- app_assoc. reflexivity.
Qed.

(** X23: the expiration is looked at after the key was
    created and the version was added.  When the secret has no expiration,
    when the new expiration is out of the range of [datetime], or when the
    update fails, the handler returns an error, and the new key and the
    new version exist. *)
Theorem failures_after_key_creation (event : Event) (h : list api_call)
    (name project account : string) (secret : Secret) (d : float) (key : string) :
  renews event h name project account secret d key ->
  let made :=
    [ GetSecret name;
      CreateServiceAccountKey (service_account_resource project account);
      AddSecretVersion name (b64encode key) ] in
  (expire_time secret = None ->
   handle_secret_expiration event h
   = ("ERROR: No current expiration time found", (h ++ made)%list))
  /\ (forall t delta,
        expire_time secret = Some t -> timedelta_days d = Ok delta ->
        ~ (0 <= t + delta <= datetime_max)%Z ->
        handle_secret_expiration event h
        = ("ERROR: date value out of range", (h ++ made)%list))
  /\ (forall t delta e,
        expire_time secret = Some t -> timedelta_days d = Ok delta ->
        (0 <= t + delta <= datetime_max)%Z ->
        update_secret (h ++ made) name (strftime (t + delta)) = Raise e ->
        handle_secret_expiration event h
        = ("ERROR: " ++ str_of_exn e,
           (h ++ made ++ [UpdateSecret name (strftime (t + delta))])%list)).
Proof.
  intros Hrenews made.
  rewrite handle_secret_expiration_body, (renews_run _ _ _ _ _ _ _ _ Hrenews). fold made.
  split; [|split].
  - by intros ->.
  - intros t delta -> Hdelta Hrange.
    unfold mbind, handler_bind, raising at 1. rewrite Hdelta.
    unfold raising at 1, datetime_add.
    destruct ((0 <=? t + delta)%Z && (t + delta <=? datetime_max)%Z) eqn:Hin; [|done].
    apply andb_true_iff in Hin as [H1%Z.leb_le H2%Z.leb_le]. lia.
  - intros t delta e -> Hdelta Hrange Hupd.
    unfold mbind, handler_bind, raising at 1. rewrite Hdelta.
    unfold raising at 1, datetime_add.
    rewrite (proj2 (andb_true_iff _ _)) by (split; apply Z.leb_le; lia).
    unfold call at 1. rewrite Hupd. by rewrite <- app_assoc.
Qed.

Ltac status := first [by left | right; eexists; reflexivity].

Ltac stopped name resource data expire :=
  intros [= <- <-]; eexists; split; [rewrite <- ?app_assoc; reflexivity|];
  split; [right; exists name, resource, data, expire; split; [done|];
                 eexists; reflexivity
         | status].

Lemma handler_protocol_run (event : Event) (h h' : list api_call) (status : string) :
  handle_secret_expiration event h = (status, h') ->
  exists calls,
    h' = (h ++ calls)%list
    /\ (calls = []
        \/ exists name resource data expire,
             payload_name event = Some name
             /\ calls `prefix_of` renewal_calls name resource data expire)
    /\ is_status status.
Proof.
  assert (Hnone : forall s, is_status s -> (s, h) = (status, h') ->
            exists calls,
              h' = (h ++ calls)%list
              /\ (calls = []
                  \/ exists name resource data expire,
                       payload_name event = Some name
                       /\ calls `prefix_of` renewal_calls name resource data expire)
              /\ is_status status).
  { intros s Hs [= <- <-]. exists []. rewrite app_nil_r. auto. }
  rewrite handle_secret_expiration_body. unfold handle_body.
  destruct (negb _); [apply Hnone; status|].
  destruct (label_resource_container event) as [rc|]; [|apply Hnone; status].
  destruct (payload_name event) as [name|] eqn:Hname; [|apply Hnone; status].
  destruct (if str_contains _ _ then _ else _) as [project|]; [|apply Hnone; status].
  destruct (negb _); [apply Hnone; status|]. clear Hnone.
  unfold mbind, handler_bind, call at 1.
  destruct (get_secret h name) as [secret|e]; [|stopped name "" "" ""].
  destruct (labels secret !! "ccoe_service_account_name") as [account|];
    [|stopped name "" "" ""].
  destruct (labels secret !! "ccoe_expiration_extension_time") as [label|];
    [|stopped name "" "" ""].
  destruct (negb _ || negb _); [stopped name "" "" ""|].
  destruct (parse_time_duration label) as [d|e].
  2: { destruct e; stopped name "" "" "". }
  unfold call at 1.
  set (resource := ("projects/" ++ project ++ "/serviceAccounts/"
                      ++ account ++ "@" ++ project ++ ".iam.gserviceaccount.com")).
  destruct (create_service_account_key _ _) as [key|e]; [|stopped name resource "" ""].
  unfold call at 1.
  destruct (add_secret_version _ _ _) as [version|e];
    [|stopped name resource (b64encode key) ""].
  destruct (expire_time secret) as [t|]; [|stopped name resource (b64encode key) ""].
  unfold raising at 1.
  destruct (timedelta_days d) as [delta|e]; [|stopped name resource (b64encode key) ""].
  unfold raising at 1.
  destruct (datetime_add t delta) as [new|e]; [|stopped name resource (b64encode key) ""].
  unfold call at 1.
  destruct (update_secret _ _ _);
    stopped name resource (b64encode key) (strftime new).
Qed.

(** X24: the calls of a run are a beginning of: read the secret,
    create a key, add a version to the secret, update the secret, all for
    the secret the event names; and the handler returns OK or a text that
    begins with ERROR. *)
Theorem handler_protocol (event : Event) (h : list api_call) :
  exists calls,
    snd (handle_secret_expiration event h) = (h ++ calls)%list
    /\ (calls = []
        \/ exists name resource data expire,
             payload_name event = Some name
             /\ calls `prefix_of` renewal_calls name resource data expire)
    /\ is_status (fst (handle_secret_expiration event h)).
Proof.
  destruct (handle_secret_expiration event h) as [status h'] eqn:Hrun.
  exact (handler_protocol_run event h h' status Hrun).
Qed.

End Renewal.

Lemma example_event_describes : describes example_event example_secret_name "lab-xcs-client2".
Proof.
  unfold describes. repeat split; try discriminate; try reflexivity.
  - eexists. split; [reflexivity|]. vm_compute. discriminate.
  - eexists. split; [reflexivity|]. split; vm_compute; reflexivity.
Qed.

Lemma no_expiry_renews :
  renews (F:=fractions) (C:=cloud_of no_expiry_secret)
    example_event [] example_secret_name "lab-xcs-client2" "srva-rad-01"
    no_expiry_secret (30, 1)%Z "private key".
Proof.
  split; [exact example_event_describes|]. split; [reflexivity|]. split; [reflexivity|].
  split; [discriminate|]. split; [exists "30d"; split; vm_compute; reflexivity|].
  split; [reflexivity|]. by exists "versions/2".
Qed.

Lemma incomplete_event_witness :
  handle_secret_expiration (F:=fractions) (D:=example_datetime) (C:=example_cloud)
    event_without_container []
  = ("ERROR: 'NoneType' object has no attribute 'replace'", []).
Proof.
  exact (proj1 (incomplete_event (F:=fractions) (D:=example_datetime) (C:=example_cloud)
                  event_without_container [] eq_refl) eq_refl).
Defined.

Lemma left_alone_witness :
  handle_secret_expiration (F:=fractions) (D:=example_datetime) (C:=example_cloud)
    other_event [] = ("OK", [])
  /\ handle_secret_expiration (F:=fractions) (D:=example_datetime)
       (C:=cloud_of unlabelled_secret) example_event []
     = ("OK", [GetSecret example_secret_name]).
Proof.
  split.
  - apply (proj1 (left_alone (F:=fractions) (D:=example_datetime) (C:=example_cloud)
                    other_event [])).
    discriminate.
  - apply (proj2 (left_alone (F:=fractions) (D:=example_datetime)
                    (C:=cloud_of unlabelled_secret) example_event [])
             example_secret_name "lab-xcs-client2" unlabelled_secret
             example_event_describes eq_refl).
    right. reflexivity.
Defined.

Lemma invalid_label_creates_no_key_witness :
  parse_time_duration (F:=fractions) "soon" = Raise (invalid_duration "soon")
  /\ handle_secret_expiration (F:=fractions) (D:=example_datetime)
       (C:=cloud_of bad_label_secret) example_event []
     = ("ERROR: Invalid ccoe_expiration_extension_time value",
        [GetSecret example_secret_name]).
Proof.
  assert (H : parse_time_duration (F:=fractions) "soon" = Raise (invalid_duration "soon"))
    by (vm_compute; reflexivity).
  split; [exact H|].
  refine (invalid_label_creates_no_key (F:=fractions) (D:=example_datetime)
            (C:=cloud_of bad_label_secret) example_event [] example_secret_name
            "lab-xcs-client2" "srva-rad-01" "soon" bad_label_secret
            (invalid_duration "soon") example_event_describes eq_refl eq_refl _ eq_refl _ H);
    discriminate.
Defined.

Lemma api_failure_is_reported_witness :
  handle_secret_expiration (F:=fractions) (D:=example_datetime) (C:=failing_cloud)
    example_event []
  = ("ERROR: 404 Secret not found", [GetSecret example_secret_name]).
Proof.
  exact (proj1 (api_failure_is_reported (F:=fractions) (D:=example_datetime)
                  (C:=failing_cloud) example_event [] example_secret_name
                  "lab-xcs-client2" (ApiError "404 Secret not found")
                  example_event_describes) eq_refl).
Defined.

Lemma failures_after_key_creation_witness :
  handle_secret_expiration (F:=fractions) (D:=example_datetime)
    (C:=cloud_of no_expiry_secret) example_event []
  = ("ERROR: No current expiration time found",
     [ GetSecret example_secret_name;
       CreateServiceAccountKey (service_account_resource "lab-xcs-client2" "srva-rad-01");
       AddSecretVersion example_secret_name (b64encode "private key") ]).
Proof.
  exact (proj1 (failures_after_key_creation (F:=fractions) (D:=example_datetime)
                  (C:=cloud_of no_expiry_secret) example_event [] example_secret_name
                  "lab-xcs-client2" "srva-rad-01" no_expiry_secret (30, 1)%Z "private key"
                  no_expiry_renews) eq_refl).
Defined.
